(** * redis-puml-miniapp: the follow-up pipeline, the replay handler and the
      participant's speech queue

    The program is the TypeScript of GAMEPLAN-TECHNICAL-REFERENCE.md:
    [services/server/server.ts] (the [followup:create] and [request:replay]
    Socket.IO handlers, with the rate-limiting and deduplication block that
    is inserted after validation), [apps/participant/src/App.tsx] (the
    [speak]/[processQueue] queue and the [agent:questions] listener) and
    [apps/reviewer/src/App.tsx] ([handleSend]).

    Redis, the OpenAI client, Socket.IO and the browser's speech synthesis
    are the environment of that code.  The Redis commands the handlers call
    are given their documented behaviour in [Module Redis]; the replies of
    the other services and the readings of the clocks are inputs of the
    handlers.

    [Module Server] has each handler as one function, from its call to its
    end.  The handlers are [async]: [Module Node] has them as the event
    loop runs them, suspended at every [await] while the calls and replies
    of other handlers are served. *)

From Stdlib Require Import ZArith List String Ascii Bool Lia.
From stdpp Require Import base gmap list strings.

Local Open Scope Z_scope.

(** ** JavaScript strings and the fingerprint of an item list

    A string is a sequence of code units; the model keeps the code units
    below 256, one [ascii] each, so [String.length] is [.length]. *)

Module JS.

Local Open Scope string_scope.

Definition quote : ascii := ascii_of_nat 34.
Definition backslash : ascii := ascii_of_nat 92.

Definition hex_digit (n : N) : ascii :=
  if (n <? 10)%N then ascii_of_N (48 + n) else ascii_of_N (87 + n).

(** [JSON.stringify] on one code unit of a string. *)
Definition escape_unit (c : ascii) : string :=
  let n := N_of_ascii c in
  if (n =? 34)%N then String backslash (String quote EmptyString)
  else if (n =? 92)%N then String backslash (String backslash EmptyString)
  else if (n =? 8)%N then String backslash "b"
  else if (n =? 12)%N then String backslash "f"
  else if (n =? 10)%N then String backslash "n"
  else if (n =? 13)%N then String backslash "r"
  else if (n =? 9)%N then String backslash "t"
  else if (n <? 32)%N then
    String backslash
      (String "u" (String "0" (String "0"
         (String (hex_digit (n / 16)) (String (hex_digit (n mod 16)) EmptyString)))))
  else String c EmptyString.

Fixpoint escape (s : string) : string :=
  match s with
  | EmptyString => EmptyString
  | String c rest => escape_unit c ++ escape rest
  end.

Definition stringify_string (s : string) : string :=
  String quote (escape s ++ String quote EmptyString).

(** [JSON.stringify(items)] for [items : string[]]. *)
Definition stringify (items : list string) : string :=
  "[" ++ String.concat "," (map stringify_string items) ++ "]".

(** [Buffer.from(s)]: the UTF-8 bytes of the string. *)
Fixpoint utf8 (s : string) : list N :=
  match s with
  | EmptyString => []
  | String c rest =>
      let n := N_of_ascii c in
      if (n <? 128)%N then n :: utf8 rest
      else (192 + n / 64)%N :: (128 + n mod 64)%N :: utf8 rest
  end.

Definition b64_digit (n : N) : ascii :=
  if (n <? 26)%N then ascii_of_N (65 + n)
  else if (n <? 52)%N then ascii_of_N (97 + (n - 26))
  else if (n <? 62)%N then ascii_of_N (48 + (n - 52))
  else if (n =? 62)%N then "+"%char
  else "/"%char.

(** [buf.toString('base64')]. *)
Fixpoint base64 (bytes : list N) : string :=
  match bytes with
  | [] => EmptyString
  | [a] =>
      String (b64_digit (a / 4))
        (String (b64_digit ((a mod 4) * 16)) "==")
  | [a; b] =>
      String (b64_digit (a / 4))
        (String (b64_digit ((a mod 4) * 16 + b / 16))
           (String (b64_digit ((b mod 16) * 4)) "="))
  | a :: b :: c :: rest =>
      String (b64_digit (a / 4))
        (String (b64_digit ((a mod 4) * 16 + b / 16))
           (String (b64_digit ((b mod 16) * 4 + c / 64))
              (String (b64_digit (c mod 64)) (base64 rest))))
  end.

(** [items.join(sep)]. *)
Definition join (sep : string) (items : list string) : string :=
  String.concat sep items.

End JS.

(** ** The Redis commands the server calls *)

Module Redis.

(** A string key: its value and, when a TTL is set, the Unix time in
    milliseconds at which it expires.  The two values the server stores
    (the counter of INCR and the ['1'] of the dedupe mark) are decimal
    integers, kept as [Z]. *)
Record Value := { val : Z; expireAt : option Z }.

(** A key is gone once the clock is past its expiry (checked lazily, when
    the key is next accessed). *)
Definition live (now : Z) (v : Value) : bool :=
  match expireAt v with
  | None => true
  | Some t => now <=? t
  end.

Definition lookup_live (now : Z) (k : string) (db : gmap string Value) : option Value :=
  match db !! k with
  | Some v => if live now v then Some v else None
  | None => None
  end.

(** INCR: a missing key counts as 0; the TTL of a live key is kept. *)
Definition incr (k : string) (now : Z) (db : gmap string Value) : Z * gmap string Value :=
  match lookup_live now k db with
  | Some v => (val v + 1, <[k := {| val := val v + 1; expireAt := expireAt v |}]> db)
  | None => (1, <[k := {| val := 1; expireAt := None |}]> db)
  end.

(** EXPIRE key seconds: the TTL restarts from now; nothing for a missing key. *)
Definition expire (k : string) (secs : Z) (now : Z) (db : gmap string Value) : gmap string Value :=
  match lookup_live now k db with
  | Some v => <[k := {| val := val v; expireAt := Some (now + secs * 1000) |}]> db
  | None => db
  end.

(** GET: [null] for a missing or expired key. *)
Definition get (k : string) (now : Z) (db : gmap string Value) : option Z :=
  val <$> lookup_live now k db.

(** SET key value EX seconds. *)
Definition set_ex (k : string) (v : Z) (secs : Z) (now : Z) (db : gmap string Value) : gmap string Value :=
  <[k := {| val := v; expireAt := Some (now + secs * 1000) |}]> db.

(** Stream entry ids, [<ms>-<seq>], ordered by [ms] and then [seq]. *)
Record StreamID := { ms : Z; seq : Z }.

Definition id_ltb (a b : StreamID) : bool :=
  (ms a <? ms b) || ((ms a =? ms b) && (seq a <? seq b)).

Definition id_lt (a b : StreamID) : Prop := id_ltb a b = true.

(** The id ['0'], below every id of a stream. *)
Definition id0 : StreamID := {| ms := 0; seq := 0 |}.

Abbreviation stream A := (list (StreamID * A)).

Definition last_id {A} (s : stream A) : StreamID :=
  match last s with
  | Some e => fst e
  | None => id0
  end.

(** The id XADD generates for ['*']: the clock with sequence number 0, or
    the last id with its sequence number incremented when the clock is not
    past the last id's millisecond. *)
Definition next_id (now : Z) (top : StreamID) : StreamID :=
  if ms top <? now then {| ms := now; seq := 0 |}
  else {| ms := ms top; seq := seq top + 1 |}.

(** XADD stream '*' fields. *)
Definition xAdd {A} (now : Z) (fields : A) (s : stream A) : StreamID * stream A :=
  let i := next_id now (last_id s) in (i, s ++ [(i, fields)]).

(** XREAD COUNT count STREAMS stream id: the first [count] entries whose id
    is greater than [id]; [null] when there is none. *)
Definition xRead {A} (id : StreamID) (count : nat) (s : stream A) : option (stream A) :=
  match take count (List.filter (fun e => id_ltb id (fst e)) s) with
  | [] => None
  | es => Some es
  end.

(** The ids of a stream go up from entry to entry, starting above [lo]. *)
Fixpoint above {A} (lo : StreamID) (s : stream A) : Prop :=
  match s with
  | [] => True
  | m :: rest => id_lt lo (fst m) /\ above (fst m) rest
  end.

End Redis.

(** ** packages/shared/src/types.ts *)

Module Shared.

Record FollowUpPayload := { items : list string; createdAt : Z }.

Record AgentQuestions := {
  text : string;
  aq_createdAt : Z;
  streamId : option Redis.StreamID
}.

End Shared.

(** ** services/server/server.ts *)

Module Server.

Import Redis Shared.

(** The fields of an entry of [followups:stream] and of [questions:stream]
    ([createdAt] is written with [toString] and read back with [parseInt];
    the model keeps the number). *)
Record FollowupFields := { f_items : string; f_createdAt : Z; f_socketId : string }.
Record QuestionFields := { q_text : string; q_createdAt : Z }.

(** The Redis database the server talks to. *)
Record DB := {
  keys : gmap string Value;
  followups : stream FollowupFields;
  questions : stream QuestionFields
}.

Definition empty_db : DB := {| keys := ∅; followups := []; questions := [] |}.

(** The five [console.error(...); return;] exits of the handler, named after
    what they log: 'Empty items', 'Too many items', 'Too many characters',
    'Rate limit exceeded', 'Duplicate request'. *)
Inductive Reject := EmptyInput | TooManyItems | TooManyCharacters | RateLimited | Duplicate.

(** The awaited calls of [followup:create], in program order; each can
    throw. *)
Inductive Point :=
  AtIncr | AtExpire | AtGet | AtSet | AtXAddFollowups | AtOpenAI | AtXAddQuestions | AtPublish.

#[global] Instance Point_eq_dec : EqDecision Point.
Proof. solve_decision. Defined.

#[global] Instance Reject_eq_dec : EqDecision Reject.
Proof. solve_decision. Defined.

Inductive Cmd := INCR | EXPIRE | GET | SET | XADD | XREAD.

(** What a handler does to the outside, in the order it does it. *)
Inductive Effect :=
| Call (c : Cmd) (key : string)                  (* a Redis command is issued *)
| OpenAI (content : string)                      (* chat.completions.create *)
| Publish (channel : string) (ev : AgentQuestions)  (* redis.publish *)
| SocketEmit (sock : string) (ev : AgentQuestions)  (* socket.emit('agent:questions') *)
| IoEmit (ev : AgentQuestions)                   (* app.io.emit('agent:questions') *)
| ConsoleError (r : Reject).

(** What the environment does during one run of [followup:create]:
    Redis's clock when the admission commands and the XADD on
    [followups:stream] run, and when the XADD on [questions:stream] runs;
    the four readings of [Date.now()], in program order (the [createdAt] of
    the stored entry, of the published message, of the broadcast event, and
    of the apology in the [catch] block); the awaited call that throws, if
    one does; and [choices[0].message.content]. *)
Record Env := {
  now : Z;
  later : Z;
  storedAt : Z;
  publishedAt : Z;
  broadcastAt : Z;
  caughtAt : Z;
  fault : option Point;
  content : option string
}.

(** *** The handler monad: state, effects, early [return], exceptions *)

Inductive Res (A : Type) :=
| Val (a : A)
| Exit (r : Reject)
| Exn.
Arguments Val {A} a.
Arguments Exit {A} r.
Arguments Exn {A}.

Definition M (A : Type) : Type := DB -> Res A * DB * list Effect.

Definition ret {A} (a : A) : M A := fun s => (Val a, s, []).

Definition bind {A B} (m : M A) (f : A -> M B) : M B :=
  fun s =>
    match m s with
    | (Val a, s1, t1) => let '(r, s2, t2) := f a s1 in (r, s2, t1 ++ t2)
    | (Exit r, s1, t1) => (Exit r, s1, t1)
    | (Exn, s1, t1) => (Exn, s1, t1)
    end.

Notation "x <- m ;; k" := (bind m (fun x => k))
  (at level 100, m at next level, right associativity).
Notation "m ;;; k" := (bind m (fun _ => k))
  (at level 100, right associativity).

(** [if (c) { console.error(r); return; }] *)
Definition reject_if (c : bool) (r : Reject) : M unit :=
  fun s => if c then (Exit r, s, [ConsoleError r]) else (Val tt, s, []).

(** An awaited call: it is issued, and either throws or acts on the
    database and returns. *)
Definition await {A} (e : Env) (p : Point) (eff : Effect) (f : DB -> A * DB) : M A :=
  fun s =>
    if decide (fault e = Some p) then (Exn, s, [eff])
    else let '(a, s') := f s in (Val a, s', [eff]).

Definition emit (eff : Effect) : M unit := fun s => (Val tt, s, [eff]).

Definition with_keys (s : DB) (k : gmap string Value) : DB :=
  {| keys := k; followups := followups s; questions := questions s |}.

Definition redis_incr (e : Env) (k : string) : M Z :=
  await e AtIncr (Call INCR k)
    (fun s => let '(n, k') := incr k (now e) (keys s) in (n, with_keys s k')).

Definition redis_expire (e : Env) (k : string) (secs : Z) : M unit :=
  await e AtExpire (Call EXPIRE k)
    (fun s => (tt, with_keys s (expire k secs (now e) (keys s)))).

Definition redis_get (e : Env) (k : string) : M (option Z) :=
  await e AtGet (Call GET k) (fun s => (get k (now e) (keys s), s)).

Definition redis_set_ex (e : Env) (k : string) (v secs : Z) : M unit :=
  await e AtSet (Call SET k)
    (fun s => (tt, with_keys s (set_ex k v secs (now e) (keys s)))).

Definition xAdd_followups (e : Env) (f : FollowupFields) : M StreamID :=
  await e AtXAddFollowups (Call XADD "followups:stream")
    (fun s => let '(i, fs) := xAdd (now e) f (followups s) in
              (i, {| keys := keys s; followups := fs; questions := questions s |})).

Definition xAdd_questions (e : Env) (q : QuestionFields) : M StreamID :=
  await e AtXAddQuestions (Call XADD "questions:stream")
    (fun s => let '(i, qs) := xAdd (later e) q (questions s) in
              (i, {| keys := keys s; followups := followups s; questions := qs |})).

(** [response.choices[0].message.content || 'No response'] *)
Definition aiText (e : Env) : string :=
  match content e with
  | Some c => if decide (c = ""%string) then "No response"%string else c
  | None => "No response"%string
  end.

Definition openai_create (e : Env) (user : string) : M string :=
  await e AtOpenAI (OpenAI user) (fun s => (aiText e, s)).

Definition redis_publish (e : Env) (channel : string) (ev : AgentQuestions) : M unit :=
  await e AtPublish (Publish channel ev) (fun s => (tt, s)).

(** *** [followup:create] *)

(** Lines 212-227: validation. *)
Definition validate (data : FollowUpPayload) : M unit :=
  reject_if (length (items data) =? 0)%nat EmptyInput ;;;
  reject_if (8 <? length (items data))%nat TooManyItems ;;;
  let totalChars := String.length (JS.join "" (items data)) in
  reject_if (300 <? totalChars)%nat TooManyCharacters.

Definition rateLimitKey (sock : string) : string := ("rate:" ++ sock)%string.

(** The rate-limiting block, "add to server after validation". *)
Definition rate_limit (e : Env) (sock : string) : M unit :=
  count <- redis_incr e (rateLimitKey sock) ;;
  redis_expire e (rateLimitKey sock) 60 ;;;
  reject_if (10 <? count) RateLimited.

Definition itemsHash (data : FollowUpPayload) : string :=
  JS.base64 (JS.utf8 (JS.stringify (items data))).

Definition dedupKey (data : FollowUpPayload) : string := ("dedup:" ++ itemsHash data)%string.

(** The deduplication block that follows it. *)
Definition dedupe (e : Env) (data : FollowUpPayload) : M unit :=
  exists_ <- redis_get e (dedupKey data) ;;
  reject_if (bool_decide (is_Some exists_)) Duplicate ;;;
  redis_set_ex e (dedupKey data) 1 300.

Definition apology : string := "Sorry, I encountered an error generating questions.".

(** Admission: validation, then the two blocks added after it. *)
Definition admission (e : Env) (sock : string) (data : FollowUpPayload) : M unit :=
  validate data ;;;
  rate_limit e sock ;;;
  dedupe e data.

(** The rest of the [try] block: store the follow-up, call OpenAI, store
    the questions, publish, broadcast. *)
Definition generate (e : Env) (sock : string) (data : FollowUpPayload) : M unit :=
  xAdd_followups e {| f_items := JS.stringify (items data);
                      f_createdAt := createdAt data;
                      f_socketId := sock |} ;;;
  aiText <- openai_create e ("Items: " ++ JS.join ", " (items data))%string ;;
  streamId <- xAdd_questions e {| q_text := aiText; q_createdAt := storedAt e |} ;;
  redis_publish e "questions:live"
    {| text := aiText; aq_createdAt := publishedAt e; streamId := Some streamId |} ;;;
  emit (IoEmit {| text := aiText; aq_createdAt := broadcastAt e; streamId := Some streamId |}).

(** The body of the [try] block. *)
Definition followup_try (e : Env) (sock : string) (data : FollowUpPayload) : M unit :=
  admission e sock data ;;;
  generate e sock data.

(** The event of the [catch] block. *)
Definition apology_event (e : Env) : AgentQuestions :=
  {| text := apology; aq_createdAt := caughtAt e; streamId := None |}.

(** How a run of the handler ends: the broadcast was sent, one of the
    early returns was taken, or the [catch] block ran. *)
Inductive Outcome := Broadcast | Rejected (r : Reject) | Caught.

(** [socket.on('followup:create', async (data) => { try {...} catch {...} })] *)
Definition followup_create (e : Env) (sock : string) (data : FollowUpPayload)
    (s : DB) : Outcome * DB * list Effect :=
  match followup_try e sock data s with
  | (Val _, s', t) => (Broadcast, s', t)
  | (Exit r, s', t) => (Rejected r, s', t)
  | (Exn, s', t) =>
      (Caught, s',
       t ++ [SocketEmit sock (apology_event e)])
  end.

Definition outcome_of (r : Outcome * DB * list Effect) : Outcome := fst (fst r).
Definition db_of {A} (r : A * DB * list Effect) : DB := snd (fst r).
Definition effects_of {A} (r : A * DB * list Effect) : list Effect := snd r.

(** *** [request:replay] *)

Definition replayed (m : StreamID * QuestionFields) : AgentQuestions :=
  {| text := q_text (snd m); aq_createdAt := q_createdAt (snd m); streamId := Some (fst m) |}.

(** [socket.on('request:replay', async (lastStreamId) => {...})]: one XREAD
    from [lastStreamId || '0'] with COUNT 100, every message of the reply
    emitted to the requesting socket; [throws] is an XREAD that fails, which
    the handler's [catch] only logs. *)
Definition request_replay (throws : bool) (sock : string) (lastStreamId : option StreamID)
    (s : DB) : DB * list Effect :=
  let id := default id0 lastStreamId in
  if throws then (s, [Call XREAD "questions:stream"])
  else
    match xRead id 100 (questions s) with
    | Some messages =>
        (s, Call XREAD "questions:stream" :: map (fun m => SocketEmit sock (replayed m)) messages)
    | None => (s, [Call XREAD "questions:stream"])
    end.

(** *** The server, one request after the other *)

Inductive Request :=
| FollowUp (e : Env) (sock : string) (data : FollowUpPayload)
| ReplayRequest (throws : bool) (sock : string) (lastStreamId : option StreamID).

(** A request handled from the call of its handler to its end, nothing
    else being served in between; and requests handled so one after the
    other.  The server does not wait for a handler to end before it calls
    the next: [Module Node] below has the handlers with their awaits
    overlapping. *)
Definition handle (s : DB) (r : Request) : DB * list Effect :=
  match r with
  | FollowUp e sock data =>
      let x := followup_create e sock data s in (db_of x, effects_of x)
  | ReplayRequest throws sock lastStreamId => request_replay throws sock lastStreamId s
  end.

Definition serve (s : DB) (rs : list Request) : DB :=
  fold_left (fun s r => fst (handle s r)) rs s.

Definition socket_of (r : Request) : string :=
  match r with
  | FollowUp _ sock _ => sock
  | ReplayRequest _ sock _ => sock
  end.

(** *** Readings of a state and of a run, for the statements below *)

(** [data.items.join('').length] *)
Definition totalChars (data : FollowUpPayload) : nat :=
  String.length (JS.join "" (items data)).

(** The validation guard that fires, if one does. *)
Definition shape (data : FollowUpPayload) : option Reject :=
  if (length (items data) =? 0)%nat then Some EmptyInput
  else if (8 <? length (items data))%nat then Some TooManyItems
  else if (300 <? totalChars data)%nat then Some TooManyCharacters
  else None.

(** The count a socket's rate key holds at [t]: 0 when the key is missing
    or has expired. *)
Definition windowCount (t : Z) (sock : string) (s : DB) : Z :=
  default 0 (get (rateLimitKey sock) t (keys s)).

(** A dedupe mark for the item list of [data] is live at [t]. *)
Definition marked (t : Z) (data : FollowUpPayload) (s : DB) : bool :=
  bool_decide (is_Some (get (dedupKey data) t (keys s))).

(** A run of [followup:create] whose INCR and EXPIRE are both executed. *)
Definition counted (e : Env) (data : FollowUpPayload) : bool :=
  bool_decide (shape data = None) &&
  negb (bool_decide (fault e = Some AtIncr)) && negb (bool_decide (fault e = Some AtExpire)).

(** How many requests of [rs] were counted against [sock]. *)
Definition counted_calls (sock : string) (rs : list Request) : nat :=
  length (List.filter
            (fun r => match r with
                      | FollowUp e c data => bool_decide (c = sock) && counted e data
                      | ReplayRequest _ _ _ => false
                      end) rs).

(** The [agent:questions] events (and the pub/sub messages) among the
    effects of a run. *)
Definition delivered (t : list Effect) : list AgentQuestions :=
  flat_map (fun x => match x with
                     | SocketEmit _ ev => [ev]
                     | IoEmit ev => [ev]
                     | Publish _ ev => [ev]
                     | _ => []
                     end) t.

(** The event a run broadcasts when it gets that far in state [s], and the
    message it publishes before. *)
Definition question (e : Env) (s : DB) : AgentQuestions :=
  {| text := aiText e; aq_createdAt := broadcastAt e;
     streamId := Some (next_id (later e) (last_id (questions s))) |}.

Definition published (e : Env) (s : DB) : AgentQuestions :=
  {| text := aiText e; aq_createdAt := publishedAt e;
     streamId := Some (next_id (later e) (last_id (questions s))) |}.

(** The events [request:replay] sends to the socket. *)
Definition replay_events (sock : string) (lastStreamId : option StreamID) (s : DB)
    : list AgentQuestions :=
  delivered (snd (request_replay false sock lastStreamId s)).

(** The commands of a run that append to [questions:stream]. *)
Definition question_appends (t : list Effect) : nat :=
  length (List.filter
            (fun x => match x with
                      | Call XADD k => bool_decide (k = "questions:stream"%string)
                      | _ => false
                      end) t).

(** The entry a run appends to [questions:stream] in state [s]. *)
Definition entry (e : Env) (s : DB) : StreamID * QuestionFields :=
  (next_id (later e) (last_id (questions s)), {| q_text := aiText e; q_createdAt := storedAt e |}).

(** The awaited calls of a run and its broadcast, in program order. *)
Definition script (e : Env) (sock : string) (data : FollowUpPayload) (s : DB) : list Effect :=
  [ Call INCR (rateLimitKey sock); Call EXPIRE (rateLimitKey sock);
    Call GET (dedupKey data); Call SET (dedupKey data);
    Call XADD "followups:stream";
    OpenAI ("Items: " ++ JS.join ", " (items data))%string;
    Call XADD "questions:stream";
    Publish "questions:live" (published e s);
    IoEmit (question e s) ].

(** The admission commands of a run do not throw before the dedupe check
    has been made. *)
Definition checks_run (e : Env) : Prop :=
  fault e <> Some AtIncr /\ fault e <> Some AtExpire /\ fault e <> Some AtGet.

(** The run passes admission: it gets past the SET of the dedupe mark. *)
Definition admitted (e : Env) (sock : string) (data : FollowUpPayload) (s : DB) : Prop :=
  exists s' t, admission e sock data s = (Val tt, s', t).

(** A mark that is live at every time up to [T]. *)
Definition mark_until (T : Z) (o : option Value) : Prop :=
  exists v, o = Some v /\ forall t, t <= T -> live t v = true.

End Server.

(** ** apps/participant/src/App.tsx *)

Module Participant.

Import Redis Shared.

Inductive Status := disconnected | ready | speaking.

(** What the speech synthesiser has been asked and has reported: an
    utterance is rendering from the [speechSynthesis.speak] that starts it
    to the [onend] or [onerror] that ends it. *)
Inductive Render := Start (t : string) | Stop (t : string).

(** The refs and state of the component, with the utterances handed to
    [speechSynthesis.speak] that have not ended yet ([rendering]) and the
    history of all renderings ([log]). *)
Record App := {
  status : Status;
  messages : list AgentQuestions;
  lastStreamId : option StreamID;
  speakQueue : list string;
  isSpeaking : bool;
  rendering : list string;
  log : list Render
}.

Definition init : App :=
  {| status := disconnected; messages := []; lastStreamId := None;
     speakQueue := []; isSpeaking := false; rendering := []; log := [] |}.

(** [processQueue] up to the point where the utterance is handed over. *)
Definition processQueue (a : App) : App :=
  if isSpeaking a || (length (speakQueue a) =? 0)%nat then a
  else
    match speakQueue a with
    | [] => a
    | t :: rest =>
        {| status := speaking; messages := messages a; lastStreamId := lastStreamId a;
           speakQueue := rest; isSpeaking := true;
           rendering := rendering a ++ [t]; log := log a ++ [Start t] |}
    end.

(** [speak(text)] *)
Definition speak (t : string) (a : App) : App :=
  processQueue
    {| status := status a; messages := messages a; lastStreamId := lastStreamId a;
       speakQueue := speakQueue a ++ [t]; isSpeaking := isSpeaking a;
       rendering := rendering a; log := log a |}.

(** The utterance at the head of [rendering] ends: the browser takes it
    off and calls its handler. *)
Definition finished (a : App) : option (string * App) :=
  match rendering a with
  | [] => None
  | t :: rest =>
      Some (t, {| status := status a; messages := messages a; lastStreamId := lastStreamId a;
                  speakQueue := speakQueue a; isSpeaking := isSpeaking a;
                  rendering := rest; log := log a ++ [Stop t] |})
  end.

(** [utterance.onend] *)
Definition onend (a : App) : App :=
  processQueue
    {| status := if (length (speakQueue a) =? 0)%nat then ready else status a;
       messages := messages a; lastStreamId := lastStreamId a;
       speakQueue := speakQueue a; isSpeaking := false;
       rendering := rendering a; log := log a |}.

(** [utterance.onerror] *)
Definition onerror (a : App) : App :=
  processQueue
    {| status := ready; messages := messages a; lastStreamId := lastStreamId a;
       speakQueue := speakQueue a; isSpeaking := false;
       rendering := rendering a; log := log a |}.

(** [socket.on('agent:questions', ...)] *)
Definition on_agent_questions (data : AgentQuestions) (a : App) : App :=
  let a1 := speak (text data)
              {| status := status a; messages := messages a ++ [data];
                 lastStreamId := lastStreamId a; speakQueue := speakQueue a;
                 isSpeaking := isSpeaking a; rendering := rendering a; log := log a |} in
  match streamId data with
  | Some i =>
      {| status := status a1; messages := messages a1; lastStreamId := Some i;
         speakQueue := speakQueue a1; isSpeaking := isSpeaking a1;
         rendering := rendering a1; log := log a1 |}
  | None => a1
  end.

(** [socket.on('connect', ...)]: the new state and the [request:replay]
    argument it emits. *)
Definition on_connect (a : App) : App * option StreamID :=
  ({| status := ready; messages := messages a; lastStreamId := lastStreamId a;
      speakQueue := speakQueue a; isSpeaking := isSpeaking a;
      rendering := rendering a; log := log a |}, lastStreamId a).

(** [socket.on('disconnect', ...)] *)
Definition on_disconnect (a : App) : App :=
  {| status := disconnected; messages := messages a; lastStreamId := lastStreamId a;
     speakQueue := speakQueue a; isSpeaking := isSpeaking a;
     rendering := rendering a; log := log a |}.

(** What can happen to the component. *)
Inductive Event :=
| Received (data : AgentQuestions)   (* an [agent:questions] event arrives *)
| Ended                              (* the utterance being rendered ends *)
| Errored                            (* ... or fails *)
| Connected
| Disconnected.

(** One event; [None] when the browser cannot raise it (no utterance is
    rendering, so none can end or fail). *)
Definition step (a : App) (ev : Event) : option App :=
  match ev with
  | Received data => Some (on_agent_questions data a)
  | Ended => match finished a with Some (_, a') => Some (onend a') | None => None end
  | Errored => match finished a with Some (_, a') => Some (onerror a') | None => None end
  | Connected => Some (fst (on_connect a))
  | Disconnected => Some (on_disconnect a)
  end.

Fixpoint run (a : App) (evs : list Event) : option App :=
  match evs with
  | [] => Some a
  | ev :: rest => match step a ev with Some a' => run a' rest | None => None end
  end.

(** The texts enqueued by a sequence of events, in order. *)
Definition enqueued (evs : list Event) : list string :=
  flat_map (fun ev => match ev with Received d => [text d] | _ => [] end) evs.

(** A history in which renderings do not overlap: each [Start] is followed
    by its own [Stop] before the next [Start]. *)
Fixpoint serial (l : list Render) : bool :=
  match l with
  | [] => true
  | [Start _] => true
  | Start t :: Stop u :: rest => bool_decide (t = u) && serial rest
  | _ => false
  end.

(** The texts whose rendering has started, in order. *)
Definition started (l : list Render) : list string :=
  flat_map (fun r => match r with Start t => [t] | Stop _ => [] end) l.

(** The history of renderings that ran to their end, one after the other. *)
Definition pairs (ts : list string) : list Render :=
  flat_map (fun t => [Start t; Stop t]) ts.

(** What holds of the component after the texts [q] were enqueued. *)
Definition queue_inv (q : list string) (a : App) : Prop :=
  exists done,
    log a = pairs done ++ map Start (rendering a) /\
    done ++ rendering a ++ speakQueue a = q /\
    ((isSpeaking a = true /\ exists t, rendering a = [t]) \/
     (isSpeaking a = false /\ rendering a = [] /\ speakQueue a = [])).

End Participant.

(** ** The handlers as Node runs them: from one [await] to the next

    A handler runs until its next [await], where it has issued a call to
    Redis or to OpenAI, and goes on when the reply of that call is handled;
    in between the calls and the replies of other handlers are served.
    Below, a handler in flight is a thread: the request it handles and the
    awaited call it stands at.  The code between two awaits is the code of
    [Module Server], segment by segment. *)

Module Node.

Import Redis Shared Server.

(** The awaited call a handler has issued, with the local variables the
    rest of the handler reads: [count] after INCR, [aiText] after the
    completion, [streamId] after the XADD on [questions:stream]. *)
Inductive Await :=
| AwIncr
| AwExpire (count : Z)
| AwGet
| AwSet
| AwXAddFollowups
| AwOpenAI
| AwXAddQuestions (aiText : string)
| AwPublish (aiText : string) (streamId : StreamID)
| AwXRead.

(** Where a handler stands when it gives the event loop back: at an
    await, or at its end ([followup:create] with its outcome,
    [request:replay] served). *)
Inductive Progress :=
| Waiting (a : Await)
| Ended (o : Outcome)
| Served.

(** A segment of [followup:create] inside its [try]: it gets to the next
    await, to a [return], or through a throw to the [catch] block. *)
Definition settle (e : Env) (sock : string) (m : M Progress) (s : DB)
    : Progress * DB * list Effect :=
  match m s with
  | (Val p, s', t) => (p, s', t)
  | (Exit r, s', t) => (Ended (Rejected r), s', t)
  | (Exn, s', t) => (Ended Caught, s', t ++ [SocketEmit sock (apology_event e)])
  end.

(** The handler is called: [followup:create] validates and issues INCR,
    [request:replay] issues XREAD. *)
Definition arrive (r : Request) (s : DB) : Progress * DB * list Effect :=
  match r with
  | FollowUp e sock data => settle e sock (validate data ;;; ret (Waiting AwIncr)) s
  | ReplayRequest _ _ _ => (Waiting AwXRead, s, [])
  end.

(** The awaited call is served in state [s] and the handler runs on with
    its reply, to its next await or to its end. *)
Definition resume (r : Request) (a : Await) (s : DB) : Progress * DB * list Effect :=
  match r, a with
  | FollowUp e sock data, AwIncr =>
      settle e sock (count <- redis_incr e (rateLimitKey sock) ;;
                     ret (Waiting (AwExpire count))) s
  | FollowUp e sock data, AwExpire count =>
      settle e sock (redis_expire e (rateLimitKey sock) 60 ;;;
                     reject_if (10 <? count) RateLimited ;;;
                     ret (Waiting AwGet)) s
  | FollowUp e sock data, AwGet =>
      settle e sock (exists_ <- redis_get e (dedupKey data) ;;
                     reject_if (bool_decide (is_Some exists_)) Duplicate ;;;
                     ret (Waiting AwSet)) s
  | FollowUp e sock data, AwSet =>
      settle e sock (redis_set_ex e (dedupKey data) 1 300 ;;;
                     ret (Waiting AwXAddFollowups)) s
  | FollowUp e sock data, AwXAddFollowups =>
      settle e sock (xAdd_followups e {| f_items := JS.stringify (items data);
                                         f_createdAt := createdAt data;
                                         f_socketId := sock |} ;;;
                     ret (Waiting AwOpenAI)) s
  | FollowUp e sock data, AwOpenAI =>
      settle e sock (aiText <- openai_create e ("Items: " ++ JS.join ", " (items data))%string ;;
                     ret (Waiting (AwXAddQuestions aiText))) s
  | FollowUp e sock data, AwXAddQuestions aiText =>
      settle e sock (streamId <- xAdd_questions e {| q_text := aiText;
                                                     q_createdAt := storedAt e |} ;;
                     ret (Waiting (AwPublish aiText streamId))) s
  | FollowUp e sock data, AwPublish aiText streamId =>
      settle e sock (redis_publish e "questions:live"
                       {| text := aiText; aq_createdAt := publishedAt e;
                          streamId := Some streamId |} ;;;
                     emit (IoEmit {| text := aiText; aq_createdAt := broadcastAt e;
                                     streamId := Some streamId |}) ;;;
                     ret (Ended Broadcast)) s
  | ReplayRequest throws sock lastStreamId, AwXRead =>
      let x := request_replay throws sock lastStreamId s in (Served, fst x, snd x)
  | FollowUp _ _ _, AwXRead => (Served, s, [])
  | ReplayRequest _ _ _, _ => (Served, s, [])
  end.

(** A handler that nothing interrupts, from its call to its end. *)
Fixpoint finish (fuel : nat) (r : Request) (p : Progress) (s : DB)
    : Progress * DB * list Effect :=
  match fuel, p with
  | S n, Waiting a =>
      let '(p1, s1, t1) := resume r a s in
      let '(p2, s2, t2) := finish n r p1 s1 in
      (p2, s2, t1 ++ t2)
  | _, _ => (p, s, [])
  end.

Definition alone (r : Request) (s : DB) : Progress * DB * list Effect :=
  let '(p0, s0, t0) := arrive r s in
  let '(p1, s1, t1) := finish 8 r p0 s0 in
  (p1, s1, t0 ++ t1).

(** A handler in flight: its call is issued ([At (Waiting a)]), or served
    but the reply not handled yet, [next] and [out] being where the handler
    gets to and what it does when it handles it ([Answered]), or it is over
    ([At] its end). *)
Inductive Stage :=
| At (p : Progress)
| Answered (next : Progress) (out : list Effect).

Record Thread := { request : Request; stage : Stage }.

Inductive Origin := Live | Replay | Notice.

#[global] Instance Origin_eq_dec : EqDecision Origin.
Proof. solve_decision. Defined.

(** An event as a socket is sent it: by a broadcast, by a replay, or as
    the apology of a [catch] block. *)
Record Sent := { to : string; origin : Origin; event : AgentQuestions }.

Record State := {
  db : DB;
  connected : list string;
  threads : list Thread;
  (* every event sent to a connected socket, oldest first *)
  sent : list Sent
}.

Definition start : State :=
  {| db := empty_db; connected := []; threads := []; sent := [] |}.

(** [socket.emit]: a socket that has gone is sent nothing. *)
Definition socket_emit (conn : list string) (c : string) (o : Origin)
    (ev : AgentQuestions) : list Sent :=
  if bool_decide (c ∈ conn) then [{| to := c; origin := o; event := ev |}] else [].

(** [app.io.emit]: every connected socket. *)
Definition io_emit (conn : list string) (ev : AgentQuestions) : list Sent :=
  map (fun c => {| to := c; origin := Live; event := ev |}) conn.

(** What the sockets are sent when a handler for [r] does [out]. *)
Definition deliver (conn : list string) (r : Request) (out : list Effect) : list Sent :=
  flat_map (fun eff =>
              match eff with
              | SocketEmit c ev =>
                  socket_emit conn c
                    (match r with ReplayRequest _ _ _ => Replay | FollowUp _ _ _ => Notice end) ev
              | IoEmit ev => io_emit conn ev
              | _ => []
              end) out.

Inductive Step :=
| Connect (c : string)
| Disconnect (c : string)
| Arrive (r : Request)          (* a connected socket emits an event: its handler is called *)
| Exec (i : nat)                (* the call thread [i] awaits is served *)
| Resume (i : nat).             (* thread [i] handles the reply *)

Definition advance (st : State) (x : Step) : option State :=
  match x with
  | Connect c =>
      if bool_decide (c ∈ connected st) then None
      else Some {| db := db st; connected := connected st ++ [c];
                   threads := threads st; sent := sent st |}
  | Disconnect c =>
      if bool_decide (c ∈ connected st) then
        Some {| db := db st;
                connected := List.filter (fun d => negb (bool_decide (d = c))) (connected st);
                threads := threads st; sent := sent st |}
      else None
  | Arrive r =>
      if bool_decide (socket_of r ∈ connected st) then
        let '(p, s, out) := arrive r (db st) in
        Some {| db := s; connected := connected st;
                threads := threads st ++ [{| request := r; stage := At p |}];
                sent := sent st ++ deliver (connected st) r out |}
      else None
  | Exec i =>
      match threads st !! i with
      | Some {| request := r; stage := At (Waiting a) |} =>
          let '(next, s, out) := resume r a (db st) in
          Some {| db := s; connected := connected st;
                  threads := <[i := {| request := r; stage := Answered next out |}]> (threads st);
                  sent := sent st |}
      | _ => None
      end
  | Resume i =>
      match threads st !! i with
      | Some {| request := r; stage := Answered next out |} =>
          Some {| db := db st; connected := connected st;
                  threads := <[i := {| request := r; stage := At next |}]> (threads st);
                  sent := sent st ++ deliver (connected st) r out |}
      | _ => None
      end
  end.

Fixpoint advance_all (st : State) (xs : list Step) : option State :=
  match xs with
  | [] => Some st
  | x :: rest => match advance st x with Some st' => advance_all st' rest | None => None end
  end.

(** What socket [c] has been sent, in order. *)
Definition received (c : string) (st : State) : list Sent :=
  List.filter (fun m => bool_decide (to m = c)) (sent st).


Definition tag (m : Sent) : Origin * string := (origin m, text (event m)).

(** What holds of every state the server gets to: a socket is connected
    once, and the ids of [questions:stream] go up. *)
Definition sound (st : State) : Prop :=
  NoDup (connected st) /\ above id0 (questions (db st)).

(** A thread that handles a follow-up with the item list of [data], and
    the clock of its admission commands. *)
Definition same_list (data : FollowUpPayload) (th : Thread) : Prop :=
  match request th with
  | FollowUp _ _ d => items d = items data
  | ReplayRequest _ _ _ => False
  end.

Definition clock_of (th : Thread) : Z :=
  match request th with
  | FollowUp e _ _ => now e
  | ReplayRequest _ _ _ => 0
  end.

(** A run between its GET, which found no mark, and its SET, which is not
    served yet. *)
Definition armed (th : Thread) : bool :=
  match stage th with
  | At (Waiting AwSet) | Answered (Waiting AwSet) _ => true
  | _ => false
  end.

(** The GET of a run has been served and has not thrown: the run stands
    at a later await, or has ended after it. *)
Definition after_get (e : Env) (p : Progress) : bool :=
  match p with
  | Waiting (AwSet | AwXAddFollowups | AwOpenAI | AwXAddQuestions _ | AwPublish _ _) => true
  | Ended Broadcast | Ended (Rejected Duplicate) => true
  | Ended Caught =>
      match fault e with
      | Some (AtSet | AtXAddFollowups | AtOpenAI | AtXAddQuestions | AtPublish) => true
      | _ => false
      end
  | _ => false
  end.

Definition past_get (th : Thread) : bool :=
  match request th, stage th with
  | FollowUp e _ _, (At p | Answered p _) => after_get e p
  | ReplayRequest _ _ _, _ => false
  end.

(** A mark for the item list of [data] that lives until [T] and goes on
    living until [T]: the runs with that list that stand between their GET
    and their SET carry a clock that sets it no shorter. *)
Definition lasting (T : Z) (data : FollowUpPayload) (st : State) : Prop :=
  mark_until T (keys (db st) !! dedupKey data) /\
  forall i th, threads st !! i = Some th -> same_list data th -> armed th = true ->
               T <= clock_of th + 300 * 1000.

(** The mark for the item list of [data] expires at [T] and no run with
    that list stands between its GET and its SET. *)
Definition settled (T : Z) (data : FollowUpPayload) (st : State) : Prop :=
  keys (db st) !! dedupKey data = Some {| val := 1; expireAt := Some T |} /\
  forall i th, threads st !! i = Some th -> same_list data th -> armed th = false.

(** The runs with the item list of [data] whose GET has been served carry
    a clock that is not past [T]. *)
Definition timely (T : Z) (data : FollowUpPayload) (st : State) : Prop :=
  forall i th, threads st !! i = Some th -> same_list data th ->
               past_get th = true -> clock_of th <= T.

(** Thread [i] is served its call and handles the reply at once: [n]
    awaits of a handler that is not interrupted. *)
Definition whole (n : nat) (i : nat) : list Step :=
  flat_map (fun _ => [Exec i; Resume i]) (List.seq 0 n).

End Node.

(** ** Runs used below *)

Module Examples.

Import Redis Shared Server.

Definition quiet : Env :=
  {| now := 1000; later := 2000; storedAt := 1999; publishedAt := 2001; broadcastAt := 2002;
     caughtAt := 2002; fault := None; content := Some "Could you clarify?"%string |}.

(** Nine items of forty characters. *)
Definition over_both : FollowUpPayload :=
  {| items := replicate 9 "0123456789012345678901234567890123456789"%string; createdAt := 990 |}.

(** A run at [t] in which nothing throws. *)
Definition at_ (t : Z) : Env :=
  {| now := t; later := t + 900; storedAt := t + 899; publishedAt := t + 901;
     broadcastAt := t + 902; caughtAt := t + 902;
     fault := None; content := Some "Could you clarify?"%string |}.

Definition ask (x : string) : FollowUpPayload := {| items := [x]; createdAt := 0 |}.

(** Ten follow-ups of one reviewer, five seconds apart. *)
Definition ten : list Request :=
  map (fun i => FollowUp (at_ (1000 + 5000 * Z.of_nat i)) "r1"
                  (ask (String (ascii_of_nat (97 + i)) EmptyString)))
      (List.seq 0 10).

Definition three : FollowUpPayload :=
  {| items := ["latency"; "retry logic"; "error states"]%string; createdAt := 990 |}.

(** A run in which the awaited call [p] throws. *)
Definition failing (p : Point) : Env :=
  {| now := 1000; later := 1900; storedAt := 1899; publishedAt := 1901; broadcastAt := 1902;
     caughtAt := 1903; fault := Some p; content := None |}.

(** A hundred and one follow-ups, four hundred seconds apart. *)
Definition many : list Request :=
  map (fun i => FollowUp (at_ (1000 + 400000 * Z.of_nat i)) "r1" three) (List.seq 0 101).

Definition qA : AgentQuestions := {| text := "A"; aq_createdAt := 1; streamId := None |}.
Definition qB : AgentQuestions := {| text := "B"; aq_createdAt := 2; streamId := None |}.

End Examples.

(** ** apps/reviewer/src/App.tsx *)

Module Reviewer.

Import Shared.

Local Open Scope string_scope.

Inductive Status := disconnected | connected | sending | sent | error.

(** The state of the component: the text field and the status line. *)
Record App := { input : string; status : Status }.

(** The code units that [trim] removes, among those below 256: TAB, LF,
    VT, FF, CR, space and the no-break space. *)
Definition is_space (c : ascii) : bool :=
  let n := N_of_ascii c in
  ((9 <=? n) && (n <=? 13) || (n =? 32) || (n =? 160))%N.

Fixpoint trim_start (s : string) : string :=
  match s with
  | EmptyString => EmptyString
  | String c rest => if is_space c then trim_start rest else s
  end.

Fixpoint trim_end (s : string) : string :=
  match s with
  | EmptyString => EmptyString
  | String c rest =>
      match trim_end rest with
      | EmptyString => if is_space c then EmptyString else String c EmptyString
      | r => String c r
      end
  end.

(** [s.trim()] *)
Definition trim (s : string) : string := trim_end (trim_start s).

(** [s.split(',')]: the pieces between the commas, at least one. *)
Fixpoint split (s : string) : list string :=
  match s with
  | EmptyString => [EmptyString]
  | String c rest =>
      if (N_of_ascii c =? 44)%N then EmptyString :: split rest
      else match split rest with
           | piece :: pieces => String c piece :: pieces
           | [] => [String c EmptyString]
           end
  end.

Definition non_empty (s : string) : bool :=
  match s with EmptyString => false | String _ _ => true end.

(** [input.split(',').map(item => item.trim()).filter(item => item !== '')] *)
Definition normalize (s : string) : list string :=
  List.filter non_empty (map trim (split s)).

(** What [handleSend] does besides changing the status. *)
Inductive Action :=
| Nothing
| Alert (message : string)
| Emit (payload : FollowUpPayload).

(** [handleSend], with the value of [Date.now()]. *)
Definition handleSend (now : Z) (a : App) : App * Action :=
  if negb (non_empty (trim (input a))) then (a, Nothing)
  else
    let items := normalize (input a) in
    if (length items =? 0)%nat then ({| input := input a; status := error |}, Nothing)
    else if (8 <? length items)%nat then (a, Alert "Maximum 8 items allowed")
    else
      let totalChars := String.length (JS.join "" items) in
      if (300 <? totalChars)%nat then (a, Alert "Total character limit (300) exceeded")
      else ({| input := input a; status := sending |},
            Emit {| items := items; createdAt := now |}).

(** The callback of [setTimeout(..., 500)]. *)
Definition after_timeout (a : App) : App := {| input := EmptyString; status := sent |}.

(** [socket.on('connect')] and [socket.on('disconnect')]. *)
Definition on_connect (a : App) : App := {| input := input a; status := connected |}.
Definition on_disconnect (a : App) : App := {| input := input a; status := disconnected |}.

(** A string of code units that [trim] removes, and a string without a
    comma. *)
Fixpoint blank (s : string) : bool :=
  match s with
  | EmptyString => true
  | String c rest => is_space c && blank rest
  end.

Fixpoint comma_free (s : string) : bool :=
  match s with
  | EmptyString => true
  | String c rest => negb (N_of_ascii c =? 44)%N && comma_free rest
  end.

(** An item as [handleSend] sends it: not empty, nothing to trim, no
    comma. *)
Definition clean (x : string) : Prop :=
  x <> EmptyString /\ trim x = x /\ split x = [x].

(** [getStatusColor] *)
Definition getStatusColor (a : App) : string :=
  match status a with
  | connected => "#4CAF50"
  | sending => "#FF9800"
  | sent => "#2196F3"
  | error => "#F44336"
  | disconnected => "#9E9E9E"
  end.

End Reviewer.

(** ** Reading a fingerprint back

    The inverses of [JS.base64], [JS.utf8] and [JS.stringify]; they are not
    part of the program, they show that its fingerprint loses nothing. *)

Module Decode.

Local Open Scope string_scope.

(** The value of a base64 digit. *)
Definition b64_val (c : ascii) : N :=
  let n := N_of_ascii c in
  if ((65 <=? n) && (n <=? 90))%N then (n - 65)%N
  else if ((97 <=? n) && (n <=? 122))%N then (n - 71)%N
  else if ((48 <=? n) && (n <=? 57))%N then (n + 4)%N
  else if (n =? 43)%N then 62%N
  else 63%N.

Definition is_pad (c : ascii) : bool := (N_of_ascii c =? 61)%N.

Fixpoint unbase64 (s : string) : list N :=
  match s with
  | String a (String b (String c (String d rest))) =>
      let x := (b64_val a * 4 + b64_val b / 16)%N in
      let y := ((b64_val b mod 16) * 16 + b64_val c / 4)%N in
      let z := ((b64_val c mod 4) * 64 + b64_val d)%N in
      if is_pad c then [x]
      else if is_pad d then [x; y]
      else x :: y :: z :: unbase64 rest
  | _ => []
  end.

Fixpoint unutf8 (bytes : list N) : string :=
  match bytes with
  | [] => EmptyString
  | b :: rest =>
      if (b <? 128)%N then String (ascii_of_N b) (unutf8 rest)
      else match rest with
           | b2 :: rest' => String (ascii_of_N ((b - 192) * 64 + (b2 - 128))) (unutf8 rest')
           | [] => EmptyString
           end
  end.

Definition hex_val (c : ascii) : N :=
  let n := N_of_ascii c in
  if (n <? 58)%N then (n - 48)%N else (n - 87)%N.

(** The character a one-letter escape stands for. *)
Definition unescape_letter (c : ascii) : option ascii :=
  let n := N_of_ascii c in
  if (n =? 34)%N then Some JS.quote
  else if (n =? 92)%N then Some JS.backslash
  else if (n =? 98)%N then Some (ascii_of_N 8)
  else if (n =? 102)%N then Some (ascii_of_N 12)
  else if (n =? 110)%N then Some (ascii_of_N 10)
  else if (n =? 114)%N then Some (ascii_of_N 13)
  else if (n =? 116)%N then Some (ascii_of_N 9)
  else None.

Definition cons_fst (c : ascii) (r : option (string * string)) : option (string * string) :=
  match r with
  | Some (x, rest) => Some (String c x, rest)
  | None => None
  end.

(** Reads the body of a JSON string up to its closing quote: the string
    and what follows the quote. *)
Fixpoint read_string (s : string) : option (string * string) :=
  match s with
  | EmptyString => None
  | String c rest =>
      if (N_of_ascii c =? 34)%N then Some (EmptyString, rest)
      else if (N_of_ascii c =? 92)%N then
        match rest with
        | String e rest' =>
            if (N_of_ascii e =? 117)%N then
              match rest' with
              | String _ (String _ (String h (String l rest''))) =>
                  cons_fst (ascii_of_N (hex_val h * 16 + hex_val l)) (read_string rest'')
              | _ => None
              end
            else
              match unescape_letter e with
              | Some x => cons_fst x (read_string rest')
              | None => None
              end
        | EmptyString => None
        end
      else cons_fst c (read_string rest)
  end.

(** Reads the strings of an array, from its first quote on. *)
Fixpoint read_items (fuel : nat) (s : string) : option (list string) :=
  match fuel with
  | O => None
  | S fuel' =>
      match s with
      | String q r =>
          if (N_of_ascii q =? 34)%N then
            match read_string r with
            | Some (x, String c r') =>
                if (N_of_ascii c =? 44)%N then
                  match read_items fuel' r' with
                  | Some xs => Some (x :: xs)
                  | None => None
                  end
                else if (N_of_ascii c =? 93)%N then
                  match r' with EmptyString => Some [x] | _ => None end
                else None
            | _ => None
            end
          else None
      | EmptyString => None
      end
  end.

Definition parse (fuel : nat) (s : string) : option (list string) :=
  match s with
  | String o r =>
      if (N_of_ascii o =? 91)%N then
        match r with
        | String c EmptyString => if (N_of_ascii c =? 93)%N then Some [] else read_items fuel r
        | _ => read_items fuel r
        end
      else None
  | EmptyString => None
  end.

End Decode.

(** ** Further readings of the server and of the participant *)

Module More.

Import Redis Shared Server.

(** A run of [followup:create] whose INCR is executed. *)
Definition incremented (e : Env) (data : FollowUpPayload) : bool :=
  bool_decide (shape data = None) && negb (bool_decide (fault e = Some AtIncr)).

(** How many requests of [rs] incremented the counter of [sock]. *)
Definition incr_calls (sock : string) (rs : list Request) : nat :=
  length (List.filter
            (fun r => match r with
                      | FollowUp e c data => bool_decide (c = sock) && incremented e data
                      | ReplayRequest _ _ _ => false
                      end) rs).

(** The follow-ups of [sock] in [rs] are all counted, each at most sixty
    seconds after the one before ([last] is the time of the one before the
    first). *)
Fixpoint chained (sock : string) (last : option Z) (rs : list Request) : Prop :=
  match rs with
  | [] => True
  | FollowUp e c data :: rest =>
      if decide (c = sock) then
        counted e data = true /\
        match last with Some t => now e <= t + 60 * 1000 | None => True end /\
        chained sock (Some (now e)) rest
      else chained sock last rest
  | ReplayRequest _ _ _ :: rest => chained sock last rest
  end.

(** The time of the last follow-up of [sock] in [rs]. *)
Fixpoint last_call (sock : string) (last : option Z) (rs : list Request) : option Z :=
  match rs with
  | [] => last
  | FollowUp e c _ :: rest =>
      if decide (c = sock) then last_call sock (Some (now e)) rest else last_call sock last rest
  | ReplayRequest _ _ _ :: rest => last_call sock last rest
  end.

(** What the rate key holds after [n] chained calls, the last of them at
    [last]. *)
Definition chain_inv (last : option Z) (n : nat) (o : option Value) : Prop :=
  match last with
  | None => n = 0%nat /\ o = None
  | Some t => o = Some {| val := Z.of_nat n; expireAt := Some (t + 60 * 1000) |}
  end.

(** The entry a run appends to [followups:stream] in state [s]. *)
Definition raw_entry (e : Env) (sock : string) (data : FollowUpPayload) (s : DB)
    : StreamID * FollowupFields :=
  (next_id (now e) (last_id (followups s)),
   {| f_items := JS.stringify (items data); f_createdAt := createdAt data; f_socketId := sock |}).

(** The cursor of a participant that has received every entry of the log. *)
Definition cursor_of (s : DB) : option StreamID :=
  match questions s with
  | [] => None
  | _ => Some (last_id (questions s))
  end.

(** The cursor of a participant that has received the first [p] entries of
    the log [qs]. *)
Definition cursor_at (qs : stream QuestionFields) (p : nat) : option StreamID :=
  match p with
  | O => None
  | S k => fst <$> qs !! k
  end.

(** The participant connects while the log is as in [s]: it asks for a
    replay from its cursor and handles the events of the reply (of an XREAD
    that does not throw), one after the other. *)
Definition reconnect (sock : string) (s : DB) (a : Participant.App) : Participant.App :=
  let '(a1, cursor) := Participant.on_connect a in
  fold_left (fun b ev => Participant.on_agent_questions ev b) (replay_events sock cursor s) a1.

(** The events a participant is handed by a sequence of events, and the
    stream id of the last of them that carries one. *)
Definition arrivals (evs : list Participant.Event) : list AgentQuestions :=
  flat_map (fun ev => match ev with Participant.Received d => [d] | _ => [] end) evs.

Definition last_seen (start : option StreamID) (ds : list AgentQuestions) : option StreamID :=
  fold_left (fun c d => match streamId d with Some i => Some i | None => c end) ds start.

(** The events of the component itself: an arrival, or the end of an
    utterance. *)
Definition local_event (ev : Participant.Event) : bool :=
  match ev with Participant.Connected | Participant.Disconnected => false | _ => true end.

(** The utterances still to end, and the events that end one. *)
Definition pending (a : Participant.App) : nat :=
  length (Participant.rendering a ++ Participant.speakQueue a).

Definition closing (ev : Participant.Event) : bool :=
  match ev with Participant.Ended | Participant.Errored => true | _ => false end.

End More.

Module Scenarios.

Import Redis Shared Server Examples.

(** Eleven follow-ups of one reviewer, fifty-nine seconds apart. *)
Definition slow : list Request :=
  map (fun i => FollowUp (at_ (1000 + 59000 * Z.of_nat i)) "r1"
                  (ask (String (ascii_of_nat (97 + i)) EmptyString)))
      (List.seq 0 11).

End Scenarios.

(** ** Schedules used below *)

Module Scen.
Import Redis Shared Server Node Examples.

(** The run for the [i]-th question: it comes at [i] seconds and is
    answered with the digit [i]. *)
Definition asking (i : nat) : Env :=
  {| now := 1000 * Z.of_nat i; later := 1000 * Z.of_nat i + 500;
     storedAt := 1000 * Z.of_nat i + 499; publishedAt := 1000 * Z.of_nat i + 501;
     broadcastAt := 1000 * Z.of_nat i + 502; caughtAt := 1000 * Z.of_nat i + 502;
     fault := None; content := Some (String (ascii_of_nat (48 + i)) EmptyString) |}.

Definition submission (i : nat) : Request :=
  FollowUp (asking i) "r1" (ask (String (ascii_of_nat (48 + i)) EmptyString)).

(** Reviewer r1 connects and submits seven times, one submission a second,
    each handled to its end before the next comes. *)
Definition seven : list Step :=
  Connect "r1" ::
  flat_map (fun i => Arrive (submission i) :: whole 8 (i - 1)) (List.seq 1 7).




(** Two reviewers submit the same three items one millisecond apart; the
    calls of the two runs are served in the order they are issued, turn
    and turn about. *)
Definition twice : list Step :=
  [Connect "r1"; Connect "r2";
   Arrive (FollowUp (at_ 1000) "r1" three); Arrive (FollowUp (at_ 1001) "r2" three)] ++
  flat_map (fun _ => [Exec 0; Resume 0; Exec 1; Resume 1]) (List.seq 0 8).

(** One reviewer submits the three items, and the run (thread 0) has got
    to its SET. *)
Definition in_turn : list Step :=
  [Connect "r1"; Connect "r2"; Arrive (FollowUp (at_ 1000) "r1" three)] ++ whole 3 0.

(** The run is handled to its end, and the same items come from another
    reviewer at [t]; that run (thread 1) gets to its GET. *)
Definition again (t : Z) : list Step :=
  Resume 0 :: whole 4 0 ++ [Arrive (FollowUp (at_ t) "r2" three)] ++ whole 2 1.

End Scen.

(** * Properties *)

(** ** The blocks of [followup:create], one equation each *)

Module Blocks.

Import Redis Shared Server.

Lemma validate_shape data s :
  validate data s =
    match shape data with
    | Some r => (Exit r, s, [ConsoleError r])
    | None => (Val tt, s, [])
    end.
Proof.
  unfold validate, shape, totalChars, bind, reject_if.
  repeat case_match; simplify_eq/=; reflexivity.
Qed.

Lemma rate_limit_eq e sock s :
  rate_limit e sock s =
    let k := rateLimitKey sock in
    if decide (fault e = Some AtIncr) then (Exn, s, [Call INCR k])
    else
      let n := (incr k (now e) (keys s)).1 in
      let k1 := (incr k (now e) (keys s)).2 in
      if decide (fault e = Some AtExpire)
      then (Exn, with_keys s k1, [Call INCR k; Call EXPIRE k])
      else
        let s2 := with_keys s (expire k 60 (now e) k1) in
        if 10 <? n
        then (Exit RateLimited, s2, [Call INCR k; Call EXPIRE k; ConsoleError RateLimited])
        else (Val tt, s2, [Call INCR k; Call EXPIRE k]).
Proof.
  unfold rate_limit, bind, reject_if, redis_incr, redis_expire, await.
  cbn zeta. destruct (incr _ _ _) as [n k1].
  repeat case_match; simplify_eq/=; try congruence; reflexivity.
Qed.

Lemma dedupe_eq e data s :
  dedupe e data s =
    let k := dedupKey data in
    if decide (fault e = Some AtGet) then (Exn, s, [Call GET k])
    else if marked (now e) data s
    then (Exit Duplicate, s, [Call GET k; ConsoleError Duplicate])
    else if decide (fault e = Some AtSet) then (Exn, s, [Call GET k; Call SET k])
    else (Val tt, with_keys s (set_ex k 1 300 (now e) (keys s)), [Call GET k; Call SET k]).
Proof.
  unfold dedupe, marked, bind, reject_if, redis_get, redis_set_ex, await.
  cbn zeta.
  repeat case_match; simplify_eq/=; try congruence; reflexivity.
Qed.

Lemma generate_eq e sock data s :
  generate e sock data s =
    let f := {| f_items := JS.stringify (items data); f_createdAt := createdAt data;
                f_socketId := sock |} in
    let ask := OpenAI ("Items: " ++ JS.join ", " (items data))%string in
    let fx := Call XADD "followups:stream" in
    let qx := Call XADD "questions:stream" in
    if decide (fault e = Some AtXAddFollowups) then (Exn, s, [fx])
    else
      let s1 := {| keys := keys s; followups := (xAdd (now e) f (followups s)).2;
                   questions := questions s |} in
      if decide (fault e = Some AtOpenAI) then (Exn, s1, [fx; ask])
      else if decide (fault e = Some AtXAddQuestions) then (Exn, s1, [fx; ask; qx])
      else
        let s2 := {| keys := keys s; followups := followups s1;
                     questions := questions s ++
                       [(next_id (later e) (last_id (questions s)),
                         {| q_text := aiText e; q_createdAt := storedAt e |})] |} in
        let pub := Publish "questions:live" (published e s) in
        if decide (fault e = Some AtPublish)
        then (Exn, s2, [fx; ask; qx; pub])
        else (Val tt, s2, [fx; ask; qx; pub; IoEmit (question e s)]).
Proof.
  unfold generate, question, published, bind, xAdd_followups, openai_create, xAdd_questions,
    redis_publish, emit, await, xAdd.
  cbn zeta.
  repeat case_match; simplify_eq/=; reflexivity.
Qed.

Lemma followup_eq e sock data s :
  followup_create e sock data s =
    match shape data with
    | Some r => (Rejected r, s, [ConsoleError r])
    | None =>
        match rate_limit e sock s with
        | (Val _, s1, t1) =>
            match dedupe e data s1 with
            | (Val _, s2, t2) =>
                match generate e sock data s2 with
                | (Val _, s3, t3) => (Broadcast, s3, (t1 ++ t2) ++ t3)
                | (Exit r, s3, t3) => (Rejected r, s3, (t1 ++ t2) ++ t3)
                | (Exn, s3, t3) =>
                    (Caught, s3, ((t1 ++ t2) ++ t3) ++ [SocketEmit sock (apology_event e)])
                end
            | (Exit r, s2, t2) => (Rejected r, s2, t1 ++ t2)
            | (Exn, s2, t2) => (Caught, s2, (t1 ++ t2) ++ [SocketEmit sock (apology_event e)])
            end
        | (Exit r, s1, t1) => (Rejected r, s1, t1)
        | (Exn, s1, t1) => (Caught, s1, t1 ++ [SocketEmit sock (apology_event e)])
        end
    end.
Proof.
  unfold followup_create, followup_try, admission, apology_event.
  unfold bind at 1 2 3. rewrite validate_shape.
  destruct (shape data) as [r|]; [reflexivity|].
  destruct (rate_limit e sock s) as [[[[]|r1|] s1] t1]; [|reflexivity..].
  destruct (dedupe e data s1) as [[[[]|r2|] s2] t2]; [|reflexivity..].
  destruct (generate e sock data s2) as [[[[]|r3|] s3] t3]; reflexivity.
Qed.

End Blocks.

Module Validation.

Import Redis Shared Server Blocks.

Lemma shape_cases data :
  (shape data = Some EmptyInput <-> length (items data) = 0%nat) /\
  (shape data = Some TooManyItems <-> (8 < length (items data))%nat) /\
  (shape data = Some TooManyCharacters <->
     (1 <= length (items data) <= 8)%nat /\ (300 < totalChars data)%nat) /\
  (shape data = Some RateLimited <-> False) /\
  (shape data = Some Duplicate <-> False).
Proof.
  unfold shape.
  destruct (Nat.eqb_spec (length (items data)) 0);
    destruct (Nat.ltb_spec 8 (length (items data)));
    destruct (Nat.ltb_spec 300 (totalChars data));
    repeat split; intros; try discriminate; try lia; try tauto.
Qed.

(** Once validation has passed, a run ends in one of the later exits, in
    the [catch] block or with the broadcast. *)
Lemma outcome_after_validation e sock data s r :
  shape data = None ->
  outcome_of (followup_create e sock data s) = Rejected r ->
  r = RateLimited \/ r = Duplicate.
Proof.
  intros H. rewrite followup_eq, H, rate_limit_eq. cbn zeta.
  repeat case_match; simplify_eq/=;
    try (rewrite dedupe_eq in *; cbn zeta in *);
    try (rewrite generate_eq in *; cbn zeta in *);
    repeat case_match; simplify_eq/=; unfold outcome_of; simpl; intros; simplify_eq; auto.
Qed.

(** C8, as stated, fails where both limits are exceeded: nine items of
    forty characters are rejected for their number, not for their length. *)
Lemma shape_over_both_limits :
  (300 < totalChars Examples.over_both)%nat /\
  outcome_of (followup_create Examples.quiet "r1" Examples.over_both empty_db) = Rejected TooManyItems /\
  ~ (outcome_of (followup_create Examples.quiet "r1" Examples.over_both empty_db) = Rejected TooManyCharacters
     <-> (300 < totalChars Examples.over_both)%nat).
Proof.
  assert (Hc : totalChars Examples.over_both = 360%nat) by (vm_compute; reflexivity).
  assert (Ho : outcome_of (followup_create Examples.quiet "r1" Examples.over_both empty_db)
               = Rejected TooManyItems) by (vm_compute; reflexivity).
  rewrite Ho, Hc. split; [lia|]. split; [reflexivity|].
  intros [_ H]. discriminate H. lia.
Qed.

(** C8 (amended): a submission is rejected with EmptyInput exactly when it
    has no item, with TooManyItems exactly when it has more than 8, and
    with TooManyCharacters exactly when it has 1 to 8 items whose
    concatenation is longer than 300; the checks come first, whatever the
    state and the environment, and a submission they reject changes nothing
    and calls nothing: the run's only effect is the logged error. *)
Theorem shape_validation_order e sock data s :
  let r := followup_create e sock data s in
  (outcome_of r = Rejected EmptyInput <-> length (items data) = 0%nat) /\
  (outcome_of r = Rejected TooManyItems <-> (8 < length (items data))%nat) /\
  (outcome_of r = Rejected TooManyCharacters <->
     (1 <= length (items data) <= 8)%nat /\ (300 < totalChars data)%nat) /\
  (forall x, x = EmptyInput \/ x = TooManyItems \/ x = TooManyCharacters ->
     outcome_of r = Rejected x -> db_of r = s /\ effects_of r = [ConsoleError x]).
Proof.
  intros r.
  destruct (shape_cases data) as (He & Hi & Hc & _ & _).
  assert (Hs : forall x, shape data = Some x -> r = (Rejected x, s, [ConsoleError x])).
  { intros x Hx. subst r. rewrite followup_eq, Hx. reflexivity. }
  assert (Hn : forall x, x = EmptyInput \/ x = TooManyItems \/ x = TooManyCharacters ->
               outcome_of r = Rejected x -> shape data = Some x).
  { intros x Hx Ho. destruct (shape data) as [y|] eqn:E.
    - rewrite (Hs y eq_refl) in Ho. unfold outcome_of in Ho. simpl in Ho. congruence.
    - apply outcome_after_validation in Ho; [|exact E].
      destruct Hx as [->|[->| ->]], Ho; discriminate. }
  split; [|split; [|split]].
  - split.
    + intros Ho. apply He, Hn; auto.
    + intros Hl. apply He in Hl. rewrite (Hs _ Hl). reflexivity.
  - split.
    + intros Ho. apply Hi, Hn; auto.
    + intros Hl. apply Hi in Hl. rewrite (Hs _ Hl). reflexivity.
  - split.
    + intros Ho. apply Hc, Hn; auto.
    + intros Hl. apply Hc in Hl. rewrite (Hs _ Hl). reflexivity.
  - intros x Hx Ho. rewrite (Hs x (Hn x Hx Ho)). split; reflexivity.
Qed.

Lemma shape_validation_order_witness :
  db_of (followup_create Examples.quiet "r1" Examples.over_both empty_db) = empty_db /\
  effects_of (followup_create Examples.quiet "r1" Examples.over_both empty_db) = [ConsoleError TooManyItems].
Proof.
  destruct (shape_validation_order Examples.quiet "r1" Examples.over_both empty_db) as (_ & _ & _ & H).
  apply (H TooManyItems); [right; left; reflexivity | vm_compute; reflexivity].
Defined.

End Validation.

(** ** Keys: counters and marks *)

Module Keys.

Import Redis Shared Server Blocks.

Lemma incr_other k k' t (db : gmap string Value) :
  k <> k' -> (incr k t db).2 !! k' = db !! k'.
Proof.
  intros H. unfold incr. destruct (lookup_live t k db); simpl; by rewrite lookup_insert_ne.
Qed.

Lemma expire_other k k' secs t (db : gmap string Value) :
  k <> k' -> expire k secs t db !! k' = db !! k'.
Proof.
  intros H. unfold expire. destruct (lookup_live t k db); simpl; [by rewrite lookup_insert_ne|done].
Qed.

Lemma set_ex_other k k' v secs t (db : gmap string Value) :
  k <> k' -> set_ex k v secs t db !! k' = db !! k'.
Proof. intros H. unfold set_ex. by rewrite lookup_insert_ne. Qed.

Lemma incr_count k t (db : gmap string Value) :
  (incr k t db).1 = default 0 (get k t db) + 1.
Proof. unfold incr, get. destruct (lookup_live t k db); reflexivity. Qed.

(** INCR and then EXPIRE: the key holds the incremented count and expires
    [secs] seconds from now. *)
Lemma incr_expire k secs t (db : gmap string Value) :
  expire k secs t (incr k t db).2 !! k =
    Some {| val := default 0 (get k t db) + 1; expireAt := Some (t + secs * 1000) |}.
Proof.
  unfold expire, incr, get, lookup_live.
  destruct (db !! k) as [v|] eqn:E; simpl.
  - destruct (live t v) eqn:L; simpl; rewrite lookup_insert_eq; simpl.
    + unfold live in *. simpl. rewrite L. by rewrite lookup_insert_eq.
    + by rewrite lookup_insert_eq.
  - rewrite lookup_insert_eq. simpl. by rewrite lookup_insert_eq.
Qed.

Lemma rateLimitKey_inj c c' : rateLimitKey c = rateLimitKey c' -> c = c'.
Proof. unfold rateLimitKey. simpl. intros H. by simplify_eq. Qed.

Lemma rate_not_dedup c data : rateLimitKey c <> dedupKey data.
Proof. unfold rateLimitKey, dedupKey. simpl. intros H. discriminate H. Qed.

(** What a run leaves under a key that is neither its rate key nor its
    dedupe key. *)
Lemma followup_frame e sock data s k :
  k <> rateLimitKey sock -> k <> dedupKey data ->
  keys (db_of (followup_create e sock data s)) !! k = keys s !! k.
Proof.
  intros Hr Hd. rewrite followup_eq, rate_limit_eq. cbn zeta.
  assert (H1 : (incr (rateLimitKey sock) (now e) (keys s)).2 !! k = keys s !! k)
    by (apply incr_other; congruence).
  assert (H2 : expire (rateLimitKey sock) 60 (now e)
                 (incr (rateLimitKey sock) (now e) (keys s)).2 !! k = keys s !! k)
    by (rewrite expire_other by congruence; exact H1).
  repeat case_match; simplify_eq/=; try done;
    rewrite dedupe_eq in *; cbn zeta in *;
    repeat case_match; simplify_eq/=; try done;
    rewrite generate_eq in *; cbn zeta in *;
    repeat case_match; simplify_eq/=; try done;
    rewrite set_ex_other by congruence; done.
Qed.

(** The rate key of a counted run. *)
Lemma followup_rate_key e sock data s :
  counted e data = true ->
  keys (db_of (followup_create e sock data s)) !! rateLimitKey sock =
    Some {| val := windowCount (now e) sock s + 1; expireAt := Some (now e + 60 * 1000) |}.
Proof.
  unfold counted, windowCount. intros H.
  apply andb_prop in H as [H H3]. apply andb_prop in H as [H1 H2].
  apply bool_decide_eq_true in H1. apply negb_true_iff, bool_decide_eq_false in H2, H3.
  rewrite followup_eq, H1, rate_limit_eq. cbn zeta.
  pose proof (incr_expire (rateLimitKey sock) 60 (now e) (keys s)) as HK.
  pose proof (rate_not_dedup sock data) as Hne.
  repeat case_match; simplify_eq/=; try done;
    rewrite dedupe_eq in *; cbn zeta in *;
    repeat case_match; simplify_eq/=; try done;
    rewrite generate_eq in *; cbn zeta in *;
    repeat case_match; simplify_eq/=; try done;
    rewrite set_ex_other by congruence; done.
Qed.

(** ... and whether it is rejected for its rate. *)
Lemma followup_rate_limited e sock data s :
  counted e data = true ->
  outcome_of (followup_create e sock data s) = Rejected RateLimited <->
  10 < windowCount (now e) sock s + 1.
Proof.
  unfold counted, windowCount. intros H.
  apply andb_prop in H as [H H3]. apply andb_prop in H as [H1 H2].
  apply bool_decide_eq_true in H1. apply negb_true_iff, bool_decide_eq_false in H2, H3.
  rewrite followup_eq, H1, rate_limit_eq. cbn zeta.
  rewrite incr_count.
  destruct (decide (fault e = Some AtIncr)); [done|].
  destruct (decide (fault e = Some AtExpire)); [done|].
  destruct (Z.ltb_spec 10 (default 0 (get (rateLimitKey sock) (now e) (keys s)) + 1)).
  - simpl. tauto.
  - rewrite dedupe_eq. cbn zeta.
    repeat case_match; simplify_eq/=; try (split; [discriminate|lia]);
    rewrite generate_eq in *; cbn zeta in *;
    repeat case_match; simplify_eq/=; split; try discriminate; lia.
Qed.

(** A run that is not counted leaves its rate key alone. *)
Lemma followup_uncounted e sock data s :
  counted e data = false -> fault e <> Some AtExpire ->
  keys (db_of (followup_create e sock data s)) !! rateLimitKey sock
  = keys s !! rateLimitKey sock.
Proof.
  unfold counted. intros H HE.
  rewrite followup_eq.
  destruct (shape data) eqn:E; [done|].
  rewrite rate_limit_eq. cbn zeta.
  destruct (decide (fault e = Some AtIncr)); [done|].
  destruct (decide (fault e = Some AtExpire)); [done|].
  rewrite (bool_decide_eq_true_2 _ eq_refl) in H.
  rewrite !bool_decide_eq_false_2 in H by done. discriminate.
Qed.

Ltac close_prefix n :=
  exists n; eexists; (split; [simpl; unfold question; simpl; reflexivity|]);
  first [ left; repeat split; (reflexivity || lia)
        | right; left; eexists; repeat split; (reflexivity || lia)
        | right; right; repeat split; (reflexivity || lia) ].

Ltac pick_prefix :=
  first [ close_prefix 0%nat | close_prefix 1%nat | close_prefix 2%nat | close_prefix 3%nat
        | close_prefix 4%nat | close_prefix 5%nat | close_prefix 6%nat | close_prefix 7%nat
        | close_prefix 8%nat | close_prefix 9%nat ].

(** The effects of a run are a prefix of the script, closed by the logged
    rejection or by the apology unless the run got to the end. *)
Lemma followup_effects e sock data s :
  let r := followup_create e sock data s in
  exists n tl,
    effects_of r = take n (script e sock data s) ++ tl /\
    ((outcome_of r = Broadcast /\ tl = [] /\ n = 9%nat) \/
     (exists x, outcome_of r = Rejected x /\ tl = [ConsoleError x] /\ (n <= 3)%nat) \/
     (outcome_of r = Caught /\ tl = [SocketEmit sock (apology_event e)] /\ (1 <= n <= 8)%nat)).
Proof.
  cbn zeta. unfold script. rewrite followup_eq.
  destruct (shape data) as [x|].
  { exists 0%nat, [ConsoleError x]. split; [done|]. right; left. exists x. repeat split; lia. }
  rewrite rate_limit_eq. cbn zeta.
  repeat case_match; simplify_eq/=;
    try (rewrite dedupe_eq in *; cbn zeta in *; repeat case_match; simplify_eq/=);
    try (rewrite generate_eq in *; cbn zeta in *; repeat case_match; simplify_eq/=);
    unfold effects_of, outcome_of; simpl; pick_prefix.
Qed.

End Keys.

Module Rate.
Import Redis Shared Server Blocks Keys.

Lemma counted_calls_app sock rs1 rs2 :
  counted_calls sock (rs1 ++ rs2) = (counted_calls sock rs1 + counted_calls sock rs2)%nat.
Proof. unfold counted_calls. rewrite List.filter_app, length_app. reflexivity. Qed.

(** C5: the sixty seconds restart on every counted run, against the
    comment of the EXPIRE ([// 1 minute window]).  Socket r1 submits ten
    times, from 1 s to 46 s, five seconds apart; all ten are counted and
    get their question.  At 62 s the minute that began with the first
    submission is over, and nine of the ten fall in the sixty seconds
    before; but the key still holds 10 and lives until 106 s, sixty seconds
    after the tenth, so an eleventh submission at 62 s is rejected with
    RateLimited.  It is accepted once the key has expired. *)
Theorem window_restarts :
  let s := serve empty_db Examples.ten in
  let clock r := match r with FollowUp e _ _ => now e | ReplayRequest _ _ _ => 0 end in
  map socket_of Examples.ten = repeat "r1"%string 10 /\
  map clock Examples.ten
    = [1000; 6000; 11000; 16000; 21000; 26000; 31000; 36000; 41000; 46000] /\
  counted_calls "r1" Examples.ten = 10%nat /\
  length (questions s) = 10%nat /\
  length (List.filter (fun r => 62000 - 60 * 1000 <? clock r) Examples.ten) = 9%nat /\
  keys s !! rateLimitKey "r1" = Some {| val := 10; expireAt := Some (46000 + 60 * 1000) |} /\
  windowCount 62000 "r1" s = 10 /\
  outcome_of (followup_create (Examples.at_ 62000) "r1" (Examples.ask "k") s)
    = Rejected RateLimited /\
  outcome_of (followup_create (Examples.at_ 106001) "r1" (Examples.ask "k") s) = Broadcast.
Proof. vm_compute. repeat split; reflexivity. Qed.

Lemma handle_frame s r c :
  socket_of r <> c ->
  keys (handle s r).1 !! rateLimitKey c = keys s !! rateLimitKey c.
Proof.
  destruct r as [e c' data|throws c' last]; simpl; intros Hne.
  - apply followup_frame; [|apply rate_not_dedup].
    intros H. apply rateLimitKey_inj in H. congruence.
  - unfold request_replay. destruct throws; [done|]. by destruct (xRead _ _ _).
Qed.

Lemma serve_frame rs : forall s c,
  c ∉ map socket_of rs ->
  keys (serve s rs) !! rateLimitKey c = keys s !! rateLimitKey c.
Proof.
  induction rs as [|r rs IH]; intros s c Hc; [reflexivity|].
  simpl in *. apply not_elem_of_cons in Hc as [Hr Hrs].
  rewrite IH by exact Hrs. apply handle_frame. congruence.
Qed.

(** C10: a run on connection [c] leaves the rate key of every other
    connection as it was; the only key it increments and sets to expire is
    [rate:c], which a run that gets that far leaves one higher; and the key
    of a connection that has sent no request yet does not exist, so its
    count is zero.  The limit is per socket id. *)
Theorem rate_key_per_socket :
  (forall e c data s c',
     c' <> c ->
     keys (db_of (followup_create e c data s)) !! rateLimitKey c' = keys s !! rateLimitKey c') /\
  (forall e c data s k,
     Call INCR k ∈ effects_of (followup_create e c data s) \/
     Call EXPIRE k ∈ effects_of (followup_create e c data s) ->
     k = rateLimitKey c) /\
  (forall e c data s,
     counted e data = true ->
     val <$> keys (db_of (followup_create e c data s)) !! rateLimitKey c
       = Some (windowCount (now e) c s + 1)) /\
  (forall rs c t,
     c ∉ map socket_of rs ->
     keys (serve empty_db rs) !! rateLimitKey c = None /\
     windowCount t c (serve empty_db rs) = 0).
Proof.
  repeat split.
  - intros e c data s c' Hne. apply followup_frame; [|apply rate_not_dedup].
    intros H. apply rateLimitKey_inj in H. congruence.
  - intros e c data s k H.
    destruct (followup_effects e c data s) as (n & tl & Heq & Hcase).
    cbn zeta in *. rewrite Heq in H.
    assert (Htl : forall x, x ∈ tl -> forall c k, x <> Call c k).
    { intros x Hx c0 k0 ->.
      destruct Hcase as [(_ & Ht & _)|[(y & _ & Ht & _)|(_ & Ht & _)]]; rewrite Ht in Hx;
        repeat (apply elem_of_cons in Hx as [Hx|Hx]; [discriminate|]);
        by apply elem_of_nil in Hx. }
    assert (Hin : forall c0, Call c0 k ∈ take n (script e c data s) ++ tl ->
                   Call c0 k ∈ script e c data s).
    { intros c0 Hc0. apply elem_of_app in Hc0 as [Hc0|Hc0].
      - eapply subseteq_take, Hc0.
      - exfalso. eapply Htl; [exact Hc0|reflexivity]. }
    destruct H as [H|H]; apply Hin in H; unfold script in H;
      repeat (apply elem_of_cons in H as [H|H]; [congruence|]); by apply elem_of_nil in H.
  - intros e c data s Hc. rewrite (followup_rate_key _ _ _ _ Hc). reflexivity.
  - rewrite serve_frame by assumption. reflexivity.
  - unfold windowCount, get, lookup_live. rewrite serve_frame by assumption. reflexivity.
Qed.

Lemma rate_key_per_socket_witness :
  keys (db_of (followup_create (Examples.at_ 55000) "r2" (Examples.ask "k") (serve empty_db Examples.ten)))
    !! rateLimitKey "r1"
  = keys (serve empty_db Examples.ten) !! rateLimitKey "r1" /\
  windowCount 55000 "r2" (serve empty_db Examples.ten) = 0.
Proof.
  destruct rate_key_per_socket as (H1 & _ & _ & H4). split.
  - apply H1. discriminate.
  - apply (H4 Examples.ten "r2"%string 55000).
    unfold Examples.ten. simpl. rewrite !not_elem_of_cons. repeat split; try discriminate.
    apply not_elem_of_nil.
Defined.

End Rate.

Module Dedupe.
Import Redis Shared Server Blocks Keys.

Lemma marked_after_rate e sock data s t :
  marked t data
    (with_keys s (expire (rateLimitKey sock) 60 (now e)
                    (incr (rateLimitKey sock) (now e) (keys s)).2))
  = marked t data s.
Proof.
  unfold marked, get, lookup_live. simpl.
  rewrite expire_other, incr_other by apply rate_not_dedup. reflexivity.
Qed.

Lemma admitted_iff e sock data s :
  admitted e sock data s <->
  shape data = None /\ checks_run e /\ fault e <> Some AtSet /\
  windowCount (now e) sock s + 1 <= 10 /\ marked (now e) data s = false.
Proof.
  unfold admitted, admission, checks_run.
  unfold bind at 1 2. rewrite validate_shape.
  destruct (shape data) as [x|].
  { split; [intros (? & ? & ?); discriminate|intros (? & _); discriminate]. }
  rewrite rate_limit_eq. cbn zeta. rewrite incr_count. fold (windowCount (now e) sock s).
  destruct (decide (fault e = Some AtIncr)).
  { split; [intros (? & ? & ?); discriminate|tauto]. }
  destruct (decide (fault e = Some AtExpire)).
  { split; [intros (? & ? & ?); discriminate|tauto]. }
  destruct (Z.ltb_spec 10 (windowCount (now e) sock s + 1)).
  { split; [intros (? & ? & ?); discriminate|intros; lia]. }
  rewrite dedupe_eq. cbn zeta. rewrite marked_after_rate.
  destruct (decide (fault e = Some AtGet)).
  { split; [intros (? & ? & ?); discriminate|tauto]. }
  destruct (marked (now e) data s).
  { split; [intros (? & ? & ?); discriminate|intros (_ & _ & _ & _ & ?); discriminate]. }
  destruct (decide (fault e = Some AtSet)).
  { split; [intros (? & ? & ?); discriminate|tauto]. }
  split; [intros _; repeat split; (done || lia)|intros _; eauto].
Qed.

(** What a run leaves under its own dedupe key. *)
Lemma followup_dedup_key e sock data s :
  let r := followup_create e sock data s in
  (admitted e sock data s /\
   keys (db_of r) !! dedupKey data = Some {| val := 1; expireAt := Some (now e + 300 * 1000) |}) \/
  (~ admitted e sock data s /\ keys (db_of r) !! dedupKey data = keys s !! dedupKey data).
Proof.
  cbn zeta. rewrite admitted_iff. unfold checks_run.
  pose proof (rate_not_dedup sock data) as Hne.
  rewrite followup_eq.
  destruct (shape data) as [x|]; [right; split; [intros (? & _); discriminate|done]|].
  rewrite rate_limit_eq. cbn zeta. rewrite incr_count. fold (windowCount (now e) sock s).
  destruct (decide (fault e = Some AtIncr)); [right; split; [tauto|done]|].
  destruct (decide (fault e = Some AtExpire)).
  { right; split; [tauto|]. simpl. by rewrite incr_other. }
  assert (Hk : expire (rateLimitKey sock) 60 (now e)
                 (incr (rateLimitKey sock) (now e) (keys s)).2 !! dedupKey data
               = keys s !! dedupKey data)
    by (by rewrite expire_other, incr_other).
  destruct (Z.ltb_spec 10 (windowCount (now e) sock s + 1)).
  { right; split; [intros; lia|exact Hk]. }
  rewrite dedupe_eq. cbn zeta. rewrite marked_after_rate.
  destruct (decide (fault e = Some AtGet)); [right; split; [tauto|exact Hk]|].
  destruct (marked (now e) data s).
  { right; split; [intros (_ & _ & _ & _ & ?); discriminate|exact Hk]. }
  destruct (decide (fault e = Some AtSet)); [right; split; [tauto|exact Hk]|].
  left. split; [repeat split; (done || lia)|].
  rewrite generate_eq. cbn zeta.
  repeat case_match; simplify_eq/=; unfold set_ex; by rewrite lookup_insert_eq.
Qed.

Lemma marked_live t data s v :
  keys s !! dedupKey data = Some v -> marked t data s = live t v.
Proof.
  unfold marked, get, lookup_live. intros ->.
  destruct (live t v); reflexivity.
Qed.

Lemma same_items_key d1 d2 : items d2 = items d1 -> dedupKey d2 = dedupKey d1.
Proof. unfold dedupKey, itemsHash. by intros ->. Qed.

Lemma same_items_marked d1 d2 t s : items d2 = items d1 -> marked t d2 s = marked t d1 s.
Proof. intros H. unfold marked. by rewrite (same_items_key _ _ H). Qed.

Lemma mark_set_until t (k : string) (keys : gmap string Value) :
  keys !! k = Some {| val := 1; expireAt := Some (t + 300 * 1000) |} ->
  mark_until (t + 300 * 1000) (keys !! k).
Proof.
  intros ->. eexists; split; [reflexivity|]. intros u Hu. unfold live. simpl.
  destruct (Z.leb_spec u (t + 300 * 1000)); [reflexivity|lia].
Qed.

End Dedupe.

Module Failure.
Import Redis Shared Server Blocks Keys Dedupe.

(** The questions log and the events of a run, case by case. *)
Lemma followup_log e sock data s :
  let r := followup_create e sock data s in
  (questions (db_of r) = questions s /\
   (delivered (effects_of r) = [] \/ delivered (effects_of r) = [apology_event e]) /\
   outcome_of r <> Broadcast /\
   (question_appends (effects_of r) = 0%nat \/
    (question_appends (effects_of r) = 1%nat /\ fault e = Some AtXAddQuestions))) \/
  (questions (db_of r) = questions s ++ [entry e s] /\
   question_appends (effects_of r) = 1%nat /\
   ((outcome_of r = Broadcast /\ delivered (effects_of r) = [published e s; question e s]) \/
    (outcome_of r = Caught /\ fault e = Some AtPublish /\
     delivered (effects_of r) = [published e s; apology_event e]))).
Proof.
  cbn zeta. rewrite followup_eq.
  destruct (shape data) as [x|].
  { left. unfold outcome_of. simpl. repeat split; auto; discriminate. }
  rewrite rate_limit_eq. cbn zeta.
  repeat case_match; simplify_eq/=;
    try (rewrite dedupe_eq in *; cbn zeta in *; repeat case_match; simplify_eq/=);
    try (rewrite generate_eq in *; cbn zeta in *; repeat case_match; simplify_eq/=);
    unfold effects_of, outcome_of, db_of, entry, question_appends; simpl;
    first [ by (left; repeat split; auto; discriminate)
          | by (right; repeat split; auto) ].
Qed.

Lemma delivered_replayed sock (l : list (StreamID * QuestionFields)) :
  delivered (map (fun m => SocketEmit sock (replayed m)) l) = map replayed l.
Proof. induction l as [|m l IH]; simpl; [reflexivity|]. by rewrite IH. Qed.

Lemma request_replay_delivered throws sock last s :
  delivered (request_replay throws sock last s).2 =
    if throws then []
    else map replayed
           (take 100 (List.filter (fun m => id_ltb (default id0 last) m.1) (questions s))).
Proof.
  unfold request_replay, xRead. destruct throws; [reflexivity|].
  destruct (take 100 _) as [|m l]; [reflexivity|].
  simpl. by rewrite delivered_replayed.
Qed.

Lemma request_replay_db throws sock last s : (request_replay throws sock last s).1 = s.
Proof.
  unfold request_replay. destruct throws; [reflexivity|]. by destruct (xRead _ _ _).
Qed.

(** C7: when the OpenAI call of an admitted submission fails, the run ends
    in the catch block: its one event is the fixed apology, sent to the
    requester's socket without a stream id; nothing is appended to
    [questions:stream], which is as it was, and nothing is published (the
    raw follow-up is in [followups:stream] by then).  In general an event
    that any request makes the server send or publish carries a stream id
    if and only if it has the id and the text of an entry of
    [questions:stream] (a replayed event is the entry as it is stored; the
    published and the broadcast event carry their own, later reading of the
    clock as [createdAt]), and an event without one is the apology. *)
Theorem transform_failure_notice :
  (forall e sock data s,
     admitted e sock data s -> fault e = Some AtOpenAI ->
     let r := followup_create e sock data s in
     outcome_of r = Caught /\
     questions (db_of r) = questions s /\
     question_appends (effects_of r) = 0%nat /\
     delivered (effects_of r) = [apology_event e] /\
     last (effects_of r) = Some (SocketEmit sock (apology_event e)) /\
     text (apology_event e) = apology /\ streamId (apology_event e) = None /\
     followups (db_of r) =
       followups s ++
       [(next_id (now e) (last_id (followups s)),
         {| f_items := JS.stringify (items data); f_createdAt := createdAt data;
            f_socketId := sock |})]) /\
  (forall s r ev,
     ev ∈ delivered (handle s r).2 ->
     (is_Some (streamId ev) <->
        exists m, m ∈ questions (handle s r).1 /\
                  streamId ev = Some m.1 /\ text ev = q_text m.2) /\
     (streamId ev = None -> text ev = apology) /\
     (forall throws sock last, r = ReplayRequest throws sock last ->
        exists m, m ∈ questions s /\ ev = replayed m)).
Proof.
  split.
  - intros e sock data s Ha Hf r.
    apply admitted_iff in Ha as (Hs & (H1 & H2 & H3) & H4 & Hn & Hm).
    subst r. rewrite followup_eq, Hs, rate_limit_eq. cbn zeta.
    rewrite incr_count. fold (windowCount (now e) sock s).
    destruct (decide (fault e = Some AtIncr)); [done|].
    destruct (decide (fault e = Some AtExpire)); [done|].
    destruct (Z.ltb_spec 10 (windowCount (now e) sock s + 1)); [lia|].
    rewrite dedupe_eq. cbn zeta. rewrite marked_after_rate, Hm.
    destruct (decide (fault e = Some AtGet)); [done|].
    destruct (decide (fault e = Some AtSet)); [done|].
    rewrite generate_eq. cbn zeta.
    destruct (decide (fault e = Some AtXAddFollowups)); [congruence|].
    destruct (decide (fault e = Some AtOpenAI)); [|done].
    unfold outcome_of, db_of, effects_of. simpl. repeat split; reflexivity.
  - intros s [e sock data|throws sock last] ev Hev; simpl in *.
    + destruct (followup_log e sock data s)
        as [(Hq & Hd & _)|(Hq & _ & [(_ & Hd)|(_ & _ & Hd)])];
        cbn zeta in *; rewrite Hq.
      * assert (ev = apology_event e) as ->.
        { destruct Hd as [Hd|Hd]; rewrite Hd in Hev.
          - by apply elem_of_nil in Hev.
          - by apply list_elem_of_singleton in Hev. }
        split; [|split; [reflexivity|discriminate]]. split.
        -- intros [i Hi]. discriminate.
        -- intros (m & _ & Hm & _). discriminate.
      * rewrite Hd in Hev.
        assert (Hin : entry e s ∈ questions s ++ [entry e s]).
        { apply elem_of_app. right. by apply list_elem_of_singleton. }
        assert (ev = published e s \/ ev = question e s) as [->| ->].
        { apply elem_of_cons in Hev as [Hev|Hev]; [by left|].
          apply list_elem_of_singleton in Hev. by right. }
        -- split; [|split; discriminate]. split; [|by eauto].
           intros _. exists (entry e s). split; [exact Hin|]. split; reflexivity.
        -- split; [|split; discriminate]. split; [|by eauto].
           intros _. exists (entry e s). split; [exact Hin|]. split; reflexivity.
      * rewrite Hd in Hev.
        apply elem_of_cons in Hev as [->|Hev].
        -- split; [|split; discriminate]. split; [|by eauto].
           intros _. exists (entry e s). split; [|split; reflexivity].
           apply elem_of_app. right. by apply list_elem_of_singleton.
        -- apply list_elem_of_singleton in Hev as ->.
           split; [|split; [reflexivity|discriminate]]. split.
           ++ intros [i Hi]. discriminate.
           ++ intros (m & _ & Hm & _). discriminate.
    + rewrite request_replay_delivered in Hev. rewrite request_replay_db.
      destruct throws; [by apply elem_of_nil in Hev|].
      apply list_elem_of_fmap in Hev as (m & -> & Hm).
      apply subseteq_take in Hm.
      apply list_elem_of_In, List.filter_In in Hm as [Hm _]. apply list_elem_of_In in Hm.
      split; [|split; [discriminate|]].
      * split; [|by eauto]. intros _. exists m. split; [exact Hm|]. split; reflexivity.
      * intros _ _ _ _. exists m. split; [exact Hm|reflexivity].
Qed.

Lemma transform_failure_notice_witness :
  outcome_of (followup_create (Examples.failing AtOpenAI) "r1" Examples.three empty_db) = Caught /\
  questions (db_of (followup_create (Examples.failing AtOpenAI) "r1" Examples.three empty_db)) = [] /\
  delivered (effects_of (followup_create (Examples.failing AtOpenAI) "r1" Examples.three empty_db))
    = [apology_event (Examples.failing AtOpenAI)].
Proof.
  destruct transform_failure_notice as [H _].
  destruct (H (Examples.failing AtOpenAI) "r1"%string Examples.three empty_db)
    as (H1 & H2 & _ & H4 & _).
  - apply admitted_iff. unfold checks_run. simpl.
    repeat split; try discriminate; vm_compute; (reflexivity || discriminate).
  - reflexivity.
  - repeat split; assumption.
Defined.

Lemma script_NoDup e sock data s : NoDup (script e sock data s).
Proof.
  unfold script.
  repeat (apply NoDup_cons; split;
          [rewrite ?not_elem_of_cons; repeat split; try discriminate; apply not_elem_of_nil|]).
  apply NoDup_nil_2.
Qed.

(** C9, as stated, fails: with the store down at the XADD on
    [questions:stream], the append is attempted once and the run goes to
    the catch block. *)
Lemma append_not_retried :
  question_appends (effects_of (followup_create (Examples.failing AtXAddQuestions) "r1" Examples.three empty_db))
    = 1%nat /\
  outcome_of (followup_create (Examples.failing AtXAddQuestions) "r1" Examples.three empty_db) = Caught /\
  questions (db_of (followup_create (Examples.failing AtXAddQuestions) "r1" Examples.three empty_db)) = [] /\
  last (effects_of (followup_create (Examples.failing AtXAddQuestions) "r1" Examples.three empty_db))
    = Some (SocketEmit "r1" (apology_event (Examples.failing AtXAddQuestions))).
Proof. vm_compute. repeat split; reflexivity. Qed.

(** C9 (amended): nothing is retried.  A run issues its awaited calls at
    most once each, in program order, and stops at the first rejection
    (after at most three calls, with the logged reason as its last effect)
    or at the first call that throws, the XADD on [questions:stream]
    included: that append is attempted once, the log is left as it was, and
    the one thing that follows is the apology sent to the submitter. *)
Theorem single_attempt_no_retry e sock data s :
  let r := followup_create e sock data s in
  NoDup (effects_of r) /\
  (question_appends (effects_of r) <= 1)%nat /\
  (exists n tl,
     effects_of r = take n (script e sock data s) ++ tl /\
     ((outcome_of r = Broadcast /\ tl = [] /\ n = 9%nat) \/
      (exists x, outcome_of r = Rejected x /\ tl = [ConsoleError x] /\ (n <= 3)%nat) \/
      (outcome_of r = Caught /\ tl = [SocketEmit sock (apology_event e)] /\ (1 <= n <= 8)%nat))) /\
  (admitted e sock data s -> fault e = Some AtXAddQuestions ->
     outcome_of r = Caught /\
     question_appends (effects_of r) = 1%nat /\
     questions (db_of r) = questions s /\
     effects_of r = take 7 (script e sock data s) ++ [SocketEmit sock (apology_event e)]).
Proof.
  intros r.
  destruct (followup_effects e sock data s) as (n & tl & Heq & Hcase). fold r in Heq, Hcase.
  split; [|split; [|split]].
  - rewrite Heq. apply NoDup_app. split; [|split].
    + eapply sublist_NoDup; [apply script_NoDup|apply sublist_take].
    + intros x Hx Htl. apply subseteq_take in Hx.
      assert (forall y, y ∈ tl -> y ∉ script e sock data s) as Hno.
      { intros y Hy. unfold script.
        destruct Hcase as [(_ & Ht & _)|[(z & _ & Ht & _)|(_ & Ht & _)]]; rewrite Ht in Hy.
        - by apply elem_of_nil in Hy.
        - apply list_elem_of_singleton in Hy as ->.
          rewrite !not_elem_of_cons. repeat split; try discriminate. apply not_elem_of_nil.
        - apply list_elem_of_singleton in Hy as ->.
          rewrite !not_elem_of_cons. repeat split; try discriminate. apply not_elem_of_nil. }
      by apply (Hno x).
    + destruct Hcase as [(_ & -> & _)|[(z & _ & -> & _)|(_ & -> & _)]];
        [apply NoDup_nil_2|apply NoDup_singleton..].
  - destruct (followup_log e sock data s) as [(_ & _ & _ & [H|[H _]])|(_ & H & _)];
      fold r in H; rewrite H; lia.
  - exists n, tl. split; assumption.
  - intros Ha Hf.
    apply admitted_iff in Ha as (Hs & (H1 & H2 & H3) & H4 & Hn & Hm).
    subst r. rewrite followup_eq, Hs, rate_limit_eq. cbn zeta.
    rewrite incr_count. fold (windowCount (now e) sock s).
    destruct (decide (fault e = Some AtIncr)); [done|].
    destruct (decide (fault e = Some AtExpire)); [done|].
    destruct (Z.ltb_spec 10 (windowCount (now e) sock s + 1)); [lia|].
    rewrite dedupe_eq. cbn zeta. rewrite marked_after_rate, Hm.
    destruct (decide (fault e = Some AtGet)); [done|].
    destruct (decide (fault e = Some AtSet)); [done|].
    rewrite generate_eq. cbn zeta.
    destruct (decide (fault e = Some AtXAddFollowups)); [congruence|].
    destruct (decide (fault e = Some AtOpenAI)); [congruence|].
    destruct (decide (fault e = Some AtXAddQuestions)); [|done].
    unfold outcome_of, db_of, effects_of. simpl. repeat split; reflexivity.
Qed.

Lemma single_attempt_no_retry_witness :
  outcome_of (followup_create (Examples.failing AtXAddQuestions) "r1" Examples.three empty_db) = Caught /\
  question_appends
    (effects_of (followup_create (Examples.failing AtXAddQuestions) "r1" Examples.three empty_db)) = 1%nat.
Proof.
  destruct (single_attempt_no_retry (Examples.failing AtXAddQuestions) "r1" Examples.three empty_db)
    as (_ & _ & _ & H).
  destruct H as (H1 & H2 & _).
  - apply admitted_iff. unfold checks_run. simpl.
    repeat split; try discriminate; vm_compute; (reflexivity || discriminate).
  - reflexivity.
  - split; assumption.
Defined.

End Failure.

Module Log.
Import Redis Shared Server Blocks Keys Dedupe Failure.

Lemma id_lt_spec a b : id_lt a b <-> ms a < ms b \/ (ms a = ms b /\ seq a < seq b).
Proof.
  unfold id_lt, id_ltb.
  rewrite orb_true_iff, andb_true_iff, !Z.ltb_lt, Z.eqb_eq. reflexivity.
Qed.

Lemma id_lt_trans a b c : id_lt a b -> id_lt b c -> id_lt a c.
Proof. rewrite !id_lt_spec. lia. Qed.

Lemma id_lt_irrefl a : ~ id_lt a a.
Proof. rewrite id_lt_spec. lia. Qed.

Lemma id_lt_asym a b : id_lt a b -> ~ id_lt b a.
Proof. rewrite !id_lt_spec. lia. Qed.

Lemma next_id_gt t top : id_lt top (next_id t top).
Proof.
  unfold next_id. destruct (Z.ltb_spec (ms top) t); rewrite id_lt_spec; simpl; lia.
Qed.

Lemma above_weaken {A} lo lo' (s : stream A) : id_lt lo' lo -> above lo s -> above lo' s.
Proof.
  destruct s as [|m rest]; simpl; [done|].
  intros H [H1 H2]. split; [by eapply id_lt_trans|done].
Qed.

Lemma above_all {A} (s : stream A) : forall lo m, above lo s -> m ∈ s -> id_lt lo m.1.
Proof.
  induction s as [|x rest IH]; intros lo m Ha Hm.
  - by apply elem_of_nil in Hm.
  - destruct Ha as [H1 H2]. apply elem_of_cons in Hm as [->|Hm]; [done|].
    eapply id_lt_trans; [exact H1|]. by apply IH.
Qed.

(** The id of the last entry, or [lo] for an empty stream. *)
Lemma last_id_cons {A} (m : StreamID * A) rest :
  last_id (m :: rest) = match rest with [] => m.1 | _ => last_id rest end.
Proof. unfold last_id. destruct rest; reflexivity. Qed.

Lemma above_snoc {A} (s : stream A) : forall lo (x : StreamID * A),
  above lo s ->
  id_lt (match s with [] => lo | _ => last_id s end) x.1 ->
  above lo (s ++ [x]).
Proof.
  induction s as [|m rest IH]; intros lo x Ha Hx; simpl in *.
  - done.
  - destruct Ha as [H1 H2]. split; [done|].
    apply IH; [done|]. rewrite last_id_cons in Hx. by destruct rest.
Qed.

Lemma above_xAdd {A} (s : stream A) t (q : A) :
  above id0 s -> above id0 (s ++ [(next_id t (last_id s), q)]).
Proof.
  intros H. apply above_snoc; [done|]. simpl.
  destruct s; [|apply next_id_gt]. apply next_id_gt.
Qed.

Lemma above_app {A} (l1 l2 : stream A) : forall lo m,
  above lo (l1 ++ m :: l2) ->
  (forall a, a ∈ l1 -> id_lt a.1 m.1) /\ above m.1 l2.
Proof.
  induction l1 as [|x l1 IH]; intros lo m H; simpl in *.
  - destruct H as [_ H]. split; [|done]. intros a Ha. by apply elem_of_nil in Ha.
  - destruct H as [H1 H2]. destruct (IH _ _ H2) as [H3 H4]. split; [|done].
    intros a Ha. apply elem_of_cons in Ha as [->|Ha]; [|by apply H3].
    apply (above_all _ _ _ H2). apply elem_of_app. right. left.
Qed.

(** In such a stream an earlier entry has the smaller id. *)
Lemma above_lookup {A} lo (s : stream A) i j a b :
  above lo s -> (i < j)%nat -> s !! i = Some a -> s !! j = Some b -> id_lt a.1 b.1.
Proof.
  intros Ha Hij Hi Hj.
  rewrite <- (take_drop_middle s i a Hi) in Ha, Hj.
  apply above_app in Ha as [_ Ha].
  apply (above_all _ _ _ Ha).
  assert (Hlen : length (take i s) = i).
  { apply length_take_le. apply lookup_lt_Some in Hi. lia. }
  rewrite lookup_app_r in Hj by lia. rewrite Hlen in Hj.
  destruct (j - i)%nat as [|d] eqn:E; [lia|]. simpl in Hj.
  by apply list_elem_of_lookup_2 in Hj.
Qed.

Lemma filter_all {A} (f : A -> bool) l : (forall x, x ∈ l -> f x = true) -> List.filter f l = l.
Proof.
  induction l as [|x l IH]; intros H; simpl; [done|].
  rewrite H by left. f_equal. apply IH. intros y Hy. apply H. by right.
Qed.

Lemma filter_none {A} (f : A -> bool) l : (forall x, x ∈ l -> f x = false) -> List.filter f l = [].
Proof.
  induction l as [|x l IH]; intros H; simpl; [done|].
  rewrite H by left. apply IH. intros y Hy. apply H. by right.
Qed.

(** XREAD from ['0'] and from the id of the entry at index [k]. *)
Lemma read_from_start {A} (s : stream A) :
  above id0 s -> List.filter (fun m => id_ltb id0 m.1) s = s.
Proof. intros H. apply filter_all. intros m Hm. by apply (above_all _ _ _ H). Qed.

Lemma read_from_entry {A} lo (s : stream A) k m :
  above lo s -> s !! k = Some m ->
  List.filter (fun x => id_ltb m.1 x.1) s = drop (S k) s.
Proof.
  intros Ha Hk.
  rewrite <- (take_drop_middle s k m Hk) at 1.
  rewrite <- (take_drop_middle s k m Hk) in Ha.
  apply above_app in Ha as [H1 H2].
  rewrite List.filter_app. simpl.
  rewrite filter_none.
  - assert (id_ltb m.1 m.1 = false) as ->.
    { apply not_true_is_false. apply id_lt_irrefl. }
    simpl. apply filter_all. intros x Hx. by apply (above_all _ _ _ H2).
  - intros x Hx. apply not_true_is_false. apply id_lt_asym. by apply H1.
Qed.

Lemma handle_questions s r :
  questions (handle s r).1 = questions s \/
  exists t q, questions (handle s r).1 = questions s ++ [(next_id t (last_id (questions s)), q)].
Proof.
  destruct r as [e sock data|throws sock last]; simpl.
  - destruct (followup_log e sock data s) as [(H & _)|(H & _)]; [by left|].
    right. by exists (later e), {| q_text := aiText e; q_createdAt := storedAt e |}.
  - left. by rewrite request_replay_db.
Qed.

Lemma handle_above s r : above id0 (questions s) -> above id0 (questions (handle s r).1).
Proof.
  intros H. destruct (handle_questions s r) as [->|(t & q & ->)]; [done|].
  by apply above_xAdd.
Qed.

Lemma serve_above rs : forall s, above id0 (questions s) -> above id0 (questions (serve s rs)).
Proof.
  induction rs as [|r rs IH]; intros s H; [done|]. simpl. apply IH, handle_above, H.
Qed.

Lemma handle_prefix s r : questions s `prefix_of` questions (handle s r).1.
Proof.
  destruct (handle_questions s r) as [->|(t & q & ->)]; [done|]. by apply prefix_app_r.
Qed.

Lemma serve_prefix rs : forall s, questions s `prefix_of` questions (serve s rs).
Proof.
  induction rs as [|r rs IH]; intros s; [done|]. simpl.
  etrans; [apply handle_prefix|apply IH].
Qed.

Lemma serve_app s rs1 rs2 : serve s (rs1 ++ rs2) = serve (serve s rs1) rs2.
Proof. unfold serve. apply fold_left_app. Qed.

(** C3: the ids of [questions:stream] go up in append order, whatever the
    server has been asked and whatever failed; a request only ever adds to
    the end of the log, so every entry stays where it is and as it is; and
    when the run for A appends an entry and, any requests later, the run
    for B appends one, A's entry is in the log before B's with the
    smaller id. *)
Theorem log_ids_increase :
  (forall rs i j a b,
     (i < j)%nat ->
     questions (serve empty_db rs) !! i = Some a ->
     questions (serve empty_db rs) !! j = Some b ->
     id_lt a.1 b.1) /\
  (forall s rs i m,
     questions s !! i = Some m -> questions (serve s rs) !! i = Some m) /\
  (forall rs0 eA cA dA rs1 eB cB dB,
     let s0 := serve empty_db rs0 in
     let rA := followup_create eA cA dA s0 in
     let s1 := serve (db_of rA) rs1 in
     let rB := followup_create eB cB dB s1 in
     questions (db_of rA) <> questions s0 ->
     questions (db_of rB) <> questions s1 ->
     questions (db_of rB) !! length (questions s0) = Some (entry eA s0) /\
     questions (db_of rB) !! length (questions s1) = Some (entry eB s1) /\
     (length (questions s0) < length (questions s1))%nat /\
     id_lt (entry eA s0).1 (entry eB s1).1).
Proof.
  assert (Hidx : forall rs i j a b,
     (i < j)%nat ->
     questions (serve empty_db rs) !! i = Some a ->
     questions (serve empty_db rs) !! j = Some b ->
     id_lt a.1 b.1).
  { intros rs i j a b Hij Hi Hj.
    eapply above_lookup; [|exact Hij|exact Hi|exact Hj].
    apply serve_above. simpl. exact I. }
  assert (Hkeep : forall s rs i m,
     questions s !! i = Some m -> questions (serve s rs) !! i = Some m).
  { intros s rs i m Hi. destruct (serve_prefix rs s) as [k ->].
    by apply lookup_app_l_Some. }
  split; [exact Hidx|]. split; [exact Hkeep|].
  intros rs0 eA cA dA rs1 eB cB dB s0 rA s1 rB HA HB.
  assert (HqA : questions (db_of rA) = questions s0 ++ [entry eA s0]).
  { destruct (followup_log eA cA dA s0) as [(H & _)|(H & _)]; [contradiction|exact H]. }
  assert (HqB : questions (db_of rB) = questions s1 ++ [entry eB s1]).
  { destruct (followup_log eB cB dB s1) as [(H & _)|(H & _)]; [contradiction|exact H]. }
  assert (H0 : questions (db_of rA) !! length (questions s0) = Some (entry eA s0)).
  { rewrite HqA. by apply list_lookup_middle. }
  assert (H1 : questions s1 !! length (questions s0) = Some (entry eA s0)).
  { by apply Hkeep. }
  assert (HA' : questions (db_of rB) !! length (questions s0) = Some (entry eA s0)).
  { rewrite HqB. by apply lookup_app_l_Some. }
  assert (HB' : questions (db_of rB) !! length (questions s1) = Some (entry eB s1)).
  { rewrite HqB. by apply list_lookup_middle. }
  assert (Hlt : (length (questions s0) < length (questions s1))%nat).
  { by apply lookup_lt_Some in H1. }
  repeat split; try assumption.
  assert (Hreach : db_of rB
                   = serve empty_db (rs0 ++ [FollowUp eA cA dA] ++ rs1 ++ [FollowUp eB cB dB])).
  { rewrite !serve_app. reflexivity. }
  rewrite Hreach in HA', HB'.
  exact (Hidx _ _ _ _ _ Hlt HA' HB').
Qed.

Lemma log_ids_increase_witness :
  id_lt (entry (Examples.at_ 1000) empty_db).1
        (entry (Examples.at_ 1000)
           (serve (db_of (followup_create (Examples.at_ 1000) "r1" (Examples.ask "a") empty_db)) [])).1.
Proof.
  destruct log_ids_increase as (_ & _ & H).
  destruct (H [] (Examples.at_ 1000) "r1"%string (Examples.ask "a") []
              (Examples.at_ 1000) "r2"%string (Examples.ask "b")) as (_ & _ & _ & Hlt).
  - vm_compute. discriminate.
  - vm_compute. discriminate.
  - exact Hlt.
Defined.

Lemma replay_events_eq sock last s :
  replay_events sock last s =
    map replayed (take 100 (List.filter (fun m => id_ltb (default id0 last) m.1) (questions s))).
Proof. unfold replay_events. by rewrite request_replay_delivered. Qed.

Lemma replay_reads_once sock last s :
  List.filter (fun x => match x with Call XREAD _ => true | _ => false end)
    (request_replay false sock last s).2 = [Call XREAD "questions:stream"].
Proof.
  unfold request_replay, xRead.
  destruct (take 100 _) as [|m l]; [reflexivity|].
  simpl. f_equal. clear m.
  induction l as [|x l IH]; [reflexivity|exact IH].
Qed.

(** C1, as stated, fails past a hundred entries: the handler reads once,
    with COUNT 100, and sends what that read returns. *)
Lemma replay_stops_at_100 :
  length (questions (serve empty_db Examples.many)) = 101%nat /\
  length (replay_events "p1" None (serve empty_db Examples.many)) = 100%nat /\
  replay_events "p1" None (serve empty_db Examples.many)
    <> map replayed (questions (serve empty_db Examples.many)).
Proof.
  assert (H1 : length (questions (serve empty_db Examples.many)) = 101%nat)
    by (vm_compute; reflexivity).
  assert (H2 : length (replay_events "p1" None (serve empty_db Examples.many)) = 100%nat)
    by (vm_compute; reflexivity).
  split; [exact H1|]. split; [exact H2|].
  intros H. apply (f_equal length) in H. rewrite length_map, H1, H2 in H. discriminate.
Qed.

(** C1 (amended): after any requests, a replay from [null] sends the first
    100 entries of the log in append order, and a replay from the id of the
    entry at index [k] sends the first 100 of the entries after it, in
    order: all N entries, and exactly the entries k+1..N, whenever there are
    at most 100 of them to send.  One read is made; nothing is read a
    second time. *)
Theorem replay_single_batch rs sock :
  let s := serve empty_db rs in
  replay_events sock None s = map replayed (take 100 (questions s)) /\
  (forall k m, questions s !! k = Some m ->
     replay_events sock (Some m.1) s = map replayed (take 100 (drop (S k) (questions s)))) /\
  ((length (questions s) <= 100)%nat ->
     replay_events sock None s = map replayed (questions s)) /\
  (forall k m, questions s !! k = Some m ->
     (length (questions s) - S k <= 100)%nat ->
     replay_events sock (Some m.1) s = map replayed (drop (S k) (questions s))) /\
  (forall last,
     List.filter (fun x => match x with Call XREAD _ => true | _ => false end)
       (request_replay false sock last s).2 = [Call XREAD "questions:stream"]).
Proof.
  intros s.
  assert (Ha : above id0 (questions s)) by (apply serve_above; exact I).
  assert (H0 : replay_events sock None s = map replayed (take 100 (questions s))).
  { rewrite replay_events_eq. simpl. by rewrite read_from_start. }
  assert (Hk : forall k m, questions s !! k = Some m ->
     replay_events sock (Some m.1) s = map replayed (take 100 (drop (S k) (questions s)))).
  { intros k m Hm. rewrite replay_events_eq. simpl.
    by rewrite (read_from_entry id0 _ k m Ha Hm). }
  split; [exact H0|]. split; [exact Hk|]. split; [|split].
  - intros Hle. rewrite H0. by rewrite take_ge.
  - intros k m Hm Hle. rewrite (Hk k m Hm). rewrite take_ge; [done|].
    rewrite length_drop. lia.
  - intros last. apply replay_reads_once.
Qed.

Lemma replay_single_batch_witness :
  replay_events "p1"
    (Some (entry (Examples.at_ 1000) empty_db).1)
    (serve empty_db [FollowUp (Examples.at_ 1000) "r1" (Examples.ask "a");
                     FollowUp (Examples.at_ 6000) "r1" (Examples.ask "b");
                     FollowUp (Examples.at_ 11000) "r1" (Examples.ask "c")])
  = map replayed
      (drop 1 (questions (serve empty_db [FollowUp (Examples.at_ 1000) "r1" (Examples.ask "a");
                                          FollowUp (Examples.at_ 6000) "r1" (Examples.ask "b");
                                          FollowUp (Examples.at_ 11000) "r1" (Examples.ask "c")]))).
Proof.
  destruct (replay_single_batch [FollowUp (Examples.at_ 1000) "r1" (Examples.ask "a");
                             FollowUp (Examples.at_ 6000) "r1" (Examples.ask "b");
                             FollowUp (Examples.at_ 11000) "r1" (Examples.ask "c")] "p1")
    as (_ & _ & _ & H & _).
  apply (H 0%nat (entry (Examples.at_ 1000) empty_db)).
  - vm_compute. reflexivity.
  - vm_compute. lia.
Defined.

End Log.

Module Playback.
Import Redis Shared Participant.

Lemma pairs_snoc ts t : pairs (ts ++ [t]) = pairs ts ++ [Start t; Stop t].
Proof. unfold pairs. rewrite flat_map_app. simpl. reflexivity. Qed.

Lemma serial_pairs ts r : (length r <= 1)%nat -> serial (pairs ts ++ map Start r) = true.
Proof.
  intros Hr. induction ts as [|t ts IH]; simpl.
  - destruct r as [|x [|y r]]; simpl in *; [reflexivity|reflexivity|lia].
  - rewrite bool_decide_eq_true_2 by reflexivity. exact IH.
Qed.

Lemma started_pairs ts r : started (pairs ts ++ map Start r) = ts ++ r.
Proof.
  induction ts as [|t ts IH]; simpl.
  - induction r as [|x r IH]; simpl; [reflexivity|]. by rewrite IH.
  - by rewrite IH.
Qed.

Lemma speak_inv q t a : queue_inv q a -> queue_inv (q ++ [t]) (speak t a).
Proof.
  intros (done & Hlog & Hq & [[Hs (u & Hr)]|(Hs & Hr & Hqu)]).
  - exists done. unfold speak, processQueue. simpl. rewrite Hs. simpl.
    split; [exact Hlog|]. split.
    + rewrite <- Hq. by rewrite <- !app_assoc.
    + left. eauto.
  - exists done. unfold speak, processQueue. simpl. rewrite Hs, Hqu. simpl.
    rewrite Hr in *. simpl in *. rewrite app_nil_r in Hlog. rewrite Hqu, app_nil_r in Hq.
    split; [by rewrite Hlog|]. split; [by rewrite Hq|]. left. eauto.
Qed.

Ltac after_end done u :=
  exists (done ++ [u]); simpl;
  match goal with Hlog : log _ = _ |- _ => rewrite Hlog end;
  rewrite pairs_snoc; simpl; rewrite <- ?app_assoc; simpl; rewrite ?app_nil_r;
  (split; [reflexivity|]); split;
  [ match goal with Hq : _ = ?q |- _ = ?q => rewrite <- Hq end;
    rewrite <- ?app_assoc; simpl; rewrite ?app_nil_r; reflexivity
  | first [ left; split; [reflexivity|]; eexists; reflexivity
          | right; repeat split; reflexivity ] ].

Lemma end_inv q a t a' :
  queue_inv q a -> finished a = Some (t, a') ->
  queue_inv q (onend a') /\ queue_inv q (onerror a').
Proof.
  intros (done & Hlog & Hq & Hcase) Hf.
  unfold finished in Hf. destruct (rendering a) as [|u rest] eqn:Hr; [discriminate|].
  inversion Hf; subst t a'; clear Hf.
  assert (rest = []) as ->.
  { destruct Hcase as [[_ (x & Hx)]|(_ & Hx & _)]; congruence. }
  clear Hcase. simpl in *.
  unfold onend, onerror, processQueue. simpl.
  destruct (speakQueue a) as [|v rest] eqn:Hqu; simpl; split; after_end done u.
Qed.

Lemma step_inv q a ev a' :
  queue_inv q a -> step a ev = Some a' -> queue_inv (q ++ enqueued [ev]) a'.
Proof.
  intros Hinv Hstep. destruct ev as [d| | | |]; simpl in *.
  - inversion Hstep; subst a'; clear Hstep. unfold on_agent_questions.
    match goal with |- context [speak ?t ?b] =>
      assert (Hs : queue_inv (q ++ [t]) (speak t b)) end.
    { apply speak_inv. destruct Hinv as (done & H). exists done. exact H. }
    destruct (streamId d); [|exact Hs].
    destruct Hs as (done & H). exists done. exact H.
  - rewrite app_nil_r. destruct (finished a) as [[t b]|] eqn:Hf; [|discriminate].
    inversion Hstep; subst a'. apply (end_inv q a t b Hinv Hf).
  - rewrite app_nil_r. destruct (finished a) as [[t b]|] eqn:Hf; [|discriminate].
    inversion Hstep; subst a'. apply (end_inv q a t b Hinv Hf).
  - rewrite app_nil_r. inversion Hstep; subst a'.
    destruct Hinv as (done & H). exists done. exact H.
  - rewrite app_nil_r. inversion Hstep; subst a'.
    destruct Hinv as (done & H). exists done. exact H.
Qed.

Lemma enqueued_cons ev evs : enqueued (ev :: evs) = enqueued [ev] ++ enqueued evs.
Proof. unfold enqueued. simpl. by rewrite app_nil_r. Qed.

Lemma run_inv evs : forall q a a',
  queue_inv q a -> run a evs = Some a' -> queue_inv (q ++ enqueued evs) a'.
Proof.
  induction evs as [|ev evs IH]; intros q a a' Hinv Hrun; simpl in Hrun.
  - inversion Hrun; subst. unfold enqueued. simpl. by rewrite app_nil_r.
  - destruct (step a ev) as [b|] eqn:Hstep; [|discriminate].
    rewrite enqueued_cons, app_assoc.
    eapply IH; [|exact Hrun]. eapply step_inv; eassumption.
Qed.

(** C4: after any sequence of arriving events and of utterances ending or
    failing, at most one utterance is being rendered; in the history of
    renderings each one ends before the next starts; the texts whose
    rendering has started, followed by those still queued, are the texts
    enqueued, in the order of their arrival; and an arriving event is always
    taken at once, rendering or not: [speak] returns with the text started
    or in the queue. *)
Theorem playback_serial evs a :
  run init evs = Some a ->
  (length (rendering a) <= 1)%nat /\
  serial (log a) = true /\
  started (log a) ++ speakQueue a = enqueued evs /\
  (forall d, exists a', step a (Received d) = Some a' /\
     started (log a') ++ speakQueue a' = enqueued evs ++ [text d] /\
     (length (rendering a') <= 1)%nat).
Proof.
  intros Hrun.
  assert (Hinit : queue_inv [] init).
  { exists []. simpl. repeat split; auto. }
  pose proof (run_inv evs [] init a Hinit Hrun) as Hinv. simpl in Hinv.
  assert (Hall : forall q b, queue_inv q b ->
            (length (rendering b) <= 1)%nat /\ serial (log b) = true /\
            started (log b) ++ speakQueue b = q).
  { intros q b (done & Hlog & Hq & Hcase).
    assert (Hlen : (length (rendering b) <= 1)%nat).
    { destruct Hcase as [[_ (t & ->)]|(_ & -> & _)]; simpl; lia. }
    split; [exact Hlen|]. rewrite Hlog. split; [by apply serial_pairs|].
    rewrite started_pairs, <- Hq. by rewrite <- app_assoc. }
  destruct (Hall _ _ Hinv) as (H1 & H2 & H3).
  split; [exact H1|]. split; [exact H2|]. split; [exact H3|].
  intros d. eexists. split; [reflexivity|].
  assert (Hd : queue_inv (enqueued evs ++ enqueued [Received d]) (on_agent_questions d a)).
  { eapply step_inv; [exact Hinv|reflexivity]. }
  destruct (Hall _ _ Hd) as (D1 & _ & D3). split; [exact D3|exact D1].
Qed.

Lemma playback_serial_witness :
  serial [Start "A"; Stop "A"; Start "B"]%string = true /\
  enqueued [Received Examples.qA; Received Examples.qB; Ended] = ["A"; "B"]%string.
Proof.
  destruct (playback_serial [Received Examples.qA; Received Examples.qB; Ended]
              {| status := speaking; messages := [Examples.qA; Examples.qB]; lastStreamId := None;
                 speakQueue := []; isSpeaking := true; rendering := ["B"%string];
                 log := [Start "A"; Stop "A"; Start "B"]%string |})
    as (_ & H2 & H3 & _).
  - vm_compute. reflexivity.
  - split; [exact H2|]. rewrite <- H3. reflexivity.
Defined.

End Playback.

(** * Further properties of the code *)

(** ** The fingerprint of an item list *)

Module Fingerprint.

Import Decode Shared Server.

Local Open Scope string_scope.

Lemma append_assoc (a b c : string) : (a ++ b) ++ c = a ++ (b ++ c).
Proof. induction a as [|x a IH]; [reflexivity|]. exact (f_equal (String x) IH). Qed.

Lemma app_String c (a b : string) : String c a ++ b = String c (a ++ b).
Proof. reflexivity. Qed.

Lemma app_empty (b : string) : EmptyString ++ b = b.
Proof. reflexivity. Qed.

Lemma b64_val_digit n : (n < 64)%N -> b64_val (JS.b64_digit n) = n.
Proof.
  intros H.
  assert (Hall : forallb (fun k => (b64_val (JS.b64_digit k) =? k)%N)
                   (map N.of_nat (List.seq 0 64)) = true) by (vm_compute; reflexivity).
  rewrite forallb_forall in Hall.
  apply N.eqb_eq, Hall, in_map_iff. exists (N.to_nat n).
  split; [apply N2Nat.id|]. apply in_seq. lia.
Qed.

Lemma b64_digit_not_pad n : (n < 64)%N -> is_pad (JS.b64_digit n) = false.
Proof.
  intros H.
  assert (Hall : forallb (fun k => negb (is_pad (JS.b64_digit k)))
                   (map N.of_nat (List.seq 0 64)) = true) by (vm_compute; reflexivity).
  rewrite forallb_forall in Hall.
  apply negb_true_iff, Hall, in_map_iff. exists (N.to_nat n).
  split; [apply N2Nat.id|]. apply in_seq. lia.
Qed.


Ltac divlia := zify; Z.to_euclidean_division_equations; lia.

Lemma unbase64_base64_3 (l : list N) :
  Forall (fun b => (b < 256)%N) l ->
  unbase64 (JS.base64 l) = l /\
  (forall x, (x < 256)%N -> unbase64 (JS.base64 (x :: l)) = x :: l) /\
  (forall x y, (x < 256)%N -> (y < 256)%N -> unbase64 (JS.base64 (x :: y :: l)) = x :: y :: l).
Proof.
  induction l as [|a l IH]; intros Hl.
  - split; [reflexivity|]. split.
    + intros x Hx. cbn [JS.base64 unbase64].
      rewrite !b64_val_digit by divlia.
      change (is_pad "=") with true. cbn iota. f_equal. divlia.
    + intros x y Hx Hy. cbn [JS.base64 unbase64].
      rewrite !b64_val_digit, ?b64_digit_not_pad by divlia.
      change (is_pad "=") with true. cbn iota. f_equal; [divlia|]. f_equal. divlia.
  - inversion Hl as [|? ? Ha Hl']; subst. destruct (IH Hl') as (I0 & I1 & I2).
    split; [by apply I1|]. split; [intros x Hx; by apply I2|].
    intros x y Hx Hy. cbn [JS.base64 unbase64].
    rewrite !b64_val_digit, ?b64_digit_not_pad by divlia.
    cbn iota. rewrite I0. f_equal; [divlia|]. f_equal; [divlia|]. f_equal. divlia.
Qed.

(** base64 can be read back. *)
Lemma unbase64_base64 (l : list N) :
  Forall (fun b => (b < 256)%N) l -> unbase64 (JS.base64 l) = l.
Proof. intros H. by apply unbase64_base64_3. Qed.

Lemma utf8_bytes s : Forall (fun b => (b < 256)%N) (JS.utf8 s).
Proof.
  induction s as [|c s IH]; simpl; [constructor|].
  pose proof (N_ascii_bounded c) as Hc.
  destruct (N.ltb_spec (N_of_ascii c) 128); repeat constructor; try divlia; exact IH.
Qed.

(** ... and so can the UTF-8 bytes of a string. *)
Lemma unutf8_utf8 s : unutf8 (JS.utf8 s) = s.
Proof.
  induction s as [|c s IH]; simpl; [reflexivity|].
  pose proof (N_ascii_bounded c) as Hc.
  destruct (N.ltb_spec (N_of_ascii c) 128) as [Hlt|Hge]; cbn [unutf8].
  - destruct (N.ltb_spec (N_of_ascii c) 128); [|divlia].
    by rewrite ascii_N_embedding, IH.
  - destruct (N.ltb_spec (192 + N_of_ascii c / 64) 128); [divlia|].
    replace ((192 + N_of_ascii c / 64 - 192) * 64 + (128 + N_of_ascii c mod 64 - 128))%N
      with (N_of_ascii c) by divlia.
    by rewrite ascii_N_embedding, IH.
Qed.


Lemma read_escape_unit c tail :
  read_string (JS.escape_unit c ++ tail) = cons_fst c (read_string tail).
Proof. destruct c as [[] [] [] [] [] [] [] []]; reflexivity. Qed.

Lemma read_escape s rest :
  read_string (JS.escape s ++ String JS.quote rest) = Some (s, rest).
Proof.
  induction s as [|c s IH]; [reflexivity|].
  cbn [JS.escape]. rewrite append_assoc, read_escape_unit, IH. reflexivity.
Qed.

Lemma stringify_string_app x tail :
  JS.stringify_string x ++ tail = String JS.quote (JS.escape x ++ String JS.quote tail).
Proof. unfold JS.stringify_string. by rewrite app_String, append_assoc, app_String. Qed.

Lemma concat_cons (x y : string) ys :
  String.concat "," (x :: y :: ys) = x ++ "," ++ String.concat "," (y :: ys).
Proof. reflexivity. Qed.

Lemma read_items_concat xs : forall x fuel,
  (length xs < fuel)%nat ->
  read_items fuel (String.concat "," (map JS.stringify_string (x :: xs)) ++ "]")
    = Some (x :: xs).
Proof.
  induction xs as [|y ys IH]; intros x fuel Hf; (destruct fuel as [|fuel]; [simpl in Hf; lia|]).
  - cbn [map String.concat]. rewrite stringify_string_app.
    cbn [read_items]. change (N_of_ascii JS.quote =? 34)%N with true. cbn iota.
    rewrite read_escape. reflexivity.
  - cbn [map]. rewrite concat_cons, !append_assoc, stringify_string_app.
    cbn [read_items]. change (N_of_ascii JS.quote =? 34)%N with true. cbn iota.
    rewrite read_escape. rewrite app_String, app_empty.
    change (N_of_ascii "," =? 44)%N with true. cbn iota.
    assert (Hlt : (length ys < fuel)%nat) by (simpl in Hf; lia).
    pose proof (IH y fuel Hlt) as IHy. cbn [map] in IHy. rewrite IHy. reflexivity.
Qed.

(** [JSON.stringify] of an array of strings can be read back. *)
Lemma parse_stringify items fuel :
  (length items <= fuel)%nat -> parse fuel (JS.stringify items) = Some items.
Proof.
  intros Hf. unfold JS.stringify. destruct items as [|x xs]; [reflexivity|].
  rewrite app_String, app_empty. unfold parse. change (N_of_ascii "[" =? 91)%N with true. cbn iota.
  pose proof (read_items_concat xs x fuel Hf) as H.
  destruct (String.concat "," (map JS.stringify_string (x :: xs)) ++ "]") as [|c [|d r]] eqn:E;
    try exact H.
  exfalso. destruct fuel as [|fuel]; simpl in H; [discriminate|].
  destruct (N_of_ascii c =? 34)%N; discriminate.
Qed.

(** The fingerprint of an item list determines the list. *)
Lemma itemsHash_inj d1 d2 : itemsHash d1 = itemsHash d2 -> items d1 = items d2.
Proof.
  unfold itemsHash. intros H.
  apply (f_equal unbase64) in H. rewrite !unbase64_base64 in H by apply utf8_bytes.
  apply (f_equal unutf8) in H. rewrite !unutf8_utf8 in H.
  apply (f_equal (parse (max (length (items d1)) (length (items d2))))) in H.
  rewrite !parse_stringify in H by lia. congruence.
Qed.

Lemma dedupKey_inj d1 d2 : dedupKey d1 = dedupKey d2 -> items d1 = items d2.
Proof.
  unfold dedupKey. intros H. apply itemsHash_inj.
  change ("dedup:" ++ itemsHash d1 = "dedup:" ++ itemsHash d2) in H.
  by apply (inj (String.append "dedup:")) in H.
Qed.

(** X1: the fingerprint is exact.  [JSON.stringify] of an array of
    strings determines the array, and so do its base64 fingerprint and the
    dedupe key built from it: two submissions have the same dedupe key if
    and only if their item lists are the same, item by item ([createdAt]
    plays no part). *)
Theorem fingerprint_exact :
  (forall l1 l2, JS.stringify l1 = JS.stringify l2 <-> l1 = l2) /\
  (forall d1 d2, itemsHash d1 = itemsHash d2 <-> items d1 = items d2) /\
  (forall d1 d2, dedupKey d1 = dedupKey d2 <-> items d1 = items d2).
Proof.
  split; [|split].
  - intros l1 l2. split; [|by intros ->]. intros H.
    apply (f_equal (parse (max (length l1) (length l2)))) in H.
    rewrite !parse_stringify in H by lia. congruence.
  - intros d1 d2. split; [apply itemsHash_inj|]. unfold itemsHash. by intros ->.
  - intros d1 d2. split; [apply dedupKey_inj|]. unfold dedupKey, itemsHash. by intros ->.
Qed.

End Fingerprint.

(** ** Admission: where rejections come from *)

Module Admission.
Import Redis Shared Server Blocks Keys Rate Dedupe Failure Log More Fingerprint.

Lemma handle_replay_keys throws c last s :
  keys (handle s (ReplayRequest throws c last)).1 = keys s.
Proof. simpl. by rewrite request_replay_db. Qed.

(** A run rejected as a duplicate found a live mark. *)
Lemma duplicate_marked e c d s :
  outcome_of (followup_create e c d s) = Rejected Duplicate ->
  marked (now e) d s = true.
Proof.
  rewrite followup_eq.
  destruct (shape d) as [x|] eqn:Hs.
  { unfold outcome_of. simpl. intros H. simplify_eq.
    destruct (Validation.shape_cases d) as (_ & _ & _ & _ & H). by apply H in Hs. }
  rewrite rate_limit_eq. cbn zeta.
  destruct (decide (fault e = Some AtIncr)); [discriminate|].
  destruct (decide (fault e = Some AtExpire)); [discriminate|].
  destruct (10 <? _); [discriminate|].
  rewrite dedupe_eq. cbn zeta. rewrite marked_after_rate.
  destruct (decide (fault e = Some AtGet)); [discriminate|].
  destruct (marked (now e) d s); [done|].
  destruct (decide (fault e = Some AtSet)); [discriminate|].
  rewrite generate_eq. cbn zeta.
  repeat case_match; simplify_eq/=; discriminate.
Qed.

(** Every dedupe mark in the store was set by an admitted run of a request
    with that item list, and expires 300 seconds after it. *)
Lemma dedup_origin rs : forall d v,
  keys (serve empty_db rs) !! dedupKey d = Some v ->
  exists rs1 e' c' d' rs2,
    rs = rs1 ++ FollowUp e' c' d' :: rs2 /\
    admitted e' c' d' (serve empty_db rs1) /\
    items d' = items d /\ v = {| val := 1; expireAt := Some (now e' + 300 * 1000) |}.
Proof.
  induction rs as [|r rs IH] using rev_ind; intros d v Hv.
  { simpl in Hv. by rewrite lookup_empty in Hv. }
  rewrite serve_app in Hv. simpl in Hv.
  assert (Hold : keys (serve empty_db rs) !! dedupKey d = Some v ->
    exists rs1 e' c' d' rs2,
      rs ++ [r] = rs1 ++ FollowUp e' c' d' :: rs2 /\
      admitted e' c' d' (serve empty_db rs1) /\
      items d' = items d /\ v = {| val := 1; expireAt := Some (now e' + 300 * 1000) |}).
  { intros H. destruct (IH d v H) as (rs1 & e' & c' & d' & rs2 & -> & Ha & Hi & Hx).
    exists rs1, e', c', d', (rs2 ++ [r]). split; [by rewrite <- app_assoc|done]. }
  destruct r as [e c d0|throws c last].
  2:{ rewrite handle_replay_keys in Hv. by apply Hold. }
  simpl in Hv.
  destruct (decide (dedupKey d0 = dedupKey d)) as [Heq|Hne].
  - rewrite <- Heq in Hv.
    destruct (followup_dedup_key e c d0 (serve empty_db rs)) as [[Ha Hk]|[_ Hk]];
      cbn zeta in Hk; rewrite Hk in Hv.
    + exists rs, e, c, d0, []. split; [done|]. split; [done|].
      split; [by apply dedupKey_inj|congruence].
    + rewrite Heq in Hv. by apply Hold.
  - rewrite followup_frame in Hv; [by apply Hold| |congruence].
    intros H. symmetry in H. by apply rate_not_dedup in H.
Qed.

(** X2: no false duplicates.  Starting from an empty store, a
    submission is rejected with Duplicate only if an earlier request with
    the very same item list passed admission, at most 300 seconds (of the
    server's clock) before. *)
Theorem duplicate_has_origin rs e c d :
  outcome_of (followup_create e c d (serve empty_db rs)) = Rejected Duplicate ->
  exists rs1 e' c' d' rs2,
    rs = rs1 ++ FollowUp e' c' d' :: rs2 /\
    admitted e' c' d' (serve empty_db rs1) /\
    items d' = items d /\
    now e <= now e' + 300 * 1000.
Proof.
  intros Ho. apply duplicate_marked in Ho.
  unfold marked, get, lookup_live in Ho.
  destruct (keys (serve empty_db rs) !! dedupKey d) as [v|] eqn:Hv; simpl in Ho.
  2:{ discriminate Ho. }
  destruct (dedup_origin rs d v Hv) as (rs1 & e' & c' & d' & rs2 & Hrs & Ha & Hi & ->).
  exists rs1, e', c', d', rs2. repeat (split; [assumption|]).
  unfold live in Ho. simpl in Ho.
  destruct (Z.leb_spec (now e) (now e' + 300 * 1000)); [assumption|].
  simpl in Ho. discriminate Ho.
Qed.

Lemma duplicate_has_origin_witness :
  exists rs1 e' c' d' rs2,
    [FollowUp (Examples.at_ 1000) "r1" Examples.three] = rs1 ++ FollowUp e' c' d' :: rs2 /\
    admitted e' c' d' (serve empty_db rs1) /\
    items d' = items Examples.three /\
    now (Examples.at_ 200000) <= now e' + 300 * 1000.
Proof.
  apply (duplicate_has_origin [FollowUp (Examples.at_ 1000) "r1" Examples.three]
           (Examples.at_ 200000) "r2"%string Examples.three).
  vm_compute. reflexivity.
Defined.

(** The rate key of a socket never holds more than the number of runs of
    that socket whose INCR was executed. *)
Lemma incr_calls_app sock rs1 rs2 :
  incr_calls sock (rs1 ++ rs2) = (incr_calls sock rs1 + incr_calls sock rs2)%nat.
Proof. unfold incr_calls. rewrite List.filter_app, length_app. reflexivity. Qed.

Lemma incr_val k t (db : gmap string Value) :
  exists v, (incr k t db).2 !! k = Some v /\ val v = default 0 (get k t db) + 1.
Proof.
  unfold incr, get. destruct (lookup_live t k db) as [v|]; simpl;
    rewrite lookup_insert_eq; eexists; split; reflexivity.
Qed.

Lemma followup_rate_val e sock data s :
  incremented e data = true ->
  exists v, keys (db_of (followup_create e sock data s)) !! rateLimitKey sock = Some v /\
            val v = windowCount (now e) sock s + 1.
Proof.
  unfold incremented. intros H. apply andb_prop in H as [H1 H2].
  apply bool_decide_eq_true in H1. apply negb_true_iff, bool_decide_eq_false in H2.
  destruct (decide (fault e = Some AtExpire)) as [HE|HE].
  - rewrite followup_eq, H1, rate_limit_eq. cbn zeta.
    destruct (decide (fault e = Some AtIncr)); [done|].
    destruct (decide (fault e = Some AtExpire)); [|done].
    simpl. apply incr_val.
  - exists {| val := windowCount (now e) sock s + 1; expireAt := Some (now e + 60 * 1000) |}.
    split; [|reflexivity]. apply followup_rate_key. unfold counted.
    rewrite (bool_decide_eq_true_2 _ H1). by rewrite !bool_decide_eq_false_2.
Qed.

Lemma followup_not_incremented e sock data s :
  incremented e data = false ->
  keys (db_of (followup_create e sock data s)) !! rateLimitKey sock = keys s !! rateLimitKey sock.
Proof.
  unfold incremented. intros H. rewrite followup_eq.
  destruct (shape data) eqn:E; [done|].
  rewrite rate_limit_eq. cbn zeta.
  destruct (decide (fault e = Some AtIncr)); [done|].
  rewrite (bool_decide_eq_true_2 _ eq_refl) in H.
  rewrite bool_decide_eq_false_2 in H by done. discriminate.
Qed.

Lemma windowCount_le t sock s n :
  (forall v, keys s !! rateLimitKey sock = Some v -> 1 <= val v <= n) -> 0 <= n ->
  0 <= windowCount t sock s <= n.
Proof.
  intros H Hn. unfold windowCount, get, lookup_live.
  destruct (keys s !! rateLimitKey sock) as [v|]; simpl; [|lia].
  specialize (H v eq_refl). destruct (live t v); simpl; lia.
Qed.

Lemma rate_val_bound sock rs : forall v,
  keys (serve empty_db rs) !! rateLimitKey sock = Some v ->
  1 <= val v <= Z.of_nat (incr_calls sock rs).
Proof.
  induction rs as [|r rs IH] using rev_ind; intros v Hv.
  { simpl in Hv. by rewrite lookup_empty in Hv. }
  rewrite serve_app in Hv. simpl in Hv. rewrite incr_calls_app.
  destruct r as [e c d|throws c last].
  2:{ rewrite handle_replay_keys in Hv. specialize (IH v Hv). lia. }
  simpl in Hv. unfold incr_calls at 2. simpl.
  destruct (decide (c = sock)) as [->|Hne].
  - rewrite bool_decide_eq_true_2 by done. simpl.
    destruct (incremented e d) eqn:Hi; simpl.
    + destruct (followup_rate_val e sock d (serve empty_db rs) Hi) as (v' & Hv' & Hval).
      rewrite Hv' in Hv. simplify_eq.
      pose proof (windowCount_le (now e) sock (serve empty_db rs) _ IH ltac:(lia)). lia.
    + rewrite (followup_not_incremented _ _ _ _ Hi) in Hv. specialize (IH v Hv). lia.
  - rewrite bool_decide_eq_false_2 by done. simpl.
    rewrite followup_frame in Hv; [specialize (IH v Hv); lia| |apply rate_not_dedup].
    intros H. apply rateLimitKey_inj in H. congruence.
Qed.

Lemma rate_limited_count e c d s :
  outcome_of (followup_create e c d s) = Rejected RateLimited ->
  10 < windowCount (now e) c s + 1.
Proof.
  rewrite followup_eq.
  destruct (shape d) as [x|] eqn:Hs.
  { unfold outcome_of. simpl. intros H. simplify_eq.
    destruct (Validation.shape_cases d) as (_ & _ & _ & H & _). by apply H in Hs. }
  rewrite rate_limit_eq. cbn zeta. rewrite incr_count. fold (windowCount (now e) c s).
  destruct (decide (fault e = Some AtIncr)); [discriminate|].
  destruct (decide (fault e = Some AtExpire)); [discriminate|].
  destruct (Z.ltb_spec 10 (windowCount (now e) c s + 1)); [done|].
  rewrite dedupe_eq. cbn zeta.
  destruct (decide (fault e = Some AtGet)); [discriminate|].
  destruct (marked _ _ _); [discriminate|].
  destruct (decide (fault e = Some AtSet)); [discriminate|].
  rewrite generate_eq. cbn zeta.
  repeat case_match; simplify_eq/=; discriminate.
Qed.

(** X3: no early rate limiting.  Starting from an empty store, a
    submission is rejected with RateLimited only if at least ten earlier
    runs on the same socket executed their INCR. *)
Theorem rate_limit_needs_ten rs e c d :
  outcome_of (followup_create e c d (serve empty_db rs)) = Rejected RateLimited ->
  (10 <= incr_calls c rs)%nat.
Proof.
  intros Ho. apply rate_limited_count in Ho.
  pose proof (windowCount_le (now e) c (serve empty_db rs) _ (rate_val_bound c rs) ltac:(lia)).
  lia.
Qed.

Lemma rate_limit_needs_ten_witness : (10 <= incr_calls "r1" Examples.ten)%nat.
Proof.
  apply (rate_limit_needs_ten Examples.ten (Examples.at_ 55000) "r1"%string (Examples.ask "k")).
  vm_compute. reflexivity.
Defined.

Lemma chain_count last n s sock t :
  chain_inv last n (keys s !! rateLimitKey sock) ->
  match last with Some u => t <= u + 60 * 1000 | None => True end ->
  windowCount t sock s = Z.of_nat n.
Proof.
  unfold chain_inv, windowCount, get, lookup_live.
  destruct last as [u|].
  - intros -> Ht. unfold live. simpl.
    destruct (Z.leb_spec t (u + 60 * 1000)); [reflexivity|lia].
  - intros [-> ->] _. reflexivity.
Qed.

Lemma chain_serve sock rs : forall s last n,
  chain_inv last n (keys s !! rateLimitKey sock) ->
  chained sock last rs ->
  chain_inv (last_call sock last rs) (n + counted_calls sock rs)
    (keys (serve s rs) !! rateLimitKey sock).
Proof.
  induction rs as [|r rs IH]; intros s last n Hinv Hch.
  { simpl. unfold counted_calls. simpl. by replace (n + 0)%nat with n by lia. }
  change (r :: rs) with ([r] ++ rs). rewrite counted_calls_app, Nat.add_assoc.
  destruct r as [e c d|throws c l0]; simpl in *.
  2:{ unfold counted_calls at 1. simpl. replace (n + 0)%nat with n by lia.
      apply IH; [|exact Hch]. by rewrite request_replay_db. }
  unfold counted_calls at 1. simpl.
  destruct (decide (c = sock)) as [->|Hne].
  - destruct Hch as (Hc & Ht & Hch).
    rewrite bool_decide_eq_true_2 by done. rewrite Hc. simpl.
    apply IH; [|exact Hch]. unfold chain_inv.
    rewrite (followup_rate_key _ _ _ _ Hc).
    rewrite (chain_count _ _ _ _ _ Hinv Ht). do 2 f_equal. lia.
  - rewrite bool_decide_eq_false_2 by done. simpl. replace (n + 0)%nat with n by lia.
    apply IH; [|exact Hch].
    rewrite followup_frame; [exact Hinv| |apply rate_not_dedup].
    intros H. apply rateLimitKey_inj in H. congruence.
Qed.

(** X4: the window slides.  EXPIRE restarts the sixty seconds on every
    counted run, rejected ones included: as long as each submission of a
    socket comes at most sixty seconds after the one before, the counter is
    the number of all its submissions so far, however long ago the first
    one was, and a submission is rejected with RateLimited exactly when ten
    came before it. *)
Theorem lockout_slides sock rs e d :
  chained sock None rs -> counted e d = true ->
  match last_call sock None rs with Some t => now e <= t + 60 * 1000 | None => True end ->
  windowCount (now e) sock (serve empty_db rs) = Z.of_nat (counted_calls sock rs) /\
  (outcome_of (followup_create e sock d (serve empty_db rs)) = Rejected RateLimited
   <-> (10 <= counted_calls sock rs)%nat).
Proof.
  intros Hch Hc Ht.
  assert (H0 : chain_inv None 0 (keys empty_db !! rateLimitKey sock)).
  { split; [reflexivity|]. simpl. apply lookup_empty. }
  pose proof (chain_serve sock rs empty_db None 0 H0 Hch) as Hinv.
  pose proof (chain_count _ _ _ _ (now e) Hinv Ht) as Hw. simpl in Hw.
  split; [exact Hw|].
  rewrite (followup_rate_limited _ _ _ _ Hc), Hw. lia.
Qed.

Lemma lockout_slides_witness :
  outcome_of (followup_create (Examples.at_ 650000) "r1" (Examples.ask "z")
                (serve empty_db Scenarios.slow)) = Rejected RateLimited.
Proof.
  apply (lockout_slides "r1" Scenarios.slow (Examples.at_ 650000) (Examples.ask "z")).
  - unfold Scenarios.slow. simpl. repeat split; lia.
  - reflexivity.
  - simpl. lia.
  - vm_compute. lia.
Defined.

End Admission.

(** ** The two logs and the completion call *)

Module Trail.
Import Redis Shared Server Blocks Keys Rate Dedupe Failure Log More.

(** The raw log, the questions log and the completion call of a run, case
    by case. *)
Ltac no_openai :=
  let p := fresh "p" in let Hp := fresh "Hp" in
  intros p Hp;
  repeat (apply elem_of_cons in Hp as [Hp|Hp]; [discriminate|]);
  by apply elem_of_nil in Hp.

Ltac one_openai :=
  let p := fresh "p" in let Hp := fresh "Hp" in
  intros p; split;
  [ intros Hp;
    repeat (apply elem_of_cons in Hp as [Hp|Hp]; [first [discriminate | by inversion Hp]|]);
    by apply elem_of_nil in Hp
  | intros ->; repeat first [ apply list_elem_of_here | apply list_elem_of_further ] ].

Lemma followup_streams e sock data s :
  let r := followup_create e sock data s in
  let ask := OpenAI ("Items: " ++ JS.join ", " (items data))%string in
  (followups (db_of r) = followups s /\ questions (db_of r) = questions s /\
   (forall p, OpenAI p ∉ effects_of r) /\
   ~ (admitted e sock data s /\ fault e <> Some AtXAddFollowups)) \/
  (admitted e sock data s /\ fault e <> Some AtXAddFollowups /\
   followups (db_of r) = followups s ++ [raw_entry e sock data s] /\
   (questions (db_of r) = questions s \/ questions (db_of r) = questions s ++ [entry e s]) /\
   (forall p, OpenAI p ∈ effects_of r <-> p = ("Items: " ++ JS.join ", " (items data))%string)).
Proof.
  cbn zeta. rewrite admitted_iff. unfold checks_run, raw_entry, entry.
  rewrite followup_eq.
  destruct (shape data) as [x|].
  { left. unfold effects_of, db_of. simpl. repeat split; try done.
    - no_openai.
    - intros ((? & _) & _). discriminate. }
  rewrite rate_limit_eq. cbn zeta. rewrite incr_count. fold (windowCount (now e) sock s).
  destruct (decide (fault e = Some AtIncr)).
  { left. unfold effects_of, db_of. simpl. repeat split; try done.
    - no_openai.
    - tauto. }
  destruct (decide (fault e = Some AtExpire)).
  { left. unfold effects_of, db_of. simpl. repeat split; try done.
    - no_openai.
    - tauto. }
  destruct (Z.ltb_spec 10 (windowCount (now e) sock s + 1)).
  { left. unfold effects_of, db_of. simpl. repeat split; try done.
    - no_openai.
    - intros ((_ & _ & _ & ? & _) & _). lia. }
  rewrite dedupe_eq. cbn zeta. rewrite marked_after_rate.
  destruct (decide (fault e = Some AtGet)).
  { left. unfold effects_of, db_of. simpl. repeat split; try done.
    - no_openai.
    - tauto. }
  destruct (marked (now e) data s).
  { left. unfold effects_of, db_of. simpl. repeat split; try done.
    - no_openai.
    - intros ((_ & _ & _ & _ & ?) & _). discriminate. }
  destruct (decide (fault e = Some AtSet)).
  { left. unfold effects_of, db_of. simpl. repeat split; try done.
    - no_openai.
    - tauto. }
  rewrite generate_eq. cbn zeta.
  destruct (decide (fault e = Some AtXAddFollowups)).
  { left. unfold effects_of, db_of. simpl. repeat split; try done.
    - no_openai.
    - tauto. }
  right.
  split; [repeat split; (done || lia)|]. split; [done|].
  repeat case_match; simplify_eq/=; unfold effects_of, db_of; simpl;
    (split; [reflexivity|]); (split; [by auto|]); one_openai.
Qed.

(** X5: the completion is asked for exactly by the runs that pass
    admission (validation, rate limit, dedupe) and whose XADD on
    [followups:stream] does not throw, and the user message is then
    ["Items: "] followed by the items joined with [", "]; a rejected
    submission never reaches OpenAI. *)
Theorem completion_after_admission e sock data s p :
  OpenAI p ∈ effects_of (followup_create e sock data s) <->
  admitted e sock data s /\ fault e <> Some AtXAddFollowups /\
  p = ("Items: " ++ JS.join ", " (items data))%string.
Proof.
  destruct (followup_streams e sock data s) as [(_ & _ & Hno & Hna)|(Ha & Hf & _ & _ & Hp)];
    cbn zeta in *.
  - split; [intros H; by apply Hno in H|]. intros (Ha & Hf & _). exfalso. apply Hna. by split.
  - rewrite Hp. tauto.
Qed.

Lemma handle_followups s r :
  followups (handle s r).1 = followups s \/
  exists e c d, r = FollowUp e c d /\ admitted e c d s /\
    followups (handle s r).1 = followups s ++ [raw_entry e c d s].
Proof.
  destruct r as [e c d|throws c last]; simpl.
  - destruct (followup_streams e c d s) as [(H & _)|(Ha & _ & H & _)]; [by left|].
    right. by exists e, c, d.
  - left. by rewrite request_replay_db.
Qed.

Lemma handle_lengths s r :
  (length (questions s) <= length (followups s))%nat ->
  (length (questions (handle s r).1) <= length (followups (handle s r).1))%nat.
Proof.
  destruct r as [e c d|throws c last]; simpl.
  - destruct (followup_streams e c d s) as [(H1 & H2 & _)|(_ & _ & H1 & [H2|H2] & _)];
      cbn zeta in *; rewrite H1, H2, ?length_app; simpl; lia.
  - by rewrite request_replay_db.
Qed.

(** X6: the raw log.  After any requests from an empty store,
    [questions:stream] is never longer than [followups:stream], the ids of
    [followups:stream] go up, and every entry of it was written by an
    admitted run of a received request: it holds the JSON of that request's
    items, its [createdAt] and the id of its socket. *)
Theorem raw_log_sound rs :
  let s := serve empty_db rs in
  (length (questions s) <= length (followups s))%nat /\
  above id0 (followups s) /\
  (forall m, m ∈ followups s ->
     exists rs1 e c d rs2,
       rs = rs1 ++ FollowUp e c d :: rs2 /\
       admitted e c d (serve empty_db rs1) /\
       m.2 = {| f_items := JS.stringify (items d); f_createdAt := createdAt d;
                f_socketId := c |}).
Proof.
  cbn zeta. induction rs as [|r rs IH] using rev_ind.
  { simpl. split; [lia|]. split; [exact I|]. intros m Hm. by apply elem_of_nil in Hm. }
  destruct IH as (Hlen & Hab & Hin).
  rewrite serve_app. simpl.
  split; [by apply handle_lengths|].
  assert (Hold : forall m, m ∈ followups (serve empty_db rs) ->
     exists rs1 e c d rs2,
       rs ++ [r] = rs1 ++ FollowUp e c d :: rs2 /\
       admitted e c d (serve empty_db rs1) /\
       m.2 = {| f_items := JS.stringify (items d); f_createdAt := createdAt d;
                f_socketId := c |}).
  { intros m Hm. destruct (Hin m Hm) as (rs1 & e & c & d & rs2 & -> & Ha & Heq).
    exists rs1, e, c, d, (rs2 ++ [r]). split; [by rewrite <- app_assoc|done]. }
  destruct (handle_followups (serve empty_db rs) r) as [->|(e & c & d & -> & Ha & ->)].
  - split; [exact Hab|exact Hold].
  - split; [by apply above_xAdd|].
    intros m Hm. apply elem_of_app in Hm as [Hm|Hm]; [by apply Hold|].
    apply list_elem_of_singleton in Hm as ->.
    exists rs, e, c, d, []. split; [done|]. split; [done|reflexivity].
Qed.

Lemma aiText_length e : (0 < String.length (aiText e))%nat.
Proof.
  unfold aiText. destruct (content e) as [c|]; [|simpl; lia].
  destruct (decide (c = ""%string)); [simpl; lia|].
  destruct c; [done|simpl; lia].
Qed.

Lemma questions_text rs : forall m,
  m ∈ questions (serve empty_db rs) -> (0 < String.length (q_text m.2))%nat.
Proof.
  induction rs as [|r rs IH] using rev_ind; intros m Hm.
  { by apply elem_of_nil in Hm. }
  rewrite serve_app in Hm. simpl in Hm.
  destruct r as [e c d|throws c last]; simpl in Hm.
  - destruct (followup_log e c d (serve empty_db rs)) as [(H & _)|(H & _)];
      cbn zeta in H; rewrite H in Hm; [by apply IH|].
    apply elem_of_app in Hm as [Hm|Hm]; [by apply IH|].
    apply list_elem_of_singleton in Hm as ->. apply aiText_length.
  - rewrite request_replay_db in Hm. by apply IH.
Qed.

(** X7: no event comes without text.  Whatever request the server
    handles after any others, every [agent:questions] event it sends or
    publishes has a text of at least one code unit: an empty or missing
    completion is replaced by ['No response'] before it is stored. *)
Theorem text_never_empty rs r ev :
  ev ∈ delivered (handle (serve empty_db rs) r).2 ->
  (0 < String.length (text ev))%nat.
Proof.
  intros Hev. destruct r as [e c d|throws c last]; simpl in Hev.
  - assert (text ev = aiText e \/ ev = apology_event e) as [->| ->].
    { destruct (followup_log e c d (serve empty_db rs))
        as [(_ & Hd & _)|(_ & _ & [(_ & Hd)|(_ & _ & Hd)])]; cbn zeta in Hd.
      - destruct Hd as [Hd|Hd]; rewrite Hd in Hev.
        + by apply elem_of_nil in Hev.
        + apply list_elem_of_singleton in Hev. by right.
      - rewrite Hd in Hev.
        repeat (apply elem_of_cons in Hev as [->|Hev]; [by left|]).
        by apply elem_of_nil in Hev.
      - rewrite Hd in Hev.
        apply elem_of_cons in Hev as [->|Hev]; [by left|].
        apply list_elem_of_singleton in Hev. by right. }
    + apply aiText_length.
    + simpl. lia.
  - rewrite request_replay_delivered in Hev.
    destruct throws; [by apply elem_of_nil in Hev|].
    apply list_elem_of_fmap in Hev as (m & -> & Hm).
    apply subseteq_take in Hm.
    apply list_elem_of_In, List.filter_In in Hm as [Hm _]. apply list_elem_of_In in Hm.
    by apply questions_text in Hm.
Qed.

Lemma text_never_empty_witness :
  (0 < String.length (text (apology_event (Examples.failing AtOpenAI))))%nat.
Proof.
  apply (text_never_empty [] (FollowUp (Examples.failing AtOpenAI) "r1" Examples.three)).
  vm_compute. apply list_elem_of_here.
Defined.

Lemma last_id_snoc {A} (s : stream A) (m : StreamID * A) : last_id (s ++ [m]) = m.1.
Proof. unfold last_id. by rewrite last_snoc. Qed.

(** A replay from the cursor of an up-to-date participant reads exactly
    what was appended since. *)
Lemma read_after_last {A} (s more : stream A) :
  above id0 (s ++ more) ->
  List.filter (fun m => id_ltb (default id0 (match s with [] => None | _ => Some (last_id s) end)) m.1)
    (s ++ more) = more.
Proof.
  intros Ha. destruct s as [|x s0] using rev_ind.
  - simpl. by apply read_from_start.
  - clear IHs0. assert ((match s0 ++ [x] with [] => None | _ => Some (last_id (s0 ++ [x])) end)
                        = Some x.1) as ->.
    { rewrite last_id_snoc. by destruct s0. }
    simpl. rewrite (read_from_entry id0 _ (length s0) x Ha).
    + apply drop_app_length'. rewrite length_app. simpl. lia.
    + rewrite <- app_assoc. by apply list_lookup_middle.
Qed.



End Trail.

(** ** Replay from any cursor *)

Module Cursor.
Import Redis Shared Server Blocks Keys Failure Log More Trail.



Lemma sublist_filter {A} (f : A -> bool) (l : list A) : List.filter f l `sublist_of` l.
Proof.
  induction l as [|x l IH]; simpl; [constructor|].
  destruct (f x); [by constructor|by apply sublist_cons].
Qed.


End Cursor.

(** ** The participant: what it keeps and how it catches up *)

Module Listener.
Import Redis Shared Server Participant Failure Log Playback More.

Lemma processQueue_kept a :
  messages (processQueue a) = messages a /\ lastStreamId (processQueue a) = lastStreamId a.
Proof. unfold processQueue. repeat case_match; done. Qed.

Lemma received_kept d a :
  messages (on_agent_questions d a) = messages a ++ [d] /\
  lastStreamId (on_agent_questions d a) =
    match streamId d with Some i => Some i | None => lastStreamId a end.
Proof.
  unfold on_agent_questions, speak.
  destruct (streamId d); simpl;
    match goal with |- context [processQueue ?b] =>
      destruct (processQueue_kept b) as [Hm Hl] end; rewrite ?Hm, ?Hl; done.
Qed.

Lemma step_kept a ev a' :
  step a ev = Some a' ->
  messages a' = messages a ++ arrivals [ev] /\
  lastStreamId a' = last_seen (lastStreamId a) (arrivals [ev]).
Proof.
  destruct ev as [d| | | |]; simpl; intros H.
  - inversion H; subst. apply received_kept.
  - unfold finished in H. destruct (rendering a); [discriminate|]. inversion H; subst.
    unfold onend.
    match goal with |- context [processQueue ?b] =>
      destruct (processQueue_kept b) as [-> ->] end. simpl. by rewrite app_nil_r.
  - unfold finished in H. destruct (rendering a); [discriminate|]. inversion H; subst.
    unfold onerror.
    match goal with |- context [processQueue ?b] =>
      destruct (processQueue_kept b) as [-> ->] end. simpl. by rewrite app_nil_r.
  - inversion H; subst. simpl. by rewrite app_nil_r.
  - inversion H; subst. simpl. by rewrite app_nil_r.
Qed.

Lemma arrivals_cons ev evs : arrivals (ev :: evs) = arrivals [ev] ++ arrivals evs.
Proof. unfold arrivals. simpl. by rewrite app_nil_r. Qed.

Lemma last_seen_app c l1 l2 : last_seen c (l1 ++ l2) = last_seen (last_seen c l1) l2.
Proof. unfold last_seen. apply fold_left_app. Qed.

Lemma run_kept evs : forall a a',
  run a evs = Some a' ->
  messages a' = messages a ++ arrivals evs /\
  lastStreamId a' = last_seen (lastStreamId a) (arrivals evs).
Proof.
  induction evs as [|ev evs IH]; intros a a' H; simpl in H.
  - inversion H; subst. simpl. by rewrite app_nil_r.
  - destruct (step a ev) as [b|] eqn:Hs; [|discriminate].
    destruct (step_kept _ _ _ Hs) as [Hm Hl].
    destruct (IH _ _ H) as [Hm' Hl'].
    rewrite arrivals_cons, last_seen_app, Hm', Hl', Hm, Hl. by rewrite app_assoc.
Qed.

Lemma last_seen_snoc c l d :
  last_seen c (l ++ [d]) = match streamId d with Some i => Some i | None => last_seen c l end.
Proof. rewrite last_seen_app. reflexivity. Qed.

(** X10: what the participant keeps.  After any sequence of events,
    [messages] is the list of all events received, in arrival order,
    repeats included, and [lastStreamId] is the id of the last received
    event that carried one: an event without id (the apology) leaves it
    alone, and an event with an older id moves it back. *)
Theorem messages_and_cursor evs a :
  run init evs = Some a ->
  messages a = arrivals evs /\
  lastStreamId a = last_seen None (arrivals evs) /\
  (forall d a', step a (Received d) = Some a' ->
     messages a' = arrivals evs ++ [d] /\
     lastStreamId a' = match streamId d with Some i => Some i | None => lastStreamId a end).
Proof.
  intros H. destruct (run_kept _ _ _ H) as [Hm Hl]. simpl in Hm, Hl.
  split; [exact Hm|]. split; [exact Hl|].
  intros d a' Hs. simpl in Hs. inversion Hs; subst.
  destruct (received_kept d a) as [-> ->]. by rewrite Hm.
Qed.

Lemma messages_and_cursor_witness :
  messages (on_agent_questions Examples.qB (on_agent_questions Examples.qA init))
    = [Examples.qA; Examples.qB] /\
  lastStreamId (on_agent_questions Examples.qB (on_agent_questions Examples.qA init)) = None.
Proof.
  destruct (messages_and_cursor [Received Examples.qA; Received Examples.qB]
              (on_agent_questions Examples.qB (on_agent_questions Examples.qA init)))
    as (H1 & H2 & _).
  - reflexivity.
  - split; [exact H1|exact H2].
Defined.

(** The handling of a batch of events, one after the other. *)
Lemma batch_kept evs : forall a,
  let b := fold_left (fun b ev => on_agent_questions ev b) evs a in
  messages b = messages a ++ evs /\ lastStreamId b = last_seen (lastStreamId a) evs.
Proof.
  induction evs as [|d evs IH]; intros a; simpl.
  - by rewrite app_nil_r.
  - destruct (IH (on_agent_questions d a)) as [Hm Hl]. simpl in Hm, Hl.
    destruct (received_kept d a) as [Hm' Hl'].
    rewrite Hm, Hl, Hm', Hl'. by rewrite <- app_assoc.
Qed.

Lemma last_seen_replayed c (l : stream QuestionFields) :
  last_seen c (map replayed l) = match last l with Some m => Some m.1 | None => c end.
Proof.
  destruct l as [|x l] using rev_ind; [reflexivity|].
  rewrite map_app. change (map replayed [x]) with [replayed x].
  rewrite last_seen_snoc, last_snoc. reflexivity.
Qed.

Lemma replay_at rs sock p :
  let qs := questions (serve empty_db rs) in
  (p <= length qs)%nat ->
  replay_events sock (cursor_at qs p) (serve empty_db rs) = map replayed (take 100 (drop p qs)).
Proof.
  intros qs Hp.
  assert (Ha : above id0 qs) by (apply serve_above; exact I).
  rewrite replay_events_eq. fold qs.
  destruct p as [|k]; simpl.
  - by rewrite read_from_start.
  - destruct (lookup_lt_is_Some_2 qs k ltac:(lia)) as [m Hm].
    rewrite Hm. simpl. by rewrite (read_from_entry id0 _ k m Ha Hm).
Qed.

Lemma cursor_after (qs : stream QuestionFields) p :
  (p <= length qs)%nat ->
  match last (take 100 (drop p qs)) with
  | Some m => Some m.1
  | None => cursor_at qs p
  end = cursor_at qs ((p + 100) `min` length qs).
Proof.
  intros Hp.
  destruct (decide (p = length qs)) as [->|Hne].
  - rewrite drop_all. simpl. by replace ((length qs + 100) `min` length qs)%nat with (length qs) by lia.
  - set (j := (100 `min` (length qs - p))%nat).
    assert (Hlen : length (take 100 (drop p qs)) = j).
    { rewrite length_take, length_drop. reflexivity. }
    rewrite last_lookup, Hlen.
    replace ((p + 100) `min` length qs)%nat with (S (p + pred j)) by lia.
    simpl. rewrite lookup_take_lt by lia. rewrite lookup_drop.
    destruct (lookup_lt_is_Some_2 qs (p + pred j) ltac:(lia)) as [m Hm].
    rewrite Hm. reflexivity.
Qed.

Lemma reconnect_once rs sock a p :
  let s := serve empty_db rs in
  (p <= length (questions s))%nat ->
  lastStreamId a = cursor_at (questions s) p ->
  messages (reconnect sock s a) = messages a ++ map replayed (take 100 (drop p (questions s))) /\
  lastStreamId (reconnect sock s a) = cursor_at (questions s) ((p + 100) `min` length (questions s)).
Proof.
  intros s Hp Hc. unfold reconnect, on_connect.
  rewrite Hc. unfold s. rewrite (replay_at rs sock p Hp). fold s.
  match goal with |- context [fold_left _ ?evs ?a1] =>
    destruct (batch_kept evs a1) as [Hm Hl] end.
  cbn zeta in Hm, Hl. rewrite Hm, Hl. simpl. split; [reflexivity|].
  rewrite last_seen_replayed. by apply cursor_after.
Qed.

(** X11: catching up.  While the log is not appended to, each
    connection of a participant whose cursor is at position [p] of the log
    adds the next 100 entries to its messages and moves its cursor past
    them: after [n] connections it holds the first [100 * n] entries after
    [p], in order, each once; once that covers the log it holds all of them
    and a further connection adds nothing. *)
Theorem reconnect_catches_up rs sock a p n :
  let s := serve empty_db rs in
  let b := Nat.iter n (reconnect sock s) a in
  (p <= length (questions s))%nat ->
  lastStreamId a = cursor_at (questions s) p ->
  messages b = messages a ++ map replayed (take (100 * n) (drop p (questions s))) /\
  lastStreamId b = cursor_at (questions s) ((p + 100 * n) `min` length (questions s)) /\
  ((length (questions s) <= p + 100 * n)%nat ->
     messages b = messages a ++ map replayed (drop p (questions s)) /\
     messages (reconnect sock s b) = messages b).
Proof.
  intros s b Hp Hc.
  assert (Hn : messages b = messages a ++ map replayed (take (100 * n) (drop p (questions s))) /\
    lastStreamId b = cursor_at (questions s) ((p + 100 * n) `min` length (questions s))).
  { subst b. induction n as [|n IH].
    - simpl. rewrite app_nil_r. replace ((p + 0) `min` length (questions s))%nat with p by lia.
      by split.
    - destruct IH as [Hm Hl]. simpl Nat.iter.
      destruct (reconnect_once rs sock (Nat.iter n (reconnect sock s) a)
                  ((p + 100 * n) `min` length (questions s))%nat ltac:(fold s; lia) Hl) as [Hm' Hl'].
      fold s in Hm', Hl'. rewrite Hm', Hl', Hm. split.
      + rewrite <- app_assoc, <- map_app. do 2 f_equal.
        replace (100 * S n)%nat with (100 * n + 100)%nat by lia.
        rewrite <- take_take_drop. f_equal. f_equal. rewrite drop_drop.
        destruct (decide (p + 100 * n <= length (questions s))%nat).
        * f_equal. lia.
        * rewrite !drop_ge; [done|lia|lia].
      + f_equal. lia. }
  destruct Hn as [Hm Hl]. split; [exact Hm|]. split; [exact Hl|].
  intros Hle. split.
  - rewrite Hm. rewrite take_ge; [done|]. rewrite length_drop. lia.
  - destruct (reconnect_once rs sock b (length (questions s)) ltac:(fold s; lia)) as [Hm' _].
    { rewrite Hl. f_equal. lia. }
    fold s in Hm'. rewrite Hm'. rewrite drop_all. simpl. by rewrite app_nil_r.
Qed.

Lemma reconnect_catches_up_witness :
  messages (Nat.iter 2 (reconnect "p1" (serve empty_db Examples.many)) init)
    = messages init ++ map replayed (drop 0 (questions (serve empty_db Examples.many))).
Proof.
  destruct (reconnect_catches_up Examples.many "p1" init 0 2) as (_ & _ & H).
  - lia.
  - reflexivity.
  - assert (Hlen : length (questions (serve empty_db Examples.many)) = 101%nat)
      by (vm_compute; reflexivity).
    destruct H as [H _]; [rewrite Hlen; lia|exact H].
Defined.

End Listener.

(** ** The participant: status and the end of playback *)

Module Speech.
Import Redis Shared Participant Playback More.

Lemma processQueue_speaking a :
  (status a = speaking -> isSpeaking a = true) ->
  status (processQueue a) = speaking -> isSpeaking (processQueue a) = true.
Proof. unfold processQueue. repeat case_match; simpl; auto. Qed.

Lemma step_speaking a ev a' :
  (status a = speaking -> isSpeaking a = true) ->
  step a ev = Some a' ->
  status a' = speaking -> isSpeaking a' = true.
Proof.
  intros Hinv Hs. destruct ev as [d| | | |]; simpl in Hs.
  - inversion Hs; subst. unfold on_agent_questions, speak.
    destruct (streamId d); simpl; apply processQueue_speaking; exact Hinv.
  - unfold finished in Hs. destruct (rendering a); [discriminate|]. inversion Hs; subst.
    unfold onend, processQueue. simpl. destruct (speakQueue a); simpl; [discriminate|auto].
  - unfold finished in Hs. destruct (rendering a); [discriminate|]. inversion Hs; subst.
    unfold onerror, processQueue. simpl. destruct (speakQueue a); simpl; [discriminate|auto].
  - inversion Hs; subst. simpl. discriminate.
  - inversion Hs; subst. simpl. discriminate.
Qed.

Lemma run_speaking evs : forall a a',
  (status a = speaking -> isSpeaking a = true) ->
  run a evs = Some a' -> status a' = speaking -> isSpeaking a' = true.
Proof.
  induction evs as [|ev evs IH]; intros a a' Hinv Hrun; simpl in Hrun.
  - by inversion Hrun; subst.
  - destruct (step a ev) as [b|] eqn:Hs; [|discriminate].
    eapply IH; [|exact Hrun]. eapply step_speaking; eassumption.
Qed.

Lemma step_idle a ev a' :
  local_event ev = true ->
  (isSpeaking a = true -> status a = speaking) ->
  step a ev = Some a' ->
  isSpeaking a' = true -> status a' = speaking.
Proof.
  intros Hl Hinv Hs. destruct ev as [d| | | |]; simpl in Hs; try discriminate.
  - inversion Hs; subst. unfold on_agent_questions, speak, processQueue.
    destruct (streamId d); simpl; destruct (isSpeaking a) eqn:E; simpl; auto;
      destruct (speakQueue a); simpl; auto.
  - unfold finished in Hs. destruct (rendering a); [discriminate|]. inversion Hs; subst.
    unfold onend, processQueue. simpl. destruct (speakQueue a); simpl; [discriminate|auto].
  - unfold finished in Hs. destruct (rendering a); [discriminate|]. inversion Hs; subst.
    unfold onerror, processQueue. simpl. destruct (speakQueue a); simpl; [discriminate|auto].
Qed.

Lemma run_idle evs : forall a a',
  forallb local_event evs = true ->
  (isSpeaking a = true -> status a = speaking) ->
  run a evs = Some a' -> isSpeaking a' = true -> status a' = speaking.
Proof.
  induction evs as [|ev evs IH]; intros a a' Hl Hinv Hrun; simpl in Hrun, Hl.
  - by inversion Hrun; subst.
  - apply andb_prop in Hl as [Hl1 Hl2].
    destruct (step a ev) as [b|] eqn:Hs; [|discriminate].
    eapply IH; [exact Hl2| |exact Hrun]. eapply step_idle; eassumption.
Qed.

(** X12: the status line.  After any sequence of events the status is
    [speaking] only while an utterance is being rendered ([isSpeaking] is
    set, one utterance in [rendering]); as long as the socket neither
    connects nor disconnects the converse holds too: the status is
    [speaking] whenever [isSpeaking] is set. *)
Theorem status_speaking evs a :
  run init evs = Some a ->
  (status a = speaking -> isSpeaking a = true /\ exists t, rendering a = [t]) /\
  (forallb local_event evs = true -> isSpeaking a = true -> status a = speaking).
Proof.
  intros Hrun.
  assert (Hinit : queue_inv [] init).
  { exists []. simpl. repeat split; auto. }
  pose proof (run_inv evs [] init a Hinit Hrun) as (done & _ & _ & Hcase).
  split.
  - intros Hs.
    assert (Hsp : isSpeaking a = true).
    { eapply run_speaking; [|exact Hrun|exact Hs]. discriminate. }
    split; [exact Hsp|].
    destruct Hcase as [[_ Ht]|(Hf & _)]; [exact Ht|congruence].
  - intros Hl. eapply run_idle; [exact Hl| |exact Hrun]. discriminate.
Qed.

Lemma status_speaking_witness :
  isSpeaking (on_agent_questions Examples.qA init) = true /\
  exists t, rendering (on_agent_questions Examples.qA init) = [t].
Proof.
  destruct (status_speaking [Received Examples.qA] (on_agent_questions Examples.qA init)) as [H _].
  - reflexivity.
  - apply H. reflexivity.
Defined.

Lemma drain ends : forall q a,
  queue_inv q a -> forallb closing ends = true -> length ends = pending a ->
  exists a', run a ends = Some a' /\ log a' = pairs q /\
             speakQueue a' = [] /\ rendering a' = [] /\ isSpeaking a' = false /\
             (ends <> [] -> status a' = ready).
Proof.
  induction ends as [|ev ends IH]; intros q a Hinv Hcl Hlen.
  - exists a. split; [reflexivity|].
    destruct Hinv as (done & Hlog & Hq & Hcase).
    unfold pending in Hlen. symmetry in Hlen. apply length_zero_iff_nil in Hlen.
    apply app_eq_nil in Hlen as [Hr Hs]. rewrite Hr, Hs in *. simpl in *.
    rewrite !app_nil_r in *. subst done.
    destruct Hcase as [[_ (t & Ht)]|(Hf & _)]; [discriminate|]. by repeat split.
  - simpl in Hcl. apply andb_prop in Hcl as [Hev Hcl].
    assert (Hr : exists t, rendering a = [t]).
    { destruct Hinv as (done & _ & _ & [[_ Ht]|(_ & Hr & Hs)]); [exact Ht|].
      unfold pending in Hlen. rewrite Hr, Hs in Hlen. discriminate. }
    destruct Hr as (t & Hr).
    assert (Hf : finished a = Some (t, {| status := status a; messages := messages a;
                  lastStreamId := lastStreamId a; speakQueue := speakQueue a;
                  isSpeaking := isSpeaking a; rendering := []; log := log a ++ [Stop t] |})).
    { unfold finished. by rewrite Hr. }
    destruct (end_inv q a t _ Hinv Hf) as [He Hx].
    assert (Hstep : exists b, step a ev = Some b /\ queue_inv q b /\ pending b = length ends /\
                      (ends = [] -> status b = ready)).
    { unfold pending in Hlen. rewrite Hr in Hlen. simpl in Hlen.
      destruct ev; try discriminate; simpl; rewrite Hf; eexists; (split; [reflexivity|]).
      - split; [exact He|]. unfold onend, processQueue, pending. simpl.
        destruct (speakQueue a) as [|v rest]; simpl in *; split; try lia.
        + done.
        + intros ->. discriminate.
      - split; [exact Hx|]. unfold onerror, processQueue, pending. simpl.
        destruct (speakQueue a) as [|v rest]; simpl in *; split; try lia.
        + done.
        + intros ->. discriminate. }
    destruct Hstep as (b & Hb & Hqb & Hpb & Hst).
    destruct (IH q b Hqb Hcl (eq_sym Hpb)) as (a' & Hrun & Hlog & Hs & Hrd & Hsp & Hrdy).
    exists a'. simpl. rewrite Hb. split; [exact Hrun|]. repeat (split; [assumption|]).
    intros _. destruct ends as [|ev' ends']; [|apply Hrdy; discriminate].
    simpl in Hrun. inversion Hrun; subst. by apply Hst.
Qed.

(** X13: playback completes.  After any sequence of events, once as
    many utterances have ended or failed as were rendering or queued, every
    text received has been rendered to its end, once and in the order of
    arrival, the queue is empty, nothing is rendering and, if anything was
    left to end, the status is [ready]. *)
Theorem playback_completes evs a ends :
  run init evs = Some a ->
  forallb closing ends = true -> length ends = pending a ->
  exists a', run init (evs ++ ends) = Some a' /\
             log a' = pairs (enqueued evs) /\
             speakQueue a' = [] /\ rendering a' = [] /\ isSpeaking a' = false /\
             (ends <> [] -> status a' = ready).
Proof.
  intros Hrun Hcl Hlen.
  assert (Hinit : queue_inv [] init).
  { exists []. simpl. repeat split; auto. }
  pose proof (run_inv evs [] init a Hinit Hrun) as Hinv. simpl in Hinv.
  destruct (drain ends _ a Hinv Hcl Hlen) as (a' & Hr & H).
  exists a'. split; [|exact H].
  clear -Hrun Hr. revert Hrun. generalize init.
  induction evs as [|ev evs IH]; intros a0 Hrun; simpl in *.
  - by inversion Hrun; subst.
  - destruct (step a0 ev); [by apply IH|discriminate].
Qed.

Lemma playback_completes_witness :
  exists a',
    run init ([Received Examples.qA; Received Examples.qB] ++ [Ended; Errored]) = Some a' /\
    log a' = pairs (enqueued [Received Examples.qA; Received Examples.qB]) /\
    speakQueue a' = [] /\ rendering a' = [] /\ isSpeaking a' = false /\
    ([Ended; Errored] <> [] -> status a' = ready).
Proof.
  apply (playback_completes [Received Examples.qA; Received Examples.qB]
           (on_agent_questions Examples.qB (on_agent_questions Examples.qA init))
           [Ended; Errored]); reflexivity.
Defined.

End Speech.

(** ** The reviewer: what [handleSend] sends *)

Module Entry.
Import Shared Server Reviewer.

Lemma trim_start_blank s : blank s = true -> trim_start s = EmptyString.
Proof.
  induction s as [|c rest IH]; simpl; [done|].
  intros H. apply andb_prop in H as [Hc Hr]. rewrite Hc. by apply IH.
Qed.

Lemma trim_end_blank s : trim_end s = EmptyString <-> blank s = true.
Proof.
  induction s as [|c rest IH]; simpl; [done|].
  destruct (trim_end rest) as [|d r] eqn:E.
  - destruct (is_space c); simpl; [|split; discriminate].
    split; intros _; [by apply IH|done].
  - split; [discriminate|]. intros H. apply andb_prop in H as [_ H].
    apply IH in H. discriminate.
Qed.

Lemma trim_start_blank_inv s : blank (trim_start s) = true -> blank s = true.
Proof.
  induction s as [|c rest IH]; simpl; [done|].
  destruct (is_space c) eqn:E; simpl; [exact IH|].
  rewrite E. simpl. done.
Qed.

Lemma trim_blank s : trim s = EmptyString <-> blank s = true.
Proof.
  unfold trim. rewrite trim_end_blank. split.
  - apply trim_start_blank_inv.
  - intros H. by rewrite (trim_start_blank _ H).
Qed.

Lemma space_not_comma c : is_space c = true -> (N_of_ascii c =? 44)%N = false.
Proof.
  unfold is_space. cbn zeta. intros H.
  destruct (N.eqb_spec (N_of_ascii c) 44) as [E|E]; [|done].
  rewrite E in H. discriminate.
Qed.

Lemma blank_comma_free s : blank s = true -> comma_free s = true.
Proof.
  induction s as [|c rest IH]; simpl; [done|].
  intros H. apply andb_prop in H as [Hc Hr].
  by rewrite (space_not_comma _ Hc), IH.
Qed.

Lemma split_not_nil s : split s <> [].
Proof.
  induction s as [|c rest IH]; simpl; [done|].
  destruct (N_of_ascii c =? 44)%N; [done|]. by destruct (split rest).
Qed.

Lemma split_comma_free s : split s = [s] <-> comma_free s = true.
Proof.
  induction s as [|c rest IH]; simpl; [done|].
  destruct (N_of_ascii c =? 44)%N; simpl.
  - split; [intros H; by inversion H|discriminate].
  - destruct (split rest) as [|p ps] eqn:E; [by apply split_not_nil in E|].
    rewrite <- IH. split; intros H; by simplify_eq.
Qed.

Lemma split_pieces s : Forall (fun p => comma_free p = true) (split s).
Proof.
  induction s as [|c rest IH]; simpl; [by constructor|].
  destruct (N_of_ascii c =? 44)%N eqn:E.
  - by constructor.
  - destruct (split rest) as [|p ps]; [constructor; [by simpl; rewrite E|constructor]|].
    inversion IH; subst. constructor; [|done]. simpl. by rewrite E.
Qed.

Lemma trim_start_comma_free s : comma_free s = true -> comma_free (trim_start s) = true.
Proof.
  induction s as [|c rest IH]; simpl; [done|].
  intros H. apply andb_prop in H as [Hc Hr].
  destruct (is_space c); [by apply IH|]. simpl. by rewrite Hc, Hr.
Qed.

Lemma trim_end_comma_free s : comma_free s = true -> comma_free (trim_end s) = true.
Proof.
  induction s as [|c rest IH]; simpl; [done|].
  intros H. apply andb_prop in H as [Hc Hr]. specialize (IH Hr).
  destruct (trim_end rest) as [|d r].
  - destruct (is_space c); [done|]. simpl. by rewrite Hc.
  - simpl in *. by rewrite Hc, IH.
Qed.

Lemma trim_comma_free s : comma_free s = true -> comma_free (trim s) = true.
Proof. intros H. by apply trim_end_comma_free, trim_start_comma_free. Qed.

Lemma trim_end_idem s : trim_end (trim_end s) = trim_end s.
Proof.
  induction s as [|c rest IH]; simpl; [done|].
  destruct (trim_end rest) as [|d r] eqn:E.
  - destruct (is_space c) eqn:Hc; simpl; [done|]. by rewrite Hc.
  - simpl in *. rewrite IH. reflexivity.
Qed.

(** What [trim_start] returns is empty or starts with a code unit that is
    kept. *)
Lemma trim_start_head s :
  trim_start s = EmptyString \/
  exists c rest, trim_start s = String c rest /\ is_space c = false.
Proof.
  induction s as [|c rest IH]; simpl; [by left|].
  destruct (is_space c) eqn:E; [exact IH|]. right. eauto.
Qed.

Lemma trim_start_kept c rest : is_space c = false -> trim_start (String c rest) = String c rest.
Proof. simpl. by intros ->. Qed.

Lemma trim_end_head c rest :
  is_space c = false -> exists r, trim_end (String c rest) = String c r.
Proof.
  intros H. simpl. destruct (trim_end rest); [rewrite H|]; eauto.
Qed.

Lemma trim_idem s : trim (trim s) = trim s.
Proof.
  unfold trim.
  destruct (trim_start_head s) as [->|(c & rest & -> & Hc)]; [reflexivity|].
  destruct (trim_end_head c rest Hc) as [r Hr].
  rewrite Hr, (trim_start_kept _ _ Hc), <- Hr. apply trim_end_idem.
Qed.

Lemma non_empty_spec s : non_empty s = true <-> s <> EmptyString.
Proof. destruct s; simpl; split; (done || discriminate). Qed.

(** X16: what [handleSend] makes of the text field.  Every item of
    the normalized input is non-empty, is unchanged by [trim] and contains
    no comma (splitting it again gives the item itself). *)
Theorem normalize_clean s x : x ∈ normalize s -> clean x.
Proof.
  unfold normalize. intros H.
  apply list_elem_of_In, List.filter_In in H as [H Hx].
  apply list_elem_of_In, list_elem_of_fmap in H as (y & -> & Hy).
  split; [by apply non_empty_spec|]. split; [apply trim_idem|].
  apply split_comma_free, trim_comma_free.
  pose proof (split_pieces s) as Hall.
  rewrite List.Forall_forall in Hall. by apply Hall, list_elem_of_In.
Qed.

Lemma normalize_clean_witness : clean "retry logic".
Proof.
  apply (normalize_clean "latency,  retry logic , error states").
  apply list_elem_of_In. vm_compute. right. left. reflexivity.
Defined.

Lemma normalize_blank s : non_empty (trim s) = false -> normalize s = [].
Proof.
  intros H. assert (Hb : blank s = true).
  { apply trim_blank. by destruct (trim s). }
  unfold normalize.
  rewrite (proj2 (split_comma_free s) (blank_comma_free s Hb)). simpl.
  by rewrite H.
Qed.

(** X17: the reviewer and the server agree.  [handleSend] emits
    [followup:create] exactly when the normalized input passes the three
    validation checks of the server, the payload being the normalized items
    with [Date.now()]; so what the reviewer emits is never rejected by the
    server's validation, in any state: the run gets past it without an
    effect, and ends in none of EmptyInput, TooManyItems,
    TooManyCharacters. *)
Theorem handleSend_agrees now a :
  let p := {| items := normalize (input a); createdAt := now |} in
  (shape p = None ->
     handleSend now a = ({| input := input a; status := sending |}, Emit p)) /\
  (forall a' q, handleSend now a = (a', Emit q) ->
     q = p /\ shape q = None /\ Forall clean (items q) /\
     forall e sock s,
       validate q s = (Val tt, s, []) /\
       ~ (exists r, (r = EmptyInput \/ r = TooManyItems \/ r = TooManyCharacters) /\
                    outcome_of (followup_create e sock q s) = Rejected r)) /\
  (shape p <> None -> forall q, (handleSend now a).2 <> Emit q).
Proof.
  intros p.
  assert (Hcase : handleSend now a =
            if negb (non_empty (trim (input a))) then (a, Nothing)
            else match shape p with
                 | None => ({| input := input a; status := sending |}, Emit p)
                 | Some EmptyInput => ({| input := input a; status := error |}, Nothing)
                 | Some TooManyItems => (a, Alert "Maximum 8 items allowed")
                 | Some _ => (a, Alert "Total character limit (300) exceeded")
                 end).
  { unfold handleSend, shape, totalChars. cbn zeta. subst p. simpl.
    repeat case_match; simplify_eq/=; reflexivity. }
  assert (Hne : shape p = None -> non_empty (trim (input a)) = true).
  { intros Hs. destruct (non_empty (trim (input a))) eqn:E; [done|].
    apply normalize_blank in E. unfold shape in Hs. subst p. simpl in Hs.
    rewrite E in Hs. discriminate. }
  assert (Hemit : forall a' q, handleSend now a = (a', Emit q) -> q = p /\ shape p = None).
  { intros a' q H. rewrite Hcase in H.
    destruct (negb _); [discriminate|].
    destruct (shape p) as [[]|]; simplify_eq; done. }
  split; [|split].
  - intros Hs. rewrite Hcase, (Hne Hs), Hs. reflexivity.
  - intros a' q H. destruct (Hemit a' q H) as [-> Hs].
    split; [done|]. split; [done|]. split.
    + apply List.Forall_forall. intros x Hx. apply list_elem_of_In in Hx.
      by apply (normalize_clean (input a)).
    + intros e sock s. split.
      * by rewrite Blocks.validate_shape, Hs.
      * intros (r & Hr & Ho).
        apply (Validation.outcome_after_validation _ _ _ _ _ Hs) in Ho.
        destruct Hr as [->|[->| ->]], Ho; discriminate.
  - intros Hs q H. destruct (handleSend now a) as [a' act] eqn:E. simpl in H. subst act.
    destruct (Hemit a' q eq_refl) as [_ Hp]. contradiction.
Qed.

Lemma split_comma x rest :
  comma_free x = true -> split (x ++ String "," rest) = x :: split rest.
Proof.
  induction x as [|c x IH]; simpl; [done|].
  intros H. apply andb_prop in H as [Hc Hx].
  apply negb_true_iff in Hc. rewrite Hc, (IH Hx). reflexivity.
Qed.

Lemma split_join ys :
  Forall (fun y => comma_free y = true) ys -> ys <> [] -> split (JS.join "," ys) = ys.
Proof.
  unfold JS.join. induction ys as [|y ys IH]; intros Hall Hne; [done|].
  inversion Hall as [|? ? Hy Hys]; subst.
  destruct ys as [|z ys].
  - simpl. by apply split_comma_free.
  - change (String.concat "," (y :: z :: ys))
      with (y ++ String "," (String.concat "," (z :: ys)))%string.
    rewrite (split_comma _ _ Hy). f_equal. by apply IH.
Qed.

Lemma normalize_join ys :
  Forall (fun y => comma_free y = true) ys ->
  normalize (JS.join "," ys) = List.filter non_empty (map trim ys).
Proof.
  intros Hall. destruct ys as [|y ys]; [reflexivity|].
  unfold normalize. by rewrite split_join.
Qed.

Lemma clean_filter items : Forall clean items -> List.filter non_empty (map trim items) = items.
Proof.
  induction items as [|x items IH]; intros Hall; [reflexivity|].
  inversion Hall as [|? ? (Hx & Ht & Hs) Hrest]; subst. simpl.
  rewrite Ht. apply non_empty_spec in Hx. rewrite Hx. f_equal. by apply IH.
Qed.

Lemma trim_start_space x : trim (String " " x) = trim x.
Proof. reflexivity. Qed.

Lemma join_spaced x items :
  JS.join ", " (x :: items) = JS.join "," (x :: map (String " ") items).
Proof.
  unfold JS.join. revert x. induction items as [|y items IH]; intros x; [reflexivity|].
  change (String.concat ", " (x :: y :: items))
    with (x ++ String "," (String " " (String.concat ", " (y :: items))))%string.
  rewrite IH.
  change (String.concat "," (x :: map (String " ") (y :: items)))
    with (x ++ String "," (String.concat "," (String " " y :: map (String " ") items)))%string.
  do 2 f_equal. by destruct items.
Qed.

(** X18: normalization reads back a joined list.  For items that are
    non-empty, trimmed and free of commas, normalizing their join with
    [","] or with [", "] (as in the placeholder of the field, and as the
    server joins them for the prompt) gives the items back. *)
Theorem normalize_round_trip items :
  Forall clean items ->
  normalize (JS.join "," items) = items /\
  normalize (JS.join ", " items) = items.
Proof.
  intros Hall.
  assert (Hcf : Forall (fun y => comma_free y = true) items).
  { eapply Forall_impl; [exact Hall|]. intros x (_ & _ & Hs). by apply split_comma_free. }
  split.
  - rewrite normalize_join by exact Hcf. by apply clean_filter.
  - destruct items as [|x items]; [reflexivity|].
    rewrite join_spaced.
    inversion Hcf as [|? ? Hx Hrest]; subst.
    rewrite normalize_join.
    + change (map trim (x :: map (String " ") items)) with (trim x :: map trim (map (String " ") items)).
      rewrite map_map.
      erewrite (map_ext (fun y => trim (String " " y)) trim) by (intros; apply trim_start_space).
      by apply (clean_filter (x :: items)).
    + constructor; [exact Hx|].
      clear -Hrest. induction Hrest; simpl; constructor; done.
Qed.

Lemma normalize_round_trip_witness :
  normalize (JS.join "," ["latency"; "retry logic"; "error states"]%string)
    = ["latency"; "retry logic"; "error states"]%string /\
  normalize (JS.join ", " ["latency"; "retry logic"; "error states"]%string)
    = ["latency"; "retry logic"; "error states"]%string.
Proof.
  apply (normalize_round_trip ["latency"; "retry logic"; "error states"]%string).
  repeat constructor; discriminate.
Defined.

End Entry.

(** * The handlers interleaved *)

(** ** The segments of the handlers, and a handler that runs alone *)

Module NodeFacts.
Import Redis Shared Server Blocks Node.

(** A handler that runs alone does what the handler of [Module Server]
    does. *)
Lemma alone_replay throws sock last s :
  alone (ReplayRequest throws sock last) s =
    (Served, (request_replay throws sock last s).1, (request_replay throws sock last s).2).
Proof.
  unfold alone. simpl. destruct (request_replay throws sock last s) as [s1 t1]. simpl.
  by rewrite app_nil_r.
Qed.

Lemma alone_followup e sock data s :
  alone (FollowUp e sock data) s =
    (Ended (outcome_of (followup_create e sock data s)),
     db_of (followup_create e sock data s),
     effects_of (followup_create e sock data s)).
Proof.
  rewrite followup_eq. unfold alone, arrive, settle. unfold bind at 1. rewrite validate_shape.
  destruct (shape data) as [x|]; [reflexivity|].
  cbn -[finish]. rewrite rate_limit_eq. cbn zeta.
  unfold finish, resume, settle, bind, ret, reject_if, redis_incr, redis_expire, await.
  destruct (incr (rateLimitKey sock) (now e) (keys s)) as [n k1] eqn:Ei. simpl.
  destruct (decide (fault e = Some AtIncr)); [reflexivity|].
  destruct (decide (fault e = Some AtExpire)); [reflexivity|].
  destruct (10 <? n); [reflexivity|].
  rewrite dedupe_eq. cbn zeta.
  unfold redis_get, redis_set_ex, await, marked. simpl.
  destruct (decide (fault e = Some AtGet)); [reflexivity|].
  destruct (bool_decide _); [reflexivity|].
  destruct (decide (fault e = Some AtSet)); [reflexivity|].
  rewrite generate_eq. cbn zeta.
  unfold xAdd_followups, openai_create, xAdd_questions, redis_publish, emit, await, xAdd,
    question, published. simpl.
  destruct (decide (fault e = Some AtXAddFollowups)); [reflexivity|].
  destruct (decide (fault e = Some AtOpenAI)); [reflexivity|].
  destruct (decide (fault e = Some AtXAddQuestions)); [reflexivity|].
  destruct (decide (fault e = Some AtPublish)); reflexivity.
Qed.

(** The segments of [followup:create], one equation each. *)
Lemma resume_incr e sock data s :
  resume (FollowUp e sock data) AwIncr s =
    let k := rateLimitKey sock in
    if decide (fault e = Some AtIncr)
    then (Ended Caught, s, [Call INCR k; SocketEmit sock (apology_event e)])
    else (Waiting (AwExpire (incr k (now e) (keys s)).1),
          with_keys s (incr k (now e) (keys s)).2, [Call INCR k]).
Proof.
  cbn [resume]. unfold settle, bind, ret, redis_incr, await. cbn zeta.
  destruct (incr _ _ _). by destruct (decide _).
Qed.

Lemma resume_expire e sock data count s :
  resume (FollowUp e sock data) (AwExpire count) s =
    let k := rateLimitKey sock in
    if decide (fault e = Some AtExpire)
    then (Ended Caught, s, [Call EXPIRE k; SocketEmit sock (apology_event e)])
    else
      let s1 := with_keys s (expire k 60 (now e) (keys s)) in
      if 10 <? count
      then (Ended (Rejected RateLimited), s1, [Call EXPIRE k; ConsoleError RateLimited])
      else (Waiting AwGet, s1, [Call EXPIRE k]).
Proof.
  cbn [resume]. unfold settle, bind, ret, reject_if, redis_expire, await. cbn zeta.
  destruct (decide _); [reflexivity|]. by destruct (10 <? count).
Qed.

Lemma resume_get e sock data s :
  resume (FollowUp e sock data) AwGet s =
    let k := dedupKey data in
    if decide (fault e = Some AtGet)
    then (Ended Caught, s, [Call GET k; SocketEmit sock (apology_event e)])
    else if marked (now e) data s
    then (Ended (Rejected Duplicate), s, [Call GET k; ConsoleError Duplicate])
    else (Waiting AwSet, s, [Call GET k]).
Proof.
  cbn [resume]. unfold settle, bind, ret, reject_if, redis_get, await, marked. cbn zeta.
  destruct (decide _); [reflexivity|]. by destruct (bool_decide _).
Qed.

Lemma resume_set e sock data s :
  resume (FollowUp e sock data) AwSet s =
    let k := dedupKey data in
    if decide (fault e = Some AtSet)
    then (Ended Caught, s, [Call SET k; SocketEmit sock (apology_event e)])
    else (Waiting AwXAddFollowups, with_keys s (set_ex k 1 300 (now e) (keys s)), [Call SET k]).
Proof.
  cbn [resume]. unfold settle, bind, ret, redis_set_ex, await. cbn zeta.
  by destruct (decide _).
Qed.

Lemma resume_xAdd_followups e sock data s :
  resume (FollowUp e sock data) AwXAddFollowups s =
    let f := {| f_items := JS.stringify (items data); f_createdAt := createdAt data;
                f_socketId := sock |} in
    if decide (fault e = Some AtXAddFollowups)
    then (Ended Caught, s, [Call XADD "followups:stream"; SocketEmit sock (apology_event e)])
    else (Waiting AwOpenAI,
          {| keys := keys s; followups := (xAdd (now e) f (followups s)).2;
             questions := questions s |},
          [Call XADD "followups:stream"]).
Proof.
  cbn [resume]. unfold settle, bind, ret, xAdd_followups, await, xAdd. cbn zeta.
  by destruct (decide _).
Qed.

Lemma resume_openai e sock data s :
  resume (FollowUp e sock data) AwOpenAI s =
    let ask := OpenAI ("Items: " ++ JS.join ", " (items data))%string in
    if decide (fault e = Some AtOpenAI)
    then (Ended Caught, s, [ask; SocketEmit sock (apology_event e)])
    else (Waiting (AwXAddQuestions (aiText e)), s, [ask]).
Proof.
  cbn [resume]. unfold settle, bind, ret, openai_create, await. cbn zeta.
  by destruct (decide _).
Qed.

Lemma resume_xAdd_questions e sock data t s :
  resume (FollowUp e sock data) (AwXAddQuestions t) s =
    let i := next_id (later e) (last_id (questions s)) in
    if decide (fault e = Some AtXAddQuestions)
    then (Ended Caught, s, [Call XADD "questions:stream"; SocketEmit sock (apology_event e)])
    else (Waiting (AwPublish t i),
          {| keys := keys s; followups := followups s;
             questions := questions s ++ [(i, {| q_text := t; q_createdAt := storedAt e |})] |},
          [Call XADD "questions:stream"]).
Proof.
  cbn [resume]. unfold settle, bind, ret, xAdd_questions, await, xAdd. cbn zeta.
  by destruct (decide _).
Qed.

Lemma resume_publish e sock data t i s :
  resume (FollowUp e sock data) (AwPublish t i) s =
    let pub := Publish "questions:live"
                 {| text := t; aq_createdAt := publishedAt e; streamId := Some i |} in
    if decide (fault e = Some AtPublish)
    then (Ended Caught, s, [pub; SocketEmit sock (apology_event e)])
    else (Ended Broadcast, s,
          [pub; IoEmit {| text := t; aq_createdAt := broadcastAt e; streamId := Some i |}]).
Proof.
  cbn [resume]. unfold settle, bind, ret, redis_publish, emit, await. cbn zeta.
  by destruct (decide _).
Qed.

Lemma arrive_followup e sock data s :
  arrive (FollowUp e sock data) s =
    match shape data with
    | Some r => (Ended (Rejected r), s, [ConsoleError r])
    | None => (Waiting AwIncr, s, [])
    end.
Proof.
  unfold arrive, settle. unfold bind at 1. rewrite validate_shape. by destruct (shape data).
Qed.

(** The steps of a thread. *)
Lemma exec_step st i r a next s out :
  threads st !! i = Some {| request := r; stage := At (Waiting a) |} ->
  resume r a (db st) = (next, s, out) ->
  advance st (Exec i) =
    Some {| db := s; connected := connected st;
            threads := <[i := {| request := r; stage := Answered next out |}]> (threads st);
            sent := sent st |}.
Proof. intros Hi Hr. unfold advance. by rewrite Hi, Hr. Qed.

Lemma resume_step st i r next out :
  threads st !! i = Some {| request := r; stage := Answered next out |} ->
  advance st (Resume i) =
    Some {| db := db st; connected := connected st;
            threads := <[i := {| request := r; stage := At next |}]> (threads st);
            sent := sent st ++ deliver (connected st) r out |}.
Proof. intros Hi. unfold advance. by rewrite Hi. Qed.

Lemma arrive_step st r p s out :
  socket_of r ∈ connected st ->
  arrive r (db st) = (p, s, out) ->
  advance st (Arrive r) =
    Some {| db := s; connected := connected st;
            threads := threads st ++ [{| request := r; stage := At p |}];
            sent := sent st ++ deliver (connected st) r out |}.
Proof. intros Hc Ha. unfold advance. by rewrite (bool_decide_eq_true_2 _ Hc), Ha. Qed.

End NodeFacts.

(** ** What every step keeps *)

Module Loop.
Import Redis Shared Server Blocks Failure Log More Node NodeFacts.

(** What one served call does to the logs. *)
Lemma arrive_db r s : (arrive r s).1.2 = s.
Proof.
  destruct r as [e c d|t c l]; [|reflexivity].
  unfold arrive, settle. unfold bind at 1. rewrite validate_shape.
  by destruct (shape d).
Qed.

Lemma resume_questions r a s :
  questions (resume r a s).1.2 = questions s \/
  exists e c d t,
    r = FollowUp e c d /\ a = AwXAddQuestions t /\ fault e <> Some AtXAddQuestions /\
    questions (resume r a s).1.2 = questions s ++
      [(next_id (later e) (last_id (questions s)), {| q_text := t; q_createdAt := storedAt e |})].
Proof.
  destruct r as [e c d|t c l].
  2:{ left. destruct a; simpl; try reflexivity. by rewrite request_replay_db. }
  destruct a as [|count| | | | |t|t i|]; simpl;
    unfold settle, bind, ret, reject_if, emit, redis_incr, redis_expire, redis_get, redis_set_ex,
      xAdd_followups, openai_create, xAdd_questions, redis_publish, await, xAdd;
    try (destruct (incr _ _ _)); simpl;
    repeat case_match; simplify_eq/=; try (by left).
  right. by exists e, c, d, t.
Qed.

Lemma resume_above r a s : above id0 (questions s) -> above id0 (questions (resume r a s).1.2).
Proof.
  intros H. destruct (resume_questions r a s) as [->|(e & c & d & t & _ & _ & _ & ->)]; [done|].
  by apply above_xAdd.
Qed.

Lemma advance_sound st x st' : advance st x = Some st' -> sound st -> sound st'.
Proof.
  intros H [Hn Ha]. destruct x as [c|c|r|i|i]; simpl in H.
  - destruct (bool_decide (c ∈ connected st)) eqn:E; [discriminate|].
    apply bool_decide_eq_false in E. inversion H; subst. split; [|exact Ha]. simpl.
    apply NoDup_app. split; [exact Hn|]. split; [|apply NoDup_singleton].
    intros x Hx Hx'. apply list_elem_of_singleton in Hx'. by subst.
  - destruct (bool_decide _); [|discriminate]. inversion H; subst. split; [|exact Ha]. simpl.
    eapply sublist_NoDup; [exact Hn|]. apply Cursor.sublist_filter.
  - destruct (bool_decide _); [|discriminate].
    pose proof (arrive_db r (db st)) as Hd.
    destruct (arrive r (db st)) as [[p s] out]. simpl in Hd. subst s.
    inversion H; subst. by split.
  - destruct (threads st !! i) as [[r [[a| |]|]]|]; try discriminate.
    pose proof (resume_above r a (db st) Ha) as Hr.
    destruct (resume r a (db st)) as [[next s] out]. inversion H; subst. by split.
  - destruct (threads st !! i) as [[r [|next out]]|]; try discriminate.
    inversion H; subst. by split.
Qed.

Lemma advance_all_sound xs : forall st st',
  advance_all st xs = Some st' -> sound st -> sound st'.
Proof.
  induction xs as [|x xs IH]; intros st st' H Hs; simpl in H.
  - by inversion H; subst.
  - destruct (advance st x) as [st1|] eqn:E; [|discriminate].
    eapply IH; [exact H|]. eapply advance_sound; eassumption.
Qed.

Lemma start_sound : sound start.
Proof. split; [apply NoDup_nil_2|exact I]. Qed.






End Loop.

(** ** Replay and broadcast on one socket *)

Module Reconnect.
Import Redis Shared Server Failure Log More Node NodeFacts Loop.










End Reconnect.

Module Fanout.
Import Redis Shared Server Failure Log More Node NodeFacts Loop.

(** What a broadcast puts in the inbox of socket [c]. *)
Lemma io_emit_to c conn ev :
  NoDup conn ->
  List.filter (fun m => bool_decide (to m = c)) (io_emit conn ev)
  = if bool_decide (c ∈ conn) then [{| to := c; origin := Live; event := ev |}] else [].
Proof.
  unfold io_emit. induction conn as [|d conn IH]; intros Hn; [reflexivity|].
  apply NoDup_cons in Hn as [Hd Hn]. simpl. rewrite (IH Hn).
  destruct (decide (d = c)) as [->|Hne].
  - rewrite bool_decide_eq_true_2 by reflexivity.
    rewrite (bool_decide_eq_true_2 (c ∈ c :: conn)) by apply list_elem_of_here.
    by rewrite (bool_decide_eq_false_2 (c ∈ conn)).
  - rewrite bool_decide_eq_false_2 by exact Hne.
    destruct (decide (c ∈ conn)) as [Hin|Hin].
    + rewrite !bool_decide_eq_true_2; [done|by right|done].
    + rewrite !bool_decide_eq_false_2; [done| |done].
      intros H. apply elem_of_cons in H as [->|H]; done.
Qed.

(** X15: a replay in the gap is a double delivery.  In any state the
    server gets to, let a run stand at its XADD on [questions:stream] and a
    socket [c] connect.  The XADD is served, [c] asks for a replay from the
    cursor of the log as it was before, the publish of the run and the
    XREAD of the replay are served and their replies handled in that order.
    Then [c] is sent the question of that run twice, live and then
    replayed, with the same text and the same stream id; the [createdAt] of
    the live event is the time of the broadcast, that of the replayed one
    the time stored in the log. *)
Theorem race_delivers_twice xs st j e sock data aiText c :
  advance_all start xs = Some st ->
  threads st !! j = Some {| request := FollowUp e sock data;
                            stage := At (Waiting (AwXAddQuestions aiText)) |} ->
  fault e = None ->
  c ∉ connected st ->
  let k := length (threads st) in
  let i := next_id (later e) (last_id (questions (db st))) in
  exists st',
    advance_all st [Connect c; Exec j; Resume j;
                    Arrive (ReplayRequest false c (cursor_of (db st)));
                    Exec j; Exec k; Resume j; Resume k] = Some st' /\
    questions (db st') =
      questions (db st) ++ [(i, {| q_text := aiText; q_createdAt := storedAt e |})] /\
    received c st' =
      received c st ++
      [{| to := c; origin := Live;
          event := {| text := aiText; aq_createdAt := broadcastAt e; streamId := Some i |} |};
       {| to := c; origin := Replay;
          event := {| text := aiText; aq_createdAt := storedAt e; streamId := Some i |} |}].
Proof.
  intros Hrun Hj Hf Hc k i.
  destruct (advance_all_sound _ _ _ Hrun start_sound) as [Hn Ha].
  set (m := (i, {| q_text := aiText; q_createdAt := storedAt e |})).
  set (live := {| text := aiText; aq_createdAt := broadcastAt e; streamId := Some i |}).
  set (pub := Publish "questions:live"
                {| text := aiText; aq_createdAt := publishedAt e; streamId := Some i |}).
  set (rq := FollowUp e sock data).
  set (rp := ReplayRequest false c (cursor_of (db st))).
  set (conn := connected st ++ [c]).
  set (s1 := {| keys := keys (db st); followups := followups (db st);
                questions := questions (db st) ++ [m] |}).
  assert (Ha' : above id0 (questions (db st) ++ [m])) by (by apply above_xAdd).
  assert (Hrep : request_replay false c (cursor_of (db st)) s1
                 = (s1, [Call XREAD "questions:stream"; SocketEmit c (replayed m)])).
  { unfold request_replay, xRead, cursor_of. cbn [questions s1].
    rewrite (Trail.read_after_last _ _ Ha'). reflexivity. }
  assert (Hin : c ∈ conn).
  { apply elem_of_app. right. apply list_elem_of_here. }
  assert (Hn' : NoDup conn).
  { apply NoDup_app. split; [exact Hn|]. split; [|apply NoDup_singleton].
    intros x Hx Hx'. apply list_elem_of_singleton in Hx'. by subst. }
  assert (Hlt : (j < length (threads st))%nat) by (by apply lookup_lt_Some in Hj).
  assert (Hjk : j <> k) by (subst k; lia).
  set (t1 := <[j := {| request := rq;
                       stage := Answered (Waiting (AwPublish aiText i))
                                  [Call XADD "questions:stream"] |}]> (threads st)).
  set (t2 := <[j := {| request := rq; stage := At (Waiting (AwPublish aiText i)) |}]> t1).
  set (t3 := t2 ++ [{| request := rp; stage := At (Waiting AwXRead) |}]).
  set (t4 := <[j := {| request := rq; stage := Answered (Ended Broadcast) [pub; IoEmit live] |}]> t3).
  set (t5 := <[k := {| request := rp;
                       stage := Answered Served
                                  [Call XREAD "questions:stream"; SocketEmit c (replayed m)] |}]> t4).
  set (t6 := <[j := {| request := rq; stage := At (Ended Broadcast) |}]> t5).
  set (t7 := <[k := {| request := rp; stage := At Served |}]> t6).
  assert (L1 : length t1 = length (threads st)) by (subst t1; by rewrite length_insert).
  assert (L2 : length t2 = length (threads st)) by (subst t2; by rewrite length_insert).
  assert (L3 : length t3 = S k) by (subst t3; rewrite length_app, L2; simpl; lia).
  assert (L4 : length t4 = S k) by (subst t4; by rewrite length_insert).
  assert (L5 : length t5 = S k) by (subst t5; by rewrite length_insert).
  set (x1 := {| db := db st; connected := conn; threads := threads st; sent := sent st |}).
  set (x2 := {| db := s1; connected := conn; threads := t1; sent := sent st |}).
  set (x3 := {| db := s1; connected := conn; threads := t2;
                sent := sent st ++ deliver conn rq [Call XADD "questions:stream"] |}).
  set (x4 := {| db := s1; connected := conn; threads := t3;
                sent := sent x3 ++ deliver conn rp [] |}).
  set (x5 := {| db := s1; connected := conn; threads := t4; sent := sent x4 |}).
  set (x6 := {| db := s1; connected := conn; threads := t5; sent := sent x4 |}).
  set (x7 := {| db := s1; connected := conn; threads := t6;
                sent := sent x4 ++ deliver conn rq [pub; IoEmit live] |}).
  set (x8 := {| db := s1; connected := conn; threads := t7;
                sent := sent x7 ++
                        deliver conn rp [Call XREAD "questions:stream"; SocketEmit c (replayed m)] |}).
  assert (E1 : advance st (Connect c) = Some x1).
  { unfold advance. by rewrite (bool_decide_eq_false_2 _ Hc). }
  assert (E2 : advance x1 (Exec j) = Some x2).
  { apply (exec_step x1 j rq (AwXAddQuestions aiText)); [exact Hj|].
    subst rq. rewrite resume_xAdd_questions. cbn zeta.
    rewrite Hf. reflexivity. }
  assert (E3 : advance x2 (Resume j) = Some x3).
  { apply (resume_step x2 j rq). subst t1. cbn [threads x2].
    by apply list_lookup_insert_eq. }
  assert (E4 : advance x3 (Arrive rp) = Some x4).
  { apply (arrive_step x3 rp); [exact Hin|reflexivity]. }
  assert (E5 : advance x4 (Exec j) = Some x5).
  { apply (exec_step x4 j rq (AwPublish aiText i)).
    - cbn [threads x4]. subst t3. rewrite lookup_app_l by (rewrite L2; exact Hlt).
      subst t2. apply list_lookup_insert_eq. by rewrite L1.
    - subst rq. rewrite resume_publish. cbn zeta. rewrite Hf. reflexivity. }
  assert (E6 : advance x5 (Exec k) = Some x6).
  { apply (exec_step x5 k rp AwXRead).
    - cbn [threads x5]. subst t4. rewrite list_lookup_insert_ne by exact Hjk.
      subst t3. rewrite lookup_app_r by (rewrite L2; subst k; lia).
      rewrite L2. fold k. by rewrite Nat.sub_diag.
    - subst rp. unfold resume. change (db x5) with s1. by rewrite Hrep. }
  assert (E7 : advance x6 (Resume j) = Some x7).
  { apply (resume_step x6 j rq). cbn [threads x6]. subst t5.
    rewrite list_lookup_insert_ne by (intros ->; by apply Hjk).
    subst t4. apply list_lookup_insert_eq. rewrite L3. lia. }
  assert (E8 : advance x7 (Resume k) = Some x8).
  { apply (resume_step x7 k rp). cbn [threads x7]. subst t6.
    rewrite list_lookup_insert_ne by exact Hjk.
    subst t5. apply list_lookup_insert_eq. rewrite L4. lia. }
  exists x8. split; [|split].
  - cbn [advance_all]. rewrite E1. cbn iota beta. rewrite E2. cbn iota beta. rewrite E3.
    cbn iota beta. rewrite E4. cbn iota beta. rewrite E5. cbn iota beta. rewrite E6.
    cbn iota beta. rewrite E7. cbn iota beta. rewrite E8. reflexivity.
  - reflexivity.
  - unfold received. cbn [sent x8 x7 x4 x3]. cbn [deliver flat_map app].
    rewrite !app_nil_r. rewrite !List.filter_app.
    rewrite (io_emit_to _ _ _ Hn'), (bool_decide_eq_true_2 _ Hin).
    unfold socket_emit. rewrite (bool_decide_eq_true_2 _ Hin). cbn [List.filter to].
    rewrite bool_decide_eq_true_2 by reflexivity. rewrite <- app_assoc. reflexivity.
Qed.

Lemma race_delivers_twice_witness :
  exists st st',
    advance_all start (Scen.seven ++ [Arrive (Scen.submission 8)] ++ whole 6 7) = Some st /\
    advance_all st [Connect "p2"; Exec 7%nat; Resume 7%nat;
                    Arrive (ReplayRequest false "p2" (cursor_of (db st)));
                    Exec 7%nat; Exec 8%nat; Resume 7%nat; Resume 8%nat] = Some st' /\
    length (questions (db st')) = 8%nat /\
    map tag (received "p2" st') = [(Live, "8"); (Replay, "8")]%string /\
    map (fun m => aq_createdAt (event m)) (received "p2" st') = [8502; 8499].
Proof.
  let o := eval vm_compute in
             (advance_all start (Scen.seven ++ [Arrive (Scen.submission 8)] ++ whole 6 7)) in
  match o with Some ?s => pose (st := s) end.
  destruct (race_delivers_twice
              (Scen.seven ++ [Arrive (Scen.submission 8)] ++ whole 6 7) st 7%nat
              (Scen.asking 8) "r1"%string (Examples.ask "8") "8"%string "p2"%string)
    as (st' & H1 & H2 & H3).
  - vm_compute. reflexivity.
  - vm_compute. reflexivity.
  - reflexivity.
  - change (connected st) with ["r1"%string]. rewrite list_elem_of_singleton. discriminate.
  - exists st, st'. split; [vm_compute; reflexivity|]. split; [exact H1|].
    split; [rewrite H2; vm_compute; reflexivity|].
    split; rewrite H3; vm_compute; reflexivity.
Defined.

End Fanout.

(** ** The dedupe mark under overlapping runs *)

Module Overlap.
Import Redis Shared Server Blocks Keys Dedupe Failure Log More Node NodeFacts Loop.

(** What one step does to a thread. *)
Lemma thread_step st x st' i th' :
  advance st x = Some st' ->
  threads st' !! i = Some th' ->
  threads st !! i = Some th' \/
  (exists r a, x = Exec i /\ threads st !! i = Some {| request := r; stage := At (Waiting a) |} /\
     th' = {| request := r;
              stage := Answered (resume r a (db st)).1.1 (resume r a (db st)).2 |}) \/
  (exists r next out, x = Resume i /\
     threads st !! i = Some {| request := r; stage := Answered next out |} /\
     th' = {| request := r; stage := At next |}) \/
  (exists r, x = Arrive r /\ i = length (threads st) /\
     th' = {| request := r; stage := At (arrive r (db st)).1.1 |}).
Proof.
  intros H Hi. destruct x as [c|c|r|j|j]; simpl in H.
  - destruct (bool_decide _); [discriminate|]. inversion H; subst. by left.
  - destruct (bool_decide _); [|discriminate]. inversion H; subst. by left.
  - destruct (bool_decide _); [|discriminate].
    destruct (arrive r (db st)) as [[p s] o] eqn:Ea. inversion H; subst. simpl in Hi.
    apply lookup_app_Some in Hi as [Hi|[Hlen Hi]]; [by left|].
    right; right; right. exists r.
    destruct (i - length (threads st))%nat as [|n] eqn:En; [|by destruct n].
    simpl in Hi. inversion Hi; subst. split; [reflexivity|]. split; [lia|by rewrite Ea].
  - destruct (threads st !! j) as [[rj [[a| |]|]]|] eqn:Ej; try discriminate.
    destruct (resume rj a (db st)) as [[n s] o] eqn:Er. inversion H; subst. simpl in Hi.
    destruct (decide (i = j)) as [->|Hne].
    + right; left. exists rj, a. split; [reflexivity|]. split; [exact Ej|].
      rewrite list_lookup_insert_eq in Hi by (by apply lookup_lt_Some in Ej).
      inversion Hi; subst. by rewrite Er.
    + left. by rewrite list_lookup_insert_ne in Hi.
  - destruct (threads st !! j) as [[rj [|n o]]|] eqn:Ej; try discriminate.
    inversion H; subst. simpl in Hi.
    destruct (decide (i = j)) as [->|Hne].
    + right; right; left. exists rj, n, o. split; [reflexivity|]. split; [exact Ej|].
      rewrite list_lookup_insert_eq in Hi by (by apply lookup_lt_Some in Ej). by inversion Hi.
    + left. by rewrite list_lookup_insert_ne in Hi.
Qed.

(** ... and to the store. *)
Lemma step_db st x st' :
  advance st x = Some st' ->
  db st' = db st \/
  exists i r a, x = Exec i /\
    threads st !! i = Some {| request := r; stage := At (Waiting a) |} /\
    db st' = (resume r a (db st)).1.2.
Proof.
  intros H. destruct x as [c|c|r|j|j]; simpl in H.
  - destruct (bool_decide _); [discriminate|]. inversion H; subst. by left.
  - destruct (bool_decide _); [|discriminate]. inversion H; subst. by left.
  - destruct (bool_decide _); [|discriminate].
    pose proof (arrive_db r (db st)) as Hd.
    destruct (arrive r (db st)) as [[p s] o]. inversion H; subst. by left.
  - destruct (threads st !! j) as [[rj [[a| |]|]]|] eqn:Ej; try discriminate.
    destruct (resume rj a (db st)) as [[n s] o] eqn:Er. inversion H; subst.
    right. exists j, rj, a. rewrite Er. by repeat split.
  - destruct (threads st !! j) as [[rj [|n o]]|] eqn:Ej; try discriminate.
    inversion H; subst. by left.
Qed.

(** The one call that writes a dedupe key is the SET of a run with that
    item list. *)
Lemma resume_mark r a s data :
  keys (resume r a s).1.2 !! dedupKey data = keys s !! dedupKey data \/
  exists e c d,
    r = FollowUp e c d /\ a = AwSet /\ items d = items data /\
    keys (resume r a s).1.2 !! dedupKey data
      = Some {| val := 1; expireAt := Some (now e + 300 * 1000) |}.
Proof.
  destruct r as [e c d|t c l].
  2:{ left. destruct a; simpl; try reflexivity. by rewrite request_replay_db. }
  pose proof (rate_not_dedup c data) as Hne.
  destruct a as [|count| | | | |t|t i|].
  - rewrite resume_incr. cbn zeta. destruct (decide _); [by left|]. left. simpl.
    by apply incr_other.
  - rewrite resume_expire. cbn zeta. destruct (decide _); [by left|].
    left. destruct (10 <? count); simpl; by apply expire_other.
  - rewrite resume_get. cbn zeta. left. by repeat case_match.
  - rewrite resume_set. cbn zeta. destruct (decide _); [by left|]. simpl.
    destruct (decide (dedupKey d = dedupKey data)) as [Heq|Hd].
    + right. exists e, c, d. split; [reflexivity|]. split; [reflexivity|].
      split; [by apply Fingerprint.dedupKey_inj|].
      rewrite <- Heq. unfold set_ex. by rewrite lookup_insert_eq.
    + left. by apply set_ex_other.
  - rewrite resume_xAdd_followups. cbn zeta. left. by destruct (decide _).
  - rewrite resume_openai. cbn zeta. left. by destruct (decide _).
  - rewrite resume_xAdd_questions. cbn zeta. left. by destruct (decide _).
  - rewrite resume_publish. cbn zeta. left. by destruct (decide _).
  - by left.
Qed.

(** Where a served call leaves its handler. *)
Lemma resume_armed e c d a s :
  (resume (FollowUp e c d) a s).1.1 = Waiting AwSet ->
  a = AwGet /\ marked (now e) d s = false.
Proof.
  destruct a as [|count| | | | |t|t i|].
  - rewrite resume_incr. cbn zeta. by destruct (decide _).
  - rewrite resume_expire. cbn zeta. by repeat case_match.
  - rewrite resume_get. cbn zeta. destruct (decide _); [done|].
    by destruct (marked (now e) d s).
  - rewrite resume_set. cbn zeta. by destruct (decide _).
  - rewrite resume_xAdd_followups. cbn zeta. by destruct (decide _).
  - rewrite resume_openai. cbn zeta. by destruct (decide _).
  - rewrite resume_xAdd_questions. cbn zeta. by destruct (decide _).
  - rewrite resume_publish. cbn zeta. by destruct (decide _).
  - done.
Qed.

Lemma resume_duplicate r a s :
  (resume r a s).1.1 = Ended (Rejected Duplicate) ->
  a = AwGet /\ exists e c d, r = FollowUp e c d /\ marked (now e) d s = true.
Proof.
  destruct r as [e c d|t c l]; [|by destruct a].
  destruct a as [|count| | | | |t|t i|].
  - rewrite resume_incr. cbn zeta. by destruct (decide _).
  - rewrite resume_expire. cbn zeta. by repeat case_match.
  - rewrite resume_get. cbn zeta. destruct (decide _); [done|].
    destruct (marked (now e) d s) eqn:E; [|done]. intros _. split; [done|]. by exists e, c, d.
  - rewrite resume_set. cbn zeta. by destruct (decide _).
  - rewrite resume_xAdd_followups. cbn zeta. by destruct (decide _).
  - rewrite resume_openai. cbn zeta. by destruct (decide _).
  - rewrite resume_xAdd_questions. cbn zeta. by destruct (decide _).
  - rewrite resume_publish. cbn zeta. by destruct (decide _).
  - done.
Qed.

Lemma arrive_not_duplicate r s : (arrive r s).1.1 <> Ended (Rejected Duplicate).
Proof.
  destruct r as [e c d|t c l]; [|done]. rewrite arrive_followup.
  destruct (shape d) as [x|] eqn:E; [|done]. simpl. intros H. simplify_eq.
  destruct (Validation.shape_cases d) as (_ & _ & _ & _ & H). by apply H in E.
Qed.

Lemma arrive_not_armed r s : armed {| request := r; stage := At (arrive r s).1.1 |} = false.
Proof.
  destruct r as [e c d|t c l]; [|done]. rewrite arrive_followup. by destruct (shape d).
Qed.

Lemma lasting_step T data st x st' :
  advance st x = Some st' -> lasting T data st -> lasting T data st'.
Proof.
  intros H [Hm Harm]. split.
  - destruct (step_db _ _ _ H) as [->|(i & r & a & -> & Hi & ->)]; [exact Hm|].
    destruct (resume_mark r a (db st) data) as [->|(e & c & d & -> & -> & Hitems & ->)];
      [exact Hm|].
    specialize (Harm i _ Hi Hitems eq_refl). unfold clock_of in Harm. simpl in Harm.
    eexists; split; [reflexivity|]. intros t Ht. unfold live. simpl.
    destruct (Z.leb_spec t (now e + 300 * 1000)); [reflexivity|lia].
  - intros i th' Hi Hs Ha.
    destruct (thread_step _ _ _ _ _ H Hi)
      as [Hold|[(r & a & -> & Hold & ->)|[(r & n & o & -> & Hold & ->)|(r & -> & -> & ->)]]].
    + by apply (Harm i).
    + destruct r as [e c d|t c l]; [|done]. unfold same_list in Hs. cbn [request] in Hs.
      assert (En : (resume (FollowUp e c d) a (db st)).1.1 = Waiting AwSet).
      { unfold armed in Ha. cbn [stage] in Ha.
        destruct ((resume (FollowUp e c d) a (db st)).1.1) as [[| | | | | | | |]| |];
          try discriminate Ha; reflexivity. }
      apply resume_armed in En as [-> Hnm]. unfold clock_of. cbn [request].
      rewrite (same_items_marked _ _ _ _ Hs) in Hnm.
      destruct Hm as (v & Hv & Hl). rewrite (marked_live _ _ _ _ Hv) in Hnm.
      destruct (Z.le_gt_cases (now e) T) as [Hle|Hgt]; [|lia].
      rewrite Hl in Hnm by exact Hle. discriminate.
    + apply (Harm i _ Hold); [exact Hs|]. exact Ha.
    + by rewrite arrive_not_armed in Ha.
Qed.

Lemma lasting_all T data xs : forall st st',
  advance_all st xs = Some st' -> lasting T data st -> lasting T data st'.
Proof.
  induction xs as [|x xs IH]; intros st st' H Hl; simpl in H.
  - by inversion H; subst.
  - destruct (advance st x) as [st1|] eqn:E; [|discriminate].
    eapply IH; [exact H|]. eapply lasting_step; eassumption.
Qed.


Lemma resume_past r a s :
  past_get {| request := r; stage := At (Waiting a) |} = true ->
  past_get {| request := r; stage := Answered (resume r a s).1.1 (resume r a s).2 |} = true.
Proof.
  unfold past_get. cbn [request stage].
  destruct r as [e c d|t c l]; [|done].
  destruct a as [|count| | | | |t|t i|]; try done; intros _.
  - rewrite resume_set. cbn zeta. destruct (decide _) as [E|]; [|done]. simpl. by rewrite E.
  - rewrite resume_xAdd_followups. cbn zeta. destruct (decide _) as [E|]; [|done].
    simpl. by rewrite E.
  - rewrite resume_openai. cbn zeta. destruct (decide _) as [E|]; [|done]. simpl. by rewrite E.
  - rewrite resume_xAdd_questions. cbn zeta. destruct (decide _) as [E|]; [|done].
    simpl. by rewrite E.
  - rewrite resume_publish. cbn zeta. destruct (decide _) as [E|]; [|done]. simpl. by rewrite E.
Qed.

(** A thread stays in the pool, with its request, and does not go back. *)
Lemma thread_forward st x st' i th :
  advance st x = Some st' ->
  threads st !! i = Some th ->
  exists th', threads st' !! i = Some th' /\ request th' = request th /\
              (past_get th = true -> past_get th' = true).
Proof.
  intros H Hi. destruct x as [c|c|r|j|j]; simpl in H.
  - destruct (bool_decide _); [discriminate|]. inversion H; subst. eauto.
  - destruct (bool_decide _); [|discriminate]. inversion H; subst. eauto.
  - destruct (bool_decide _); [|discriminate].
    destruct (arrive r (db st)) as [[p s] o]. inversion H; subst. simpl.
    exists th. split; [by apply lookup_app_l_Some|done].
  - destruct (threads st !! j) as [[rj [[a| |]|]]|] eqn:Ej; try discriminate.
    pose proof (resume_past rj a (db st)) as Hb.
    destruct (resume rj a (db st)) as [[n s] o] eqn:Er. inversion H; subst. simpl.
    destruct (decide (i = j)) as [->|Hne].
    + rewrite Hi in Ej. simplify_eq.
      rewrite list_lookup_insert_eq by (by apply lookup_lt_Some in Hi).
      eexists. split; [reflexivity|]. split; [reflexivity|exact Hb].
    + rewrite list_lookup_insert_ne by done. eauto.
  - destruct (threads st !! j) as [[rj [|n o]]|] eqn:Ej; try discriminate.
    inversion H; subst. simpl.
    destruct (decide (i = j)) as [->|Hne].
    + rewrite Hi in Ej. simplify_eq.
      rewrite list_lookup_insert_eq by (by apply lookup_lt_Some in Hi).
      eexists. split; [reflexivity|]. split; [reflexivity|done].
    + rewrite list_lookup_insert_ne by done. eauto.
Qed.

Lemma timely_back T data st x st' :
  advance st x = Some st' -> timely T data st' -> timely T data st.
Proof.
  intros H Ht i th Hi Hs Hp.
  destruct (thread_forward _ _ _ _ _ H Hi) as (th' & Hi' & Hr & Hb).
  unfold clock_of. rewrite <- Hr. apply (Ht i th' Hi'); [|by apply Hb].
  unfold same_list in *. by rewrite Hr.
Qed.

Lemma timely_back_all T data xs : forall st st',
  advance_all st xs = Some st' -> timely T data st' -> timely T data st.
Proof.
  induction xs as [|x xs IH]; intros st st' H Ht; simpl in H.
  - by inversion H; subst.
  - destruct (advance st x) as [st1|] eqn:E; [|discriminate].
    eapply timely_back; [exact E|]. by eapply IH.
Qed.

Lemma settled_step T data st x st' :
  advance st x = Some st' -> settled T data st -> timely T data st' -> settled T data st'.
Proof.
  intros H [Hk Hna] Ht. split.
  - destruct (step_db _ _ _ H) as [->|(i & r & a & -> & Hi & ->)]; [exact Hk|].
    destruct (resume_mark r a (db st) data) as [->|(e & c & d & -> & -> & Hitems & _)];
      [exact Hk|].
    by specialize (Hna i _ Hi Hitems).
  - intros i th' Hi Hs.
    destruct (thread_step _ _ _ _ _ H Hi)
      as [Hold|[(r & a & -> & Hold & ->)|[(r & n & o & -> & Hold & ->)|(r & -> & -> & ->)]]].
    + by apply (Hna i).
    + destruct r as [e c d|t c l]; [|done]. unfold same_list in Hs. cbn [request] in Hs.
      destruct (armed _) eqn:Ha; [|reflexivity]. exfalso.
      assert (En : (resume (FollowUp e c d) a (db st)).1.1 = Waiting AwSet).
      { unfold armed in Ha. cbn [stage] in Ha.
        destruct ((resume (FollowUp e c d) a (db st)).1.1) as [[| | | | | | | |]| |];
          try discriminate Ha; reflexivity. }
      assert (Hc : now e <= T).
      { apply (Ht i _ Hi Hs). unfold past_get. cbn [request stage]. by rewrite En. }
      apply resume_armed in En as [-> Hnm].
      rewrite (same_items_marked _ _ _ _ Hs), (marked_live _ _ _ _ Hk) in Hnm.
      unfold live in Hnm. simpl in Hnm.
      destruct (Z.leb_spec (now e) T); [discriminate|lia].
    + by apply (Hna i _ Hold).
    + apply arrive_not_armed.
Qed.

Lemma settled_all T data xs : forall st st',
  advance_all st xs = Some st' -> settled T data st -> timely T data st' -> settled T data st'.
Proof.
  induction xs as [|x xs IH]; intros st st' H Hs Ht; simpl in H.
  - by inversion H; subst.
  - destruct (advance st x) as [st1|] eqn:E; [|discriminate].
    eapply IH; [exact H| |exact Ht].
    eapply settled_step; [exact E|exact Hs|]. by eapply timely_back_all.
Qed.

(** The GET and the SET of a run, as steps. *)
Lemma exec_get st i e sock data :
  threads st !! i = Some {| request := FollowUp e sock data; stage := At (Waiting AwGet) |} ->
  fault e <> Some AtGet ->
  advance st (Exec i) =
    Some {| db := db st; connected := connected st;
            threads := <[i := {| request := FollowUp e sock data;
                                 stage :=
                                   if marked (now e) data (db st)
                                   then Answered (Ended (Rejected Duplicate))
                                          [Call GET (dedupKey data); ConsoleError Duplicate]
                                   else Answered (Waiting AwSet) [Call GET (dedupKey data)] |}]>
                         (threads st);
            sent := sent st |}.
Proof.
  intros Hi Hf. unfold advance. rewrite Hi, resume_get. cbn zeta.
  destruct (decide _); [done|]. by destruct (marked _ _ _).
Qed.

Lemma exec_set st i e sock data :
  threads st !! i = Some {| request := FollowUp e sock data; stage := At (Waiting AwSet) |} ->
  fault e <> Some AtSet ->
  advance st (Exec i) =
    Some {| db := with_keys (db st) (set_ex (dedupKey data) 1 300 (now e) (keys (db st)));
            connected := connected st;
            threads := <[i := {| request := FollowUp e sock data;
                                 stage := Answered (Waiting AwXAddFollowups)
                                            [Call SET (dedupKey data)] |}]> (threads st);
            sent := sent st |}.
Proof.
  intros Hi Hf. unfold advance. rewrite Hi, resume_set. cbn zeta.
  by destruct (decide _).
Qed.

End Overlap.

Module Marks.
Import Redis Shared Server Blocks Keys Dedupe Failure Log More Node NodeFacts Loop Overlap.

(** C6, as stated, fails twice.  A live mark does not make the rejection
    Duplicate when the rate limit rejects first: the eleventh submission of
    a socket within a minute, with a list that is marked, ends in
    RateLimited.  And of two submissions with the same list, a millisecond
    apart, neither is rejected when the GET of the second is served before
    the SET of the first: both are broadcast.  The mark is then the one of
    the second SET, and a third submission of the list is still rejected
    300.001 seconds after the first. *)
Lemma duplicate_not_decided_by_mark :
  (marked 55000 (Examples.ask "a") (serve empty_db Examples.ten) = true /\
   outcome_of (followup_create (Examples.at_ 55000) "r1" (Examples.ask "a")
                 (serve empty_db Examples.ten)) = Rejected RateLimited) /\
  (exists st,
     advance_all start Scen.twice = Some st /\
     map stage (threads st) = [At (Ended Broadcast); At (Ended Broadcast)] /\
     length (questions (db st)) = 2%nat /\
     exists st',
       advance_all st (Arrive (FollowUp (Examples.at_ 301001) "r1" Examples.three)
                         :: whole 3 2) = Some st' /\
       stage <$> threads st' !! 2%nat = Some (At (Ended (Rejected Duplicate)))).
Proof.
  split; [split; vm_compute; reflexivity|].
  eexists. split; [vm_compute; reflexivity|].
  split; [vm_compute; reflexivity|]. split; [vm_compute; reflexivity|].
  eexists. split; vm_compute; reflexivity.
Qed.

(** How a thread comes to stand at a rejection with Duplicate. *)
Lemma duplicate_step st x st' i r :
  advance st x = Some st' ->
  threads st !! i <> threads st' !! i ->
  (exists out, threads st' !! i
               = Some {| request := r; stage := Answered (Ended (Rejected Duplicate)) out |}) \/
  threads st' !! i = Some {| request := r; stage := At (Ended (Rejected Duplicate)) |} ->
  (x = Exec i /\
   threads st !! i = Some {| request := r; stage := At (Waiting AwGet) |} /\
   exists e sock data, r = FollowUp e sock data /\ marked (now e) data (db st) = true) \/
  (x = Resume i /\
   exists out, threads st !! i
               = Some {| request := r; stage := Answered (Ended (Rejected Duplicate)) out |}).
Proof.
  intros H Hne Hd. destruct x as [c|c|r0|j|j]; unfold advance in H.
  - destruct (bool_decide _); [discriminate|]. by inversion H; subst.
  - destruct (bool_decide _); [|discriminate]. by inversion H; subst.
  - destruct (bool_decide _); [|discriminate].
    destruct (arrive r0 (db st)) as [[p s] out] eqn:Ea. inversion H; subst. clear H.
    cbn [threads] in *.
    destruct (decide (i < length (threads st))%nat) as [Hlt|Hge].
    { rewrite lookup_app_l in Hne by exact Hlt. done. }
    destruct (decide (i = length (threads st))) as [->|Hi].
    + rewrite list_lookup_middle in Hd by reflexivity.
      destruct Hd as [[out' Hd]|Hd]; inversion Hd; subst.
      pose proof (arrive_not_duplicate r (db st)) as Hn. rewrite Ea in Hn. done.
    + rewrite !lookup_ge_None_2 in Hne; [done| |lia].
      rewrite length_app. simpl. lia.
  - destruct (threads st !! j) as [[r0 [[a| |]|]]|] eqn:Ej; try discriminate.
    destruct (resume r0 a (db st)) as [[next s] out] eqn:Er. inversion H; subst. clear H.
    cbn [threads] in *.
    destruct (decide (i = j)) as [->|Hij].
    2:{ rewrite list_lookup_insert_ne in Hne by done. done. }
    rewrite list_lookup_insert_eq in Hd by (by apply lookup_lt_Some in Ej).
    destruct Hd as [[out' Hd]|Hd]; inversion Hd; subst.
    destruct (resume_duplicate r a (db st)) as (-> & e & c & d & -> & Hm); [by rewrite Er|].
    left. split; [done|]. split; [done|]. by exists e, c, d.
  - destruct (threads st !! j) as [[r0 [|next out]]|] eqn:Ej; try discriminate.
    inversion H; subst. clear H. cbn [threads] in *.
    destruct (decide (i = j)) as [->|Hij].
    2:{ rewrite list_lookup_insert_ne in Hne by done. done. }
    rewrite list_lookup_insert_eq in Hd by (by apply lookup_lt_Some in Ej).
    destruct Hd as [[out' Hd]|Hd]; inversion Hd; subst.
    right. eauto.
Qed.

(** C6 (amended): the GET decides, and the mark protects from the SET on.
    With the handlers interleaved at their awaits, in any state:
    - a submission whose GET is served (it has passed validation and the
      rate limit, and the GET does not throw) is rejected with Duplicate if
      and only if a live mark exists at that moment under the fingerprint
      of its item list, and goes on to its SET otherwise;
    - a handler gets to a rejection with Duplicate by no other step: its
      GET was served and found a live mark;
    - the SET of an accepted run leaves the mark with 300 seconds to live;
    - once that SET is served, whatever is served and handled after it, a
      submission of the same list whose GET is served with a clock at most
      300 seconds later is rejected with Duplicate, when no other run of
      that list is between its GET and its SET at the moment of the SET
      (or, more generally, when the runs that are carry no earlier clock);
    - if no other run of that list is between its GET and its SET at that
      moment, then as long as every run of the list whose GET has been
      served carries a clock not after the expiry, the mark is as the SET
      left it, and a submission of the list whose GET is served with a
      clock after the expiry finds no mark and goes on to its SET. *)
Theorem dedupe_mark_window :
  (forall st i e sock data,
     threads st !! i = Some {| request := FollowUp e sock data; stage := At (Waiting AwGet) |} ->
     fault e <> Some AtGet ->
     exists next out st',
       advance st (Exec i) = Some st' /\ db st' = db st /\
       threads st' !! i = Some {| request := FollowUp e sock data; stage := Answered next out |} /\
       (next = Ended (Rejected Duplicate) <-> marked (now e) data (db st) = true) /\
       (next = Waiting AwSet <-> marked (now e) data (db st) = false)) /\
  (forall st x st' i r,
     advance st x = Some st' ->
     threads st !! i <> threads st' !! i ->
     (exists out, threads st' !! i
                  = Some {| request := r; stage := Answered (Ended (Rejected Duplicate)) out |}) \/
     threads st' !! i = Some {| request := r; stage := At (Ended (Rejected Duplicate)) |} ->
     (x = Exec i /\
      threads st !! i = Some {| request := r; stage := At (Waiting AwGet) |} /\
      exists e sock data, r = FollowUp e sock data /\ marked (now e) data (db st) = true) \/
     (x = Resume i /\
      exists out, threads st !! i
                  = Some {| request := r;
                            stage := Answered (Ended (Rejected Duplicate)) out |})) /\
  (forall st i e sock data,
     threads st !! i = Some {| request := FollowUp e sock data; stage := At (Waiting AwSet) |} ->
     fault e <> Some AtSet ->
     exists st',
       advance st (Exec i) = Some st' /\
       keys (db st') !! dedupKey data
         = Some {| val := 1; expireAt := Some (now e + 300 * 1000) |}) /\
  (forall st iA eA cA dA xs st' iB eB cB dB,
     threads st !! iA = Some {| request := FollowUp eA cA dA; stage := At (Waiting AwSet) |} ->
     fault eA <> Some AtSet ->
     (forall i th, threads st !! i = Some th -> same_list dA th -> armed th = true ->
                   now eA <= clock_of th) ->
     advance_all st (Exec iA :: xs) = Some st' ->
     threads st' !! iB = Some {| request := FollowUp eB cB dB; stage := At (Waiting AwGet) |} ->
     fault eB <> Some AtGet ->
     items dB = items dA -> now eB <= now eA + 300 * 1000 ->
     exists st'',
       advance st' (Exec iB) = Some st'' /\
       threads st'' !! iB =
         Some {| request := FollowUp eB cB dB;
                 stage := Answered (Ended (Rejected Duplicate))
                            [Call GET (dedupKey dB); ConsoleError Duplicate] |}) /\
  (forall st iA eA cA dA xs st',
     threads st !! iA = Some {| request := FollowUp eA cA dA; stage := At (Waiting AwSet) |} ->
     fault eA <> Some AtSet ->
     (forall i th, threads st !! i = Some th -> same_list dA th -> i <> iA -> armed th = false) ->
     advance_all st (Exec iA :: xs) = Some st' ->
     timely (now eA + 300 * 1000) dA st' ->
     keys (db st') !! dedupKey dA
       = Some {| val := 1; expireAt := Some (now eA + 300 * 1000) |} /\
     forall iB eB cB dB,
       threads st' !! iB = Some {| request := FollowUp eB cB dB; stage := At (Waiting AwGet) |} ->
       fault eB <> Some AtGet ->
       items dB = items dA -> now eA + 300 * 1000 < now eB ->
       exists st'',
         advance st' (Exec iB) = Some st'' /\
         threads st'' !! iB =
           Some {| request := FollowUp eB cB dB;
                   stage := Answered (Waiting AwSet) [Call GET (dedupKey dB)] |}).
Proof.
  split; [|split; [|split; [|split]]].
  - intros st i e sock data Hi Hf. rewrite (exec_get _ _ _ _ _ Hi Hf).
    assert (Hlt : (i < length (threads st))%nat) by (by apply lookup_lt_Some in Hi).
    destruct (marked (now e) data (db st)); do 3 eexists;
      (split; [reflexivity|]); (split; [reflexivity|]);
      (split; [cbn [threads]; by apply list_lookup_insert_eq|]);
      split; split; (done || discriminate).
  - intros st x st' i r H Hne Hd. by eapply duplicate_step.
  - intros st i e sock data Hi Hf. rewrite (exec_set _ _ _ _ _ Hi Hf).
    eexists. split; [reflexivity|]. simpl. unfold set_ex. by rewrite lookup_insert_eq.
  - intros st iA eA cA dA xs st' iB eB cB dB HA HfA Harm Hrun HB HfB Hitems Hnow.
    change (advance_all st (Exec iA :: xs))
      with (match advance st (Exec iA) with
            | Some st1 => advance_all st1 xs | None => None end) in Hrun.
    rewrite (exec_set _ _ _ _ _ HA HfA) in Hrun.
    match type of Hrun with advance_all ?s1 xs = _ => set (st1 := s1) in Hrun end.
    assert (Hl : lasting (now eA + 300 * 1000) dA st1).
    { split.
      - apply mark_set_until. subst st1. simpl. unfold set_ex. by rewrite lookup_insert_eq.
      - intros i th Hi Hs Ha. subst st1. cbn [threads] in Hi.
        destruct (decide (i = iA)) as [->|Hne].
        + rewrite list_lookup_insert_eq in Hi by (by apply lookup_lt_Some in HA).
          inversion Hi; subst. discriminate.
        + rewrite list_lookup_insert_ne in Hi by done.
          specialize (Harm i th Hi Hs Ha). lia. }
    destruct (lasting_all _ _ _ _ _ Hrun Hl) as [(v & Hv & Hlive) _].
    rewrite (exec_get _ _ _ _ _ HB HfB).
    assert (Hm : marked (now eB) dB (db st') = true).
    { rewrite (same_items_marked _ _ _ _ Hitems), (marked_live _ _ _ _ Hv). by apply Hlive. }
    rewrite Hm. eexists. split; [reflexivity|]. cbn [threads].
    apply list_lookup_insert_eq. by apply lookup_lt_Some in HB.
  - intros st iA eA cA dA xs st' HA HfA Hna Hrun Ht.
    change (advance_all st (Exec iA :: xs))
      with (match advance st (Exec iA) with
            | Some st1 => advance_all st1 xs | None => None end) in Hrun.
    rewrite (exec_set _ _ _ _ _ HA HfA) in Hrun.
    match type of Hrun with advance_all ?s1 xs = _ => set (st1 := s1) in Hrun end.
    assert (Hs : settled (now eA + 300 * 1000) dA st1).
    { split.
      - subst st1. simpl. unfold set_ex. by rewrite lookup_insert_eq.
      - intros i th Hi Hsl. subst st1. cbn [threads] in Hi.
        destruct (decide (i = iA)) as [->|Hne].
        + rewrite list_lookup_insert_eq in Hi by (by apply lookup_lt_Some in HA).
          by inversion Hi; subst.
        + rewrite list_lookup_insert_ne in Hi by done. by apply (Hna i). }
    destruct (settled_all _ _ _ _ _ Hrun Hs Ht) as [Hk _].
    split; [exact Hk|].
    intros iB eB cB dB HB HfB Hitems Hlate.
    rewrite (exec_get _ _ _ _ _ HB HfB).
    assert (Hm : marked (now eB) dB (db st') = false).
    { rewrite (same_items_marked _ _ _ _ Hitems), (marked_live _ _ _ _ Hk).
      unfold live. simpl. destruct (Z.leb_spec (now eB) (now eA + 300 * 1000)); [lia|done]. }
    rewrite Hm. eexists. split; [reflexivity|]. cbn [threads].
    apply list_lookup_insert_eq. by apply lookup_lt_Some in HB.
Qed.

Lemma dedupe_mark_window_witness :
  exists st st1 st2,
    advance_all start Scen.in_turn = Some st /\
    advance_all st (Exec 0%nat :: Scen.again 200000) = Some st1 /\
    advance_all st (Exec 0%nat :: Scen.again 400000) = Some st2 /\
    (exists st'',
       advance st1 (Exec 1%nat) = Some st'' /\
       threads st'' !! 1%nat =
         Some {| request := FollowUp (Examples.at_ 200000) "r2" Examples.three;
                 stage := Answered (Ended (Rejected Duplicate))
                            [Call GET (dedupKey Examples.three); ConsoleError Duplicate] |}) /\
    keys (db st2) !! dedupKey Examples.three
      = Some {| val := 1; expireAt := Some (now (Examples.at_ 1000) + 300 * 1000) |} /\
    (exists st'',
       advance st2 (Exec 1%nat) = Some st'' /\
       threads st'' !! 1%nat =
         Some {| request := FollowUp (Examples.at_ 400000) "r2" Examples.three;
                 stage := Answered (Waiting AwSet) [Call GET (dedupKey Examples.three)] |}).
Proof.
  let o := eval vm_compute in (advance_all start Scen.in_turn) in
  match o with Some ?s => pose (st := s) end.
  let o := eval vm_compute in (advance_all st (Exec 0%nat :: Scen.again 200000)) in
  match o with Some ?s => pose (st1 := s) end.
  let o := eval vm_compute in (advance_all st (Exec 0%nat :: Scen.again 400000)) in
  match o with Some ?s => pose (st2 := s) end.
  destruct dedupe_mark_window as (_ & _ & _ & H5 & H6).
  assert (H0 : threads st !! 0%nat
               = Some {| request := FollowUp (Examples.at_ 1000) "r1" Examples.three;
                         stage := At (Waiting AwSet) |}) by (vm_compute; reflexivity).
  exists st, st1, st2.
  split; [vm_compute; reflexivity|]. split; [vm_compute; reflexivity|].
  split; [vm_compute; reflexivity|]. split; [|].
  - apply (H5 st 0%nat (Examples.at_ 1000) "r1"%string Examples.three
              (Scen.again 200000) st1 1%nat (Examples.at_ 200000) "r2"%string Examples.three).
    + exact H0.
    + discriminate.
    + intros [|[|i]] th Hi Hs Ha; vm_compute in Hi; inversion Hi; subst.
      vm_compute. intros E. discriminate E.
    + vm_compute. reflexivity.
    + vm_compute. reflexivity.
    + discriminate.
    + reflexivity.
    + vm_compute. intros E. discriminate E.
  - destruct (H6 st 0%nat (Examples.at_ 1000) "r1"%string Examples.three
                (Scen.again 400000) st2) as [Hk Hb].
    + exact H0.
    + discriminate.
    + intros [|[|i]] th Hi Hs Hne; [done| |]; vm_compute in Hi; inversion Hi.
    + vm_compute. reflexivity.
    + intros [|[|[|i]]] th Hi Hs Hp; vm_compute in Hi; inversion Hi; subst.
      * vm_compute. intros E. discriminate E.
      * discriminate Hp.
    + split; [exact Hk|].
      apply (Hb 1%nat (Examples.at_ 400000) "r2"%string Examples.three).
      * vm_compute. reflexivity.
      * discriminate.
      * reflexivity.
      * vm_compute. reflexivity.
Defined.

(** X19: a rejection does not refresh the mark.  Let the mark of an item
    list expire at [T], no run with that list standing between its GET and
    its SET.  Whatever is served and handled from there, in whatever order,
    as long as every run with that list whose GET has been served carries
    a clock not after [T], the mark is as it was and no run with that list
    stands between GET and SET: the mark is live exactly up to [T], however
    many submissions of the list were rejected in between. *)
Theorem mark_not_refreshed T data st xs st' :
  settled T data st ->
  advance_all st xs = Some st' ->
  timely T data st' ->
  settled T data st' /\
  (forall t, marked t data (db st') = (t <=? T)).
Proof.
  intros Hs Hrun Ht.
  pose proof (settled_all _ _ _ _ _ Hrun Hs Ht) as Hs'.
  split; [exact Hs'|]. intros t. destruct Hs' as [Hk _].
  by rewrite (marked_live _ _ _ _ Hk).
Qed.

Lemma mark_not_refreshed_witness :
  exists st st',
    advance_all start (Scen.in_turn ++ [Exec 0%nat]) = Some st /\
    advance_all st (Scen.again 200000 ++ whole 1 1) = Some st' /\
    map stage (threads st') = [At (Ended Broadcast); At (Ended (Rejected Duplicate))] /\
    settled 301000 Examples.three st' /\
    (forall t, marked t Examples.three (db st') = (t <=? 301000)).
Proof.
  let o := eval vm_compute in (advance_all start (Scen.in_turn ++ [Exec 0%nat])) in
  match o with Some ?s => pose (st := s) end.
  let o := eval vm_compute in (advance_all st (Scen.again 200000 ++ whole 1 1)) in
  match o with Some ?s => pose (st' := s) end.
  exists st, st'.
  split; [vm_compute; reflexivity|]. split; [vm_compute; reflexivity|].
  split; [vm_compute; reflexivity|].
  apply (mark_not_refreshed 301000 Examples.three st (Scen.again 200000 ++ whole 1 1) st').
  - split; [vm_compute; reflexivity|].
    intros [|[|i]] th Hi Hs; vm_compute in Hi; inversion Hi; subst. reflexivity.
  - vm_compute. reflexivity.
  - intros [|[|[|i]]] th Hi Hs Hp; vm_compute in Hi; inversion Hi; subst;
      vm_compute; intros E; discriminate E.
Defined.

End Marks.
